(** * gmail-multi-inbox-mcp: account registry, resolver and fan-out aggregation

    A shallow embedding of the TypeScript sources [src/config.ts],
    [src/accounts.ts], [src/index.ts] and [src/gmail-client.ts], followed by
    the properties of the multi-account resolution and aggregation layer.

    Conventions of the embedding:
    - a JavaScript string is the list of its UTF-16 code units;
    - a JavaScript number is a rational, NaN or a signed infinity (every
      finite double is a rational, and [Math.min], [Math.max], the sign of a
      difference and the truncation done by [slice] are exact on them);
    - a thrown [Error] is a value of the type [Error] below, and a function
      that may throw returns a [Result];
    - code that touches the disk threads the file system explicitly;
    - what Node and Google's libraries do is taken from type classes
      ([Runtime], [Builtins], [NumberFormat], [GmailApi], [GmailWriteApi],
      [OAuthUrlApi]); a call to the provider answers or rejects, and names
      the token sets the auth client refreshed while the call ran.

    Assumptions on the environment:
    - [mkdir] with [recursive] and [writeFile] succeed, and a write is on
      the disk when it is issued;
    - the promises given to [Promise.all] run one after the other, in the
      order of the array. *)

From Stdlib Require Import Ascii String QArith Qabs Qround Lqa.
From Stdlib Require Import Sorted DecimalString.
From stdpp Require Import gmap list strings.

Close Scope Q_scope.
Set Warnings "-register-all".
Local Open Scope N_scope.

(** ** JavaScript strings *)

Abbreviation jsstring := (list N).

(** The code units of a literal whose characters are all below U+0100. *)
Definition js (s : string) : jsstring :=
  (fun a => N_of_ascii a) <$> list_ascii_of_string s.

(** The double quote, U+0022. *)
Definition dquote : jsstring := [34].

(** ECMAScript [WhiteSpace] and [LineTerminator] code points, the characters
    removed by [String.prototype.trim]. *)
Definition is_whitespace (c : N) : bool :=
  (c =? 9) || (c =? 10) || (c =? 11) || (c =? 12) || (c =? 13) || (c =? 32)
  || (c =? 160) || (c =? 5760) || ((8192 <=? c) && (c <=? 8202))
  || (c =? 8232) || (c =? 8233) || (c =? 8239) || (c =? 8287)
  || (c =? 12288) || (c =? 65279).

Fixpoint trimStart (s : jsstring) : jsstring :=
  match s with
  | c :: rest => if is_whitespace c then trimStart rest else s
  | [] => []
  end.

Definition trimEnd (s : jsstring) : jsstring := rev (trimStart (rev s)).

(** [s.trim()] *)
Definition trim (s : jsstring) : jsstring := trimEnd (trimStart s).

(** [s === ''] *)
Definition is_empty (s : jsstring) : bool :=
  match s with [] => true | _ => false end.

(** Truthiness of a string: [Boolean(s)]. *)
Definition truthy_string (s : jsstring) : bool := negb (is_empty s).

(** ** JavaScript numbers *)

Inductive number : Type :=
| Fin (q : Q)
| NaN
| PosInf
| NegInf.

(** [Number.isFinite] on a value that is a number. *)
Definition number_isFinite (n : number) : bool :=
  match n with Fin _ => true | _ => false end.

(** [Math.min(a, b)] *)
Definition Math_min (a b : number) : number :=
  match a, b with
  | NaN, _ | _, NaN => NaN
  | NegInf, _ | _, NegInf => NegInf
  | PosInf, x | x, PosInf => x
  | Fin x, Fin y => if Qle_bool x y then a else b
  end.

(** [Math.max(a, b)] *)
Definition Math_max (a b : number) : number :=
  match a, b with
  | NaN, _ | _, NaN => NaN
  | PosInf, _ | _, PosInf => PosInf
  | NegInf, x | x, NegInf => x
  | Fin x, Fin y => if Qle_bool x y then b else a
  end.

(** [a - b].  On finite doubles the computed difference has the sign of the
    exact one, which is all the sort comparator uses. *)
Definition number_sub (a b : number) : number :=
  match a, b with
  | NaN, _ | _, NaN => NaN
  | PosInf, PosInf | NegInf, NegInf => NaN
  | PosInf, _ | _, NegInf => PosInf
  | NegInf, _ | _, PosInf => NegInf
  | Fin x, Fin y => Fin (x - y)
  end.

(** [a <= b] as a boolean, false when either side is NaN. *)
Definition number_leb (a b : number) : bool :=
  match a, b with
  | NaN, _ | _, NaN => false
  | NegInf, _ | _, PosInf => true
  | PosInf, _ | _, NegInf => false
  | Fin x, Fin y => Qle_bool x y
  end.

(** Truncation toward zero, the finite case of [ToIntegerOrInfinity]. *)
Definition Qtruncate (q : Q) : Z := Z.quot (Qnum q) (Zpos (Qden q)).

(** [arr.slice(0, end)] *)
Definition slice0 {A} (arr : list A) (end_ : number) : list A :=
  match end_ with
  | NaN | NegInf => []
  | PosInf => arr
  | Fin q =>
      let k := Qtruncate q in
      if (k <? 0)%Z
      then take (Z.to_nat (Z.max (Z.of_nat (length arr) + k) 0)) arr
      else take (Z.to_nat k) arr
  end.

(** [arr.sort(comparefn)] for a consistent comparator.  The sort is stable
    (ECMAScript 2019), so its result is the one of a stable insertion: an
    element goes in front of the first element it does not compare greater
    than.  A NaN comparison result counts as 0. *)
Definition comes_first (v : number) : bool :=
  match v with
  | Fin q => Qle_bool q 0
  | NaN | NegInf => true
  | PosInf => false
  end.

Fixpoint sort_insert {A} (comparefn : A -> A -> number) (x : A) (l : list A) : list A :=
  match l with
  | [] => [x]
  | y :: rest =>
      if comes_first (comparefn x y) then x :: l
      else y :: sort_insert comparefn x rest
  end.

Fixpoint Array_sort {A} (comparefn : A -> A -> number) (l : list A) : list A :=
  match l with
  | [] => []
  | x :: rest => sort_insert comparefn x (Array_sort comparefn rest)
  end.

(** ** Errors and results *)

(** The errors the modelled code throws, one constructor per [throw] site
    (or per runtime exception it can meet). *)
Inductive Error : Type :=
| InvalidAccountId (accountId : jsstring)
| UnknownAccount (accountId : jsstring)
| AccountDisabled (accountId : jsstring)
| AccountRequired
| NoEnabledAccounts
| ConfigCorrupt (cause : Error)
| TokenExchangeIncomplete
| ArgumentRequired (name : jsstring)
| FsError (code : jsstring) (detail : jsstring)
| SyntaxError (detail : jsstring)
| TypeError (detail : jsstring)
| RangeError (detail : jsstring)
| InvalidCredentialsContent
| CredentialsIncomplete
| TokenFileInvalid (accountId path : jsstring) (cause : Error)
| ProfileWithoutEmail (accountId : jsstring)
| QueryRequired
| SearchQueryRequired
| External (detail : jsstring).

(** [error.message] *)
Fixpoint message (e : Error) : jsstring :=
  match e with
  | InvalidAccountId accountId =>
      js "Invalid account id " ++ dquote ++ accountId ++ dquote
      ++ js ". Use letters, numbers, underscores, or hyphens only."
  | UnknownAccount accountId =>
      js "Unknown account " ++ dquote ++ accountId ++ dquote ++ js "."
  | AccountDisabled accountId =>
      js "Account " ++ dquote ++ accountId ++ dquote ++ js " is disabled."
  | AccountRequired =>
      js "This tool requires an explicit " ++ dquote ++ js "account" ++ dquote
      ++ js " value."
  | NoEnabledAccounts =>
      js "No enabled Gmail accounts are configured. Use begin_account_auth and finish_account_auth first."
  | ConfigCorrupt cause => js "Failed to read accounts config: " ++ message cause
  | TokenExchangeIncomplete =>
      js "OAuth exchange succeeded but no token payload was returned."
  | ArgumentRequired name => name ++ js " is required."
  | FsError _ detail => detail
  | SyntaxError detail => detail
  | TypeError detail => detail
  | RangeError detail => detail
  | InvalidCredentialsContent => js "Invalid credentials content."
  | CredentialsIncomplete =>
      js "Credentials must include client_id and client_secret under "
      ++ dquote ++ js "installed" ++ dquote ++ js " or " ++ dquote ++ js "web"
      ++ dquote ++ js "."
  | TokenFileInvalid accountId path cause =>
      js "Token file missing or invalid for account " ++ dquote ++ accountId
      ++ dquote ++ js " at " ++ path ++ js ": " ++ message cause
  | ProfileWithoutEmail accountId =>
      js "Gmail profile did not return an email address for account "
      ++ dquote ++ accountId ++ dquote ++ js "."
  | QueryRequired => js "query is required."
  | SearchQueryRequired => js "Search query is required."
  | External detail => detail
  end.

(** [(error as NodeJS.ErrnoException).code] *)
Definition code (e : Error) : option jsstring :=
  match e with
  | FsError c _ => Some c
  | _ => None
  end.

Inductive Result (A : Type) : Type :=
| Ok (value : A)
| Err (error : Error).
Arguments Ok {A} value.
Arguments Err {A} error.

Definition Result_bind {A B} (k : A -> Result B) (r : Result A) : Result B :=
  match r with
  | Ok a => k a
  | Err e => Err e
  end.

#[global] Instance Result_mret : MRet Result := fun _ a => Ok a.
#[global] Instance Result_mbind : MBind Result := fun _ _ k r => Result_bind k r.

(** [traverse f l] runs [f] over [l] from left to right, as [Array.map] with
    a callback that may throw: the first error aborts the map. *)
Fixpoint traverse {A B} (f : A -> Result B) (l : list A) : Result (list B) :=
  match l with
  | [] => Ok []
  | x :: rest => y ← f x; ys ← traverse f rest; Ok (y :: ys)
  end.

(** ** JSON values, the run time and the disk *)

(** The values [JSON.parse] produces; a tool call's arguments are of the same
    kind.  An object is the list of its own properties, one entry per key. *)
Inductive json : Type :=
| JNull
| JBool (b : bool)
| JNumber (n : number)
| JString (s : jsstring)
| JArray (items : list json)
| JObject (fields : list (jsstring * json)).

(** [fields[key]]; [None] stands for [undefined]. *)
Fixpoint get_field (fields : list (jsstring * json)) (key : jsstring) : option json :=
  match fields with
  | [] => None
  | (k, v) :: rest => if bool_decide (k = key) then Some v else get_field rest key
  end.

(** [value[key]] for a key that is neither an index nor a built-in property:
    reading a property of [null] throws, primitives and arrays have none. *)
Definition get_property (value : json) (key : jsstring) : Result (option json) :=
  match value with
  | JNull => Err (TypeError (js "Cannot read properties of null"))
  | JObject fields => Ok (get_field fields key)
  | _ => Ok None
  end.

(** [Boolean(value)] *)
Definition truthy (value : option json) : bool :=
  match value with
  | None | Some JNull => false
  | Some (JBool b) => b
  | Some (JNumber (Fin q)) => negb (Qeq_bool q 0)
  | Some (JNumber NaN) => false
  | Some (JNumber _) => true
  | Some (JString s) => truthy_string s
  | Some (JArray _) | Some (JObject _) => true
  end.

(** What the embedding takes from Node: the JSON codec, [node:path] and
    [os.homedir()].  [JSON_decode] answers the parsed value, or the message
    of the [SyntaxError] that [JSON.parse] throws; [JSON_stringify] is
    [JSON.stringify(value, null, 2)]; [path_dirname] names the directory a
    path lies in, and is the path itself at a root. *)
Class Runtime : Type := {
  JSON_decode : jsstring -> jsstring + json;
  JSON_stringify : json -> jsstring;
  path_join : list jsstring -> jsstring;
  path_resolve : jsstring -> jsstring;
  path_dirname : jsstring -> jsstring;
  os_homedir : jsstring
}.

(** What the embedding takes from the built-in objects: the lower case of a
    string, [Number(text)], the UTF-8 text of base64 data, and the ISO form
    of a time value that is valid. *)
Class Builtins : Type := {
  String_toLowerCase : jsstring -> jsstring;
  StringToNumber : jsstring -> number;
  Buffer_base64_utf8 : jsstring -> jsstring;
  Date_toISOString : Z -> jsstring
}.

Definition JSON_parse `{Runtime} (text : jsstring) : Result json :=
  match JSON_decode text with
  | inr value => Ok value
  | inl detail => Err (SyntaxError detail)
  end.

(** The disk: regular files with their UTF-8 text, and the directories.
    Reading a path that is a directory fails with code EISDIR, reading a
    path that is neither a file nor a directory with code ENOENT. *)
Record FileSystem : Type := {
  files : gmap jsstring jsstring;
  directories : gset jsstring
}.

(** An [async] function: it reads and writes the disk and may reject. *)
Definition IO (A : Type) : Type := FileSystem -> Result A * FileSystem.

#[global] Instance IO_mret : MRet IO := fun _ a fs => (Ok a, fs).
#[global] Instance IO_mbind : MBind IO := fun _ _ k m fs =>
  match m fs with
  | (Ok a, fs') => k a fs'
  | (Err e, fs') => (Err e, fs')
  end.

(** A synchronous computation used inside an [async] function. *)
Definition lift {A} (r : Result A) : IO A := fun fs => (r, fs).

(** [try { body } catch (error) { handler }] *)
Definition try_catch {A} (body : IO A) (handler : Error -> IO A) : IO A :=
  fun fs =>
    match body fs with
    | (Ok a, fs') => (Ok a, fs')
    | (Err e, fs') => handler e fs'
    end.

(** The directories above [path], nearest first.  A directory name is
    shorter than the path it is taken of, so [length path] steps reach the
    root. *)
Fixpoint ancestors `{Runtime} (fuel : nat) (path : jsstring) : list jsstring :=
  match fuel with
  | O => []
  | S fuel' =>
      let parent := path_dirname path in
      if bool_decide (parent = path) then []
      else parent :: ancestors fuel' parent
  end.

(** [fs.mkdir(path, { recursive: true })]: the directory and those above it. *)
Definition fs_mkdir `{Runtime} (path : jsstring) : IO unit := fun fs =>
  (Ok (), {| files := files fs;
             directories :=
               list_to_set (path :: ancestors (length path) path) ∪ directories fs |}).

Definition fs_readFile (path : jsstring) : IO jsstring := fun fs =>
  match files fs !! path with
  | Some content => (Ok content, fs)
  | None =>
      if bool_decide (path ∈ directories fs)
      then (Err (FsError (js "EISDIR")
                   (js "EISDIR: illegal operation on a directory, read")), fs)
      else (Err (FsError (js "ENOENT")
                   (js "ENOENT: no such file or directory, open '" ++ path ++ js "'")), fs)
  end.

Definition fs_writeFile (path content : jsstring) : IO unit := fun fs =>
  (Ok (), {| files := <[path := content]> (files fs); directories := directories fs |}).

(** ** config.ts *)

Record AccountConfig : Type := {
  id : jsstring;
  email : jsstring;
  displayName : option jsstring;
  enabled : bool;
  credentialPath : option jsstring;
  tokenPath : option jsstring
}.

Record AccountsConfig : Type := {
  defaultAccount : option jsstring;
  accounts : list AccountConfig
}.

(** [tokenPath_] is the [tokenPath] of [AccountPaths]; the plain name is the
    field of [AccountConfig]. *)
Record AccountPaths : Type := {
  accountDir : jsstring;
  credentialsPath : jsstring;
  tokenPath_ : jsstring;
  metaPath : jsstring
}.

#[global] Instance AccountConfig_eq_dec : EqDecision AccountConfig.
Proof. solve_decision. Defined.

(** One character of the class [[a-zA-Z0-9_-]]. *)
Definition account_id_char (c : N) : bool :=
  ((97 <=? c) && (c <=? 122)) || ((65 <=? c) && (c <=? 90))
  || ((48 <=? c) && (c <=? 57)) || (c =? 95) || (c =? 45).

(** [ACCOUNT_ID_PATTERN.test(accountId)] for [/^[a-zA-Z0-9_-]+$/]. *)
Definition ACCOUNT_ID_PATTERN_test (accountId : jsstring) : bool :=
  negb (is_empty accountId) && forallb account_id_char accountId.

Definition validateAccountId (accountId : jsstring) : Result unit :=
  if negb (ACCOUNT_ID_PATTERN_test accountId)
  then Err (InvalidAccountId accountId)
  else Ok ().

(** [accounts.findIndex(p)], with [None] for -1. *)
Fixpoint findIndex {A} (p : A -> bool) (l : list A) : option nat :=
  match l with
  | [] => None
  | x :: rest => if p x then Some 0%nat else S <$> findIndex p rest
  end.

Definition upsertAccount (config : AccountsConfig) (nextAccount : AccountConfig)
  : AccountsConfig :=
  match findIndex (fun account => bool_decide (id account = id nextAccount))
          (accounts config) with
  | None =>
      {| defaultAccount := defaultAccount config;
         accounts := accounts config ++ [nextAccount] |}
  | Some existingIndex =>
      let cloned := accounts config in
      {| defaultAccount := defaultAccount config;
         accounts := <[existingIndex := nextAccount]> cloned |}
  end.

Section ConfigIO.
Context `{Runtime}.

Definition expandHome (inputPath : jsstring) : jsstring :=
  if bool_decide (inputPath = js "~") then os_homedir
  else if bool_decide (take 2 inputPath = js "~/")
       then path_join [os_homedir; drop 2 inputPath]
       else inputPath.

Definition getAccountsFilePath (configRoot : jsstring) : jsstring :=
  path_join [configRoot; js "accounts.json"].

Definition getDefaultAccountPaths (configRoot accountId : jsstring) : AccountPaths :=
  let accountDir := path_join [configRoot; js "accounts"; accountId] in
  {| accountDir := accountDir;
     credentialsPath := path_join [accountDir; js "credentials.json"];
     tokenPath_ := path_join [accountDir; js "token.json"];
     metaPath := path_join [accountDir; js "meta.json"] |}.

(** [override ? path.resolve(expandHome(override)) : fallback] *)
Definition overridden (override : option jsstring) (fallback : jsstring) : jsstring :=
  match override with
  | Some p => if truthy_string p then path_resolve (expandHome p) else fallback
  | None => fallback
  end.

Definition getAccountPaths (configRoot : jsstring) (account : AccountConfig)
  : AccountPaths :=
  let defaults := getDefaultAccountPaths configRoot (id account) in
  {| accountDir := accountDir defaults;
     credentialsPath := overridden (credentialPath account) (credentialsPath defaults);
     tokenPath_ := overridden (tokenPath account) (tokenPath_ defaults);
     metaPath := metaPath defaults |}.

Definition ensureConfigLayout (configRoot : jsstring) : IO unit :=
  fs_mkdir (path_join [configRoot; js "accounts"]).

(** [typeof value === 'string' ? value : undefined] *)
Definition as_string (value : option json) : option jsstring :=
  match value with
  | Some (JString s) => Some s
  | _ => None
  end.

(** [None] inside [Ok] is the [null] the function returns for an entry it
    skips; an id outside the pattern makes it throw. *)
Definition sanitizeAccount (configRoot : jsstring) (input : json)
  : Result (option AccountConfig) :=
  match input with
  | JObject candidate =>
      match as_string (get_field candidate (js "id")) with
      | None => Ok None
      | Some candidate_id =>
          if is_empty (trim candidate_id) then Ok None else
          match as_string (get_field candidate (js "email")) with
          | None => Ok None
          | Some candidate_email =>
              if is_empty (trim candidate_email) then Ok None else
              _ ← validateAccountId candidate_id;
              let defaults := getDefaultAccountPaths configRoot candidate_id in
              Ok (Some
                {| id := candidate_id;
                   email := candidate_email;
                   displayName := as_string (get_field candidate (js "displayName"));
                   enabled := truthy (get_field candidate (js "enabled"));
                   credentialPath := Some
                     match as_string (get_field candidate (js "credentialPath")) with
                     | Some p => path_resolve (expandHome p)
                     | None => credentialsPath defaults
                     end;
                   tokenPath := Some
                     match as_string (get_field candidate (js "tokenPath")) with
                     | Some p => path_resolve (expandHome p)
                     | None => tokenPath_ defaults
                     end |})
          end
      end
  | _ => Ok None
  end.

(** The object [JSON.stringify] sees; properties holding [undefined] are
    left out. *)
Definition optional_field (key : jsstring) (value : option jsstring)
  : list (jsstring * json) :=
  match value with
  | Some s => [(key, JString s)]
  | None => []
  end.

Definition account_to_json (account : AccountConfig) : json :=
  JObject ([(js "id", JString (id account)); (js "email", JString (email account))]
           ++ optional_field (js "displayName") (displayName account)
           ++ [(js "enabled", JBool (enabled account))]
           ++ optional_field (js "credentialPath") (credentialPath account)
           ++ optional_field (js "tokenPath") (tokenPath account)).

Definition config_to_json (config : AccountsConfig) : json :=
  JObject [(js "defaultAccount",
             match defaultAccount config with Some d => JString d | None => JNull end);
           (js "accounts", JArray (account_to_json <$> accounts config))].

Definition saveAccountsConfig (configRoot : jsstring) (config : AccountsConfig)
  : IO unit :=
  _ ← ensureConfigLayout configRoot;
  let accountsFilePath := getAccountsFilePath configRoot in
  fs_writeFile accountsFilePath (JSON_stringify (config_to_json config) ++ js (String "010" "")).

Definition loadAccountsConfig (configRoot : jsstring) : IO AccountsConfig :=
  _ ← ensureConfigLayout configRoot;
  let accountsFilePath := getAccountsFilePath configRoot in
  try_catch
    (raw ← fs_readFile accountsFilePath;
     parsed ← lift (JSON_parse raw);
     parsed_accounts ← lift (get_property parsed (js "accounts"));
     let accountsRaw :=
       match parsed_accounts with Some (JArray items) => items | _ => [] end in
     sanitized ← lift (traverse (sanitizeAccount configRoot) accountsRaw);
     let accounts := omap (fun account => account) sanitized in
     parsed_defaultAccount ← lift (get_property parsed (js "defaultAccount"));
     let defaultAccount :=
       match as_string parsed_defaultAccount with
       | Some d =>
           if existsb (fun account => bool_decide (id account = d)) accounts
           then Some d else None
       | None => None
       end in
     mret {| defaultAccount := defaultAccount; accounts := accounts |})
    (fun error =>
       if negb (bool_decide (code error = Some (js "ENOENT")))
       then lift (Err (ConfigCorrupt error))
       else
         let emptyConfig := {| defaultAccount := None; accounts := [] |} in
         _ ← saveAccountsConfig configRoot emptyConfig;
         mret emptyConfig).
End ConfigIO.

(** ** accounts.ts *)

Record AccountHealth : Type := {
  health_account : AccountConfig;
  hasCredentialsFile : bool;
  hasTokenFile : bool;
  ready : bool
}.

Definition getAccountOrThrow (config : AccountsConfig) (accountId : jsstring)
  : Result AccountConfig :=
  _ ← validateAccountId accountId;
  match find (fun item => bool_decide (id item = accountId)) (accounts config) with
  | Some account => Ok account
  | None => Err (UnknownAccount accountId)
  end.

Definition getEnabledAccounts (config : AccountsConfig) : list AccountConfig :=
  List.filter (fun account => enabled account) (accounts config).

(** [accountId && accountId.trim() !== ''], keeping the id when it holds;
    [None] stands for an [accountId] that is [undefined]. *)
Definition explicit_account (accountId : option jsstring) : option jsstring :=
  match accountId with
  | Some a => if truthy_string a && negb (is_empty (trim a)) then Some a else None
  | None => None
  end.

Definition resolveReadAccounts (config : AccountsConfig) (accountId : option jsstring)
  : Result (list AccountConfig) :=
  match explicit_account accountId with
  | Some a =>
      account ← getAccountOrThrow config a;
      if negb (enabled account) then Err (AccountDisabled a)
      else Ok [account]
  | None =>
      let enabledAccounts := getEnabledAccounts config in
      if (length enabledAccounts =? 0)%nat then Err NoEnabledAccounts
      else Ok enabledAccounts
  end.

Definition resolveWriteAccount (config : AccountsConfig) (accountId : option jsstring)
  : Result AccountConfig :=
  match explicit_account accountId with
  | None => Err AccountRequired
  | Some a =>
      account ← getAccountOrThrow config a;
      if negb (enabled account) then Err (AccountDisabled a)
      else Ok account
  end.

(** [fs.access] succeeds on a file or a directory. *)
Definition fileExists (filePath : jsstring) : IO bool := fun fs =>
  (Ok (bool_decide (is_Some (files fs !! filePath))
       || bool_decide (filePath ∈ directories fs)), fs).

Definition getAccountHealth `{Runtime} (configRoot : jsstring) (account : AccountConfig)
  : IO AccountHealth :=
  let paths := getAccountPaths configRoot account in
  hasCredentialsFile ← fileExists (credentialsPath paths);
  hasTokenFile ← fileExists (tokenPath_ paths);
  mret {| health_account := account;
          hasCredentialsFile := hasCredentialsFile;
          hasTokenFile := hasTokenFile;
          ready := enabled account && hasCredentialsFile && hasTokenFile |}.

(** ** gmail-client.ts *)

Module ParsedEmail.
(** [internalDate] is declared a number; [None] is a value that is missing
    at run time ([undefined]). *)
Record t : Type := {
  id : jsstring;
  threadId : jsstring;
  snippet : jsstring;
  from : jsstring;
  to : jsstring;
  subject : jsstring;
  date : jsstring;
  internalDate : option number;
  body : option jsstring;
  labels : list jsstring;
  accountId : jsstring;
  accountEmail : jsstring
}.
End ParsedEmail.
Abbreviation ParsedEmail := ParsedEmail.t.

(** The messages of the Gmail API ([gmail_v1.Schema$Message] and the parts
    of its payload), with the properties the code reads; a property that is
    missing or [null] is [None]. *)
Record MessagePartHeader : Type := {
  header_name : option jsstring;
  header_value : option jsstring
}.

Record MessagePartBody : Type := {
  data : option jsstring
}.

Module MessagePart.
Inductive t : Type := {
  mimeType : option jsstring;
  headers : option (list MessagePartHeader);
  body : option MessagePartBody;
  parts : option (list t)
}.
End MessagePart.
Abbreviation MessagePart := MessagePart.t.

Module Message.
Record t : Type := {
  id : option jsstring;
  threadId : option jsstring;
  labelIds : option (list jsstring);
  snippet : option jsstring;
  internalDate : option jsstring;
  payload : option MessagePart
}.
End Message.
Abbreviation Message := Message.t.

(** [ToNumber] of a numeric property that may be missing. *)
Definition to_number (value : option number) : number :=
  match value with
  | Some n => n
  | None => NaN
  end.

(** [text.replace(/<[^>]+>/g, ' ')].  [pending] holds, last first, the
    characters read since a [<] that no [>] has answered yet; a [>] right
    after the [<] answers nothing. *)
Fixpoint replace_tags (pending : option jsstring) (text : jsstring) : jsstring :=
  match text with
  | [] =>
      match pending with
      | None => []
      | Some inner => 60 :: rev inner
      end
  | c :: rest =>
      match pending with
      | None =>
          if c =? 60 then replace_tags (Some []) rest
          else c :: replace_tags None rest
      | Some inner =>
          if c =? 62
          then match inner with
               | [] => 60 :: 62 :: replace_tags None rest
               | _ :: _ => 32 :: replace_tags None rest
               end
          else replace_tags (Some (c :: inner)) rest
      end
  end.

(** [text.replace(/\s+/g, ' ')]; [in_run] says that the character before
    was white space. *)
Fixpoint replace_spaces (in_run : bool) (text : jsstring) : jsstring :=
  match text with
  | [] => []
  | c :: rest =>
      if is_whitespace c
      then if in_run then replace_spaces true rest
           else 32 :: replace_spaces true rest
      else c :: replace_spaces false rest
  end.

Definition stripHtmlTags (input : jsstring) : jsstring :=
  trim (replace_spaces false (replace_tags None input)).

(** The number of parts in a part, itself included. *)
Fixpoint part_count (part : MessagePart) : nat :=
  S (match MessagePart.parts part with
     | Some children =>
         (fix total (l : list MessagePart) : nat :=
            match l with
            | [] => 0%nat
            | child :: rest => (part_count child + total rest)%nat
            end) children
     | None => 0%nat
     end).

(** [part.body?.data], when it is truthy. *)
Definition body_data (part : MessagePart) : option jsstring :=
  match MessagePart.body part with
  | Some b =>
      match data b with
      | Some d => if truthy_string d then Some d else None
      | None => None
      end
  | None => None
  end.

(** [part.parts?.length], when it is truthy. *)
Definition child_parts (part : MessagePart) : list MessagePart :=
  match MessagePart.parts part with
  | Some children => children
  | None => []
  end.

Section MessageText.
Context `{Builtins}.

Definition decodeBase64Url (value : jsstring) : jsstring :=
  let normalized :=
    (fun c => if c =? 95 then 47 else c)
      <$> ((fun c => if c =? 45 then 43 else c) <$> value) in
  let padded :=
    normalized
    ++ replicate ((4 - length normalized mod 4) mod 4)%nat 61 in
  Buffer_base64_utf8 padded.

Definition getHeaderValue (headers : option (list MessagePartHeader)) (name : jsstring)
  : jsstring :=
  match headers with
  | None => []
  | Some headers =>
      match find (fun header =>
                    match header_name header with
                    | Some n =>
                        bool_decide (String_toLowerCase n = String_toLowerCase name)
                    | None => false
                    end) headers with
      | Some found =>
          match header_value found with
          | Some value => trim value
          | None => []
          end
      | None => []
      end
  end.

(** The [while] loop of [extractEmailBody]: the parts are visited first in,
    first out, and each visit takes one part off the stack, so a fuel of as
    many steps as there are parts empties it. *)
Fixpoint visit_parts (fuel : nat) (stack : list MessagePart) (textPlain textHtml : jsstring)
  : jsstring * jsstring :=
  match fuel with
  | O => (textPlain, textHtml)
  | S fuel' =>
      match stack with
      | [] => (textPlain, textHtml)
      | part :: stack' =>
          let stack'' := stack' ++ child_parts part in
          match body_data part with
          | None => visit_parts fuel' stack'' textPlain textHtml
          | Some d =>
              if bool_decide (MessagePart.mimeType part = Some (js "text/plain"))
                 && negb (truthy_string textPlain)
              then visit_parts fuel' stack'' (decodeBase64Url d) textHtml
              else if bool_decide (MessagePart.mimeType part = Some (js "text/html"))
                      && negb (truthy_string textHtml)
                   then visit_parts fuel' stack'' textPlain (decodeBase64Url d)
                   else visit_parts fuel' stack'' textPlain textHtml
          end
      end
  end.

Definition extractEmailBody (payload : option MessagePart) : jsstring :=
  match payload with
  | None => []
  | Some payload =>
      match body_data payload, child_parts payload with
      | Some d, [] => decodeBase64Url d
      | _, [] => []
      | _, stack =>
          let found :=
            visit_parts (list_sum (part_count <$> stack)) stack [] [] in
          if truthy_string found.1 then found.1
          else if truthy_string found.2 then stripHtmlTags found.2
               else []
      end
  end.

(** [this.parseMessage(message, includeBody)] of the client of [account]. *)
Definition parseMessage (account : AccountConfig) (message : Message) (includeBody : bool)
  : ParsedEmail :=
  let headers := Message.payload message ≫= MessagePart.headers in
  let internalDate :=
    match Message.internalDate message with
    | Some text => StringToNumber text
    | None => Fin 0
    end in
  {| ParsedEmail.id := default [] (Message.id message);
     ParsedEmail.threadId := default [] (Message.threadId message);
     ParsedEmail.snippet := default [] (Message.snippet message);
     ParsedEmail.from := getHeaderValue headers (js "From");
     ParsedEmail.to := getHeaderValue headers (js "To");
     ParsedEmail.subject :=
       (let subject := getHeaderValue headers (js "Subject") in
        if truthy_string subject then subject else js "(no subject)");
     ParsedEmail.date := getHeaderValue headers (js "Date");
     ParsedEmail.internalDate :=
       Some (if number_isFinite internalDate then internalDate else Fin 0);
     ParsedEmail.body :=
       if includeBody then Some (extractEmailBody (Message.payload message)) else None;
     ParsedEmail.labels := default [] (Message.labelIds message);
     ParsedEmail.accountId := id account;
     ParsedEmail.accountEmail := email account |}.
End MessageText.

Record OAuth2Client : Type := {
  client_id : json;
  client_secret : json;
  redirectUri : json
}.

(** A client: its account, its paths, the auth client made of the
    credentials file, and the tokens read from the token file, with which
    the auth client starts. *)
Record GmailAccountClient : Type := {
  client_account : AccountConfig;
  client_paths : AccountPaths;
  client_auth : OAuth2Client;
  cachedTokens : json
}.

(** [value?.[0]] *)
Definition first_element (value : option json) : option json :=
  match value with
  | Some (JArray items) => head items
  | Some (JString s) => (fun c => JString [c]) <$> head s
  | Some (JObject fields) => get_field fields (js "0")
  | _ => None
  end.

(** [value ?? fallback] *)
Definition nullish (value : option json) (fallback : option json) : option json :=
  match value with
  | None | Some JNull => fallback
  | Some _ => value
  end.

Definition createOAuthClientFromCredentials (credentials : json) : Result OAuth2Client :=
  match credentials with
  | JObject _ | JArray _ =>
      let own key :=
        match credentials with JObject fields => get_field fields key | _ => None end in
      let source := nullish (own (js "installed")) (own (js "web")) in
      let source_field key :=
        match source with Some (JObject fields) => get_field fields key | _ => None end in
      match source_field (js "client_id"), source_field (js "client_secret") with
      | Some clientId, Some clientSecret =>
          if negb (truthy (Some clientId)) || negb (truthy (Some clientSecret))
          then Err CredentialsIncomplete
          else
            match nullish (first_element (source_field (js "redirect_uris")))
                    (Some (JString (js "http://localhost"))) with
            | Some uri =>
                Ok {| client_id := clientId; client_secret := clientSecret;
                      redirectUri := uri |}
            | None => Err CredentialsIncomplete
            end
      | _, _ => Err CredentialsIncomplete
      end
  | _ => Err InvalidCredentialsContent
  end.

(** The decimal form of a natural number, as [String] prints an index or a
    length. *)
Definition decimal (n : nat) : jsstring :=
  js (NilEmpty.string_of_uint (Nat.to_uint n)).

(** The array index a property name stands for: the name is the decimal
    form of an integer below 2^32 - 1. *)
Definition array_index (key : jsstring) : option N :=
  if forallb (fun c => (48 <=? c) && (c <=? 57)) key
  then if (length key <=? 10)%nat
       then let value := foldl (fun acc c => 10 * acc + (c - 48)) 0 key in
            if bool_decide (js (NilEmpty.string_of_uint (N.to_uint value)) = key)
            then if value <? 4294967295 then Some value else None
            else None
       else None
  else None.

(** Where a new property goes among the own properties of an object: an
    array index before the first property that is a greater index or no
    index, any other name at the end. *)
Fixpoint insert_index (n : N) (key : jsstring) (value : json)
    (fields : list (jsstring * json)) : list (jsstring * json) :=
  match fields with
  | [] => [(key, value)]
  | (k, v) :: rest =>
      match array_index k with
      | Some m =>
          if m <? n then (k, v) :: insert_index n key value rest
          else (key, value) :: fields
      | None => (key, value) :: fields
      end
  end.

(** [object[key] = value]: a property that is there keeps its place. *)
Definition set_property (fields : list (jsstring * json)) (key : jsstring) (value : json)
  : list (jsstring * json) :=
  if existsb (fun field => bool_decide (field.1 = key)) fields
  then (fun field => if bool_decide (field.1 = key) then (key, value) else field)
         <$> fields
  else match array_index key with
       | Some n => insert_index n key value fields
       | None => fields ++ [(key, value)]
       end.

(** The own enumerable properties that [...source] copies. *)
Definition own_properties (source : json) : list (jsstring * json) :=
  match source with
  | JObject fields => fields
  | JArray items => imap (fun i item => (decimal i, item)) items
  | JString s => imap (fun i c => (decimal i, JString [c])) s
  | _ => []
  end.

(** [{ ...target, ...source }], [target] being the properties copied so
    far. *)
Definition spread (target : list (jsstring * json)) (source : json)
  : list (jsstring * json) :=
  foldl (fun object field => set_property object field.1 field.2) target
    (own_properties source).

(** What a call to the provider comes to: it answers or rejects, and while
    it runs the auth client may refresh its tokens, each time emitting the
    new set in a [tokens] event. *)
Record Response (A : Type) : Type := {
  answer : Result A;
  refreshed : list (list (jsstring * json))
}.
Arguments answer {A} _.
Arguments refreshed {A} _.
Arguments Build_Response {A} _ _.

(** What the embedding takes from Google's libraries: the token endpoint,
    called on an auth client that has no listener, and the Gmail REST calls
    the read tools make through a client: the profile, with its
    [emailAddress]; the listing of a query, with its [messages]; and one
    message by id, in a format and with the metadata headers asked for. *)
Class GmailApi : Type := {
  oauth_getToken : OAuth2Client -> jsstring -> Result (list (jsstring * json));
  users_getProfile : GmailAccountClient -> Response (option jsstring);
  users_messages_list :
    GmailAccountClient -> option jsstring -> number -> Response (option (list Message));
  users_messages_get :
    GmailAccountClient -> jsstring -> jsstring -> option (list jsstring)
    -> Response Message
}.

(** The Gmail REST calls that change a mailbox: [batchModify] with the ids
    and the optional label lists of its request body, [trash] and the
    deletion of a label. *)
Class GmailWriteApi : Type := {
  users_messages_batchModify :
    GmailAccountClient -> list jsstring -> option (list jsstring)
    -> option (list jsstring) -> Response unit;
  users_messages_trash : GmailAccountClient -> jsstring -> Response unit;
  users_labels_delete : GmailAccountClient -> jsstring -> Response unit
}.

(** [Array.from(new Set(values))]: the values in the order of their first
    occurrence; [seen] holds the values already in the set. *)
Fixpoint Set_values (seen values : list jsstring) : list jsstring :=
  match values with
  | [] => []
  | x :: rest =>
      if bool_decide (x ∈ seen) then Set_values seen rest
      else x :: Set_values (x :: seen) rest
  end.

Definition sanitizeMessageIds (messageIds : list jsstring) : list jsstring :=
  Set_values []
    (List.filter (fun messageId => negb (is_empty messageId)) (trim <$> messageIds)).

Definition no_message_ids : Error :=
  External (js "message_ids must include at least one value.").

Definition no_label_ids : Error :=
  External (js "label_ids must include at least one value.").

(** [Promise.all] over calls that are all under way: it fulfils with all
    the answers, or rejects with the first rejection. *)
Definition all_answers {A} (calls : list (Response A)) : Result (list A) :=
  traverse answer calls.

Section GmailClient.
Context `{Runtime} `{Builtins} `{GmailApi} `{GmailWriteApi}.

Definition readCredentialsFile (credentialsPath : jsstring) : IO json :=
  raw ← fs_readFile credentialsPath;
  lift (JSON_parse raw).

Definition buildOAuthClientFromCredentialsFile (credentialsPath : jsstring)
  : IO OAuth2Client :=
  credentials ← readCredentialsFile credentialsPath;
  lift (createOAuthClientFromCredentials credentials).

Definition exchangeCodeForToken (credentials : json) (authorizationCode : jsstring)
  : Result (list (jsstring * json)) :=
  oauth2Client ← createOAuthClientFromCredentials credentials;
  oauth_getToken oauth2Client authorizationCode.

(** The listener [GmailAccountClient.create] installs on the auth client:
    the tokens it keeps take the incoming ones, and go to the token file; a
    failure of the write is logged and goes no further.  The result is the
    new value of the variable [cachedTokens]. *)
Definition on_tokens (paths : AccountPaths) (cachedTokens : json)
    (incomingTokens : list (jsstring * json)) : IO json :=
  let cachedTokens' := JObject (spread (spread [] cachedTokens) (JObject incomingTokens)) in
  _ ← try_catch
        (fs_writeFile (tokenPath_ paths)
           (JSON_stringify cachedTokens' ++ js (String "010" "")))
        (fun error => mret ());
  mret cachedTokens'.

(** The listener run on the token sets a call emitted, in their order. *)
Fixpoint emitted (paths : AccountPaths) (cachedTokens : json)
    (events : list (list (jsstring * json))) : IO json :=
  match events with
  | [] => mret cachedTokens
  | incomingTokens :: rest =>
      cachedTokens' ← on_tokens paths cachedTokens incomingTokens;
      emitted paths cachedTokens' rest
  end.

(** [GmailAccountClient.create]: the listener it installs is [on_tokens],
    with the tokens of the token file for a start; it runs in the calls made
    through the client. *)
Definition GmailAccountClient_create (configRoot : jsstring) (account : AccountConfig)
  : IO GmailAccountClient :=
  let paths := getAccountPaths configRoot account in
  oauth2Client ← buildOAuthClientFromCredentialsFile (credentialsPath paths);
  cachedTokens ←
    try_catch
      (rawToken ← fs_readFile (tokenPath_ paths);
       lift (JSON_parse rawToken))
      (fun error => lift (Err (TokenFileInvalid (id account) (tokenPath_ paths) error)));
  mret {| client_account := account; client_paths := paths;
          client_auth := oauth2Client; cachedTokens := cachedTokens |}.

(** One call through the client, awaited: the listener runs on what the
    call emitted, then the call settles. *)
Definition awaited {A} (client : GmailAccountClient) (call : Response A) : IO A :=
  _ ← emitted (client_paths client) (cachedTokens client) (refreshed call);
  lift (answer call).

Definition getProfileEmail (client : GmailAccountClient) : IO jsstring :=
  emailAddress ← awaited client (users_getProfile client);
  match emailAddress with
  | Some address =>
      if truthy_string address then mret address
      else lift (Err (ProfileWithoutEmail (id (client_account client))))
  | None => lift (Err (ProfileWithoutEmail (id (client_account client))))
  end.

Definition fetchMessages (client : GmailAccountClient) (query : jsstring)
    (maxResults : number) (includeBody : bool) : IO (list ParsedEmail) :=
  let boundedMax := Math_max (Fin 1) (Math_min maxResults (Fin 100)) in
  let listing :=
    users_messages_list client
      (if is_empty (trim query) then None else Some query) boundedMax in
  cachedTokens' ← emitted (client_paths client) (cachedTokens client) (refreshed listing);
  listResponse ← lift (answer listing);
  let messageIds :=
    List.filter truthy_string
      (omap (fun message => Message.id message) (default [] listResponse)) in
  if (length messageIds =? 0)%nat then mret []
  else
    let calls :=
      (fun messageId =>
         users_messages_get client messageId
           (if includeBody then js "full" else js "metadata")
           (if includeBody then None
            else Some [js "From"; js "To"; js "Subject"; js "Date"]))
      <$> messageIds in
    _ ← emitted (client_paths client) cachedTokens' (concat (refreshed <$> calls));
    fullMessages ← lift (all_answers calls);
    mret (Array_sort
            (fun a b => number_sub (to_number (ParsedEmail.internalDate b))
                                   (to_number (ParsedEmail.internalDate a)))
            ((fun response => parseMessage (client_account client) response includeBody)
             <$> fullMessages)).

Definition readEmails (client : GmailAccountClient) (query : jsstring)
    (maxResults : number) (includeBody : bool) : IO (list ParsedEmail) :=
  fetchMessages client query maxResults includeBody.

Definition searchEmails (client : GmailAccountClient) (query : jsstring)
    (maxResults : number) : IO (list ParsedEmail) :=
  if negb (truthy_string query) || is_empty (trim query)
  then lift (Err SearchQueryRequired)
  else fetchMessages client query maxResults false.

Definition markAsRead (client : GmailAccountClient) (messageIds : list jsstring)
  : IO nat :=
  let ids := sanitizeMessageIds messageIds in
  if (length ids =? 0)%nat then lift (Err no_message_ids)
  else
    _ ← awaited client (users_messages_batchModify client ids None (Some [js "UNREAD"]));
    mret (length ids).

Definition addLabels (client : GmailAccountClient) (messageIds labelIds : list jsstring)
  : IO nat :=
  let ids := sanitizeMessageIds messageIds in
  let labels := List.filter truthy_string (trim <$> labelIds) in
  if (length ids =? 0)%nat then lift (Err no_message_ids)
  else if (length labels =? 0)%nat then lift (Err no_label_ids)
  else
    _ ← awaited client (users_messages_batchModify client ids (Some labels) None);
    mret (length ids).

Definition removeLabels (client : GmailAccountClient) (messageIds labelIds : list jsstring)
  : IO nat :=
  let ids := sanitizeMessageIds messageIds in
  let labels := List.filter truthy_string (trim <$> labelIds) in
  if (length ids =? 0)%nat then lift (Err no_message_ids)
  else if (length labels =? 0)%nat then lift (Err no_label_ids)
  else
    _ ← awaited client (users_messages_batchModify client ids None (Some labels));
    mret (length ids).

Definition archiveEmails (client : GmailAccountClient) (messageIds : list jsstring)
  : IO nat :=
  let ids := sanitizeMessageIds messageIds in
  if (length ids =? 0)%nat then lift (Err no_message_ids)
  else
    _ ← awaited client (users_messages_batchModify client ids None (Some [js "INBOX"]));
    mret (length ids).

Definition trashEmails (client : GmailAccountClient) (messageIds : list jsstring)
  : IO nat :=
  let ids := sanitizeMessageIds messageIds in
  if (length ids =? 0)%nat then lift (Err no_message_ids)
  else
    let calls := users_messages_trash client <$> ids in
    _ ← emitted (client_paths client) (cachedTokens client) (concat (refreshed <$> calls));
    _ ← lift (all_answers calls);
    mret (length ids).

Definition deleteLabel (client : GmailAccountClient) (labelId : jsstring) : IO unit :=
  if negb (truthy_string labelId) || is_empty (trim labelId)
  then lift (Err (ArgumentRequired (js "label_id")))
  else awaited client (users_labels_delete client labelId).
End GmailClient.

(** [oauth2Client.generateAuthUrl] with the options the code passes. *)
Class OAuthUrlApi : Type := {
  oauth_generateAuthUrl : OAuth2Client -> jsstring
}.

Definition generateAuthUrlFromCredentials `{OAuthUrlApi} (credentials : json)
  : Result (OAuth2Client * jsstring) :=
  oauth2Client ← createOAuthClientFromCredentials credentials;
  Ok (oauth2Client, oauth_generateAuthUrl oauth2Client).

(** ** index.ts *)

Record TextContent : Type := {
  type : jsstring;
  text : jsstring
}.

Record CallToolResult : Type := {
  content : list TextContent
}.

Definition textResult (text : jsstring) : CallToolResult :=
  {| content := [{| type := js "text"; text := text |}] |}.

Definition clamp (value minValue maxValue : number) : number :=
  Math_max minValue (Math_min value maxValue).

Definition valueToString (value : option json) (fallback : jsstring) : jsstring :=
  match value with
  | Some (JString s) => s
  | _ => fallback
  end.

Definition valueToBoolean (value : option json) (fallback : bool) : bool :=
  match value with
  | Some (JBool b) => b
  | _ => fallback
  end.

Definition valueToNumber (value : option json) (fallback : number) : number :=
  match value with
  | Some (JNumber n) => if number_isFinite n then n else fallback
  | _ => fallback
  end.

(** [String(number)] is taken from the run time. *)
Class NumberFormat : Type := {
  Number_toString : number -> jsstring
}.

(** [parts.join(separator)] *)
Fixpoint Array_join (separator : jsstring) (parts : list jsstring) : jsstring :=
  match parts with
  | [] => []
  | [part] => part
  | part :: rest => part ++ separator ++ Array_join separator rest
  end.

Definition not_primitive : Error :=
  TypeError (js "Cannot convert object to primitive value").

(** [String(value)] for a value that came out of [JSON.parse].  An array
    joins its elements with commas, [null] elements counting as empty.  An
    object is "[object Object]", unless it has a property [toString] of its
    own: that property is no function, and neither [toString] nor the
    inherited [valueOf] then yields a primitive. *)
Fixpoint js_String `{NumberFormat} (value : json) : Result jsstring :=
  match value with
  | JNull => Ok (js "null")
  | JBool true => Ok (js "true")
  | JBool false => Ok (js "false")
  | JNumber n => Ok (Number_toString n)
  | JString s => Ok s
  | JArray items =>
      elements ←
        (fix elements (l : list json) : Result (list jsstring) :=
           match l with
           | [] => Ok []
           | JNull :: rest => others ← elements rest; Ok ([] :: others)
           | x :: rest => s ← js_String x; others ← elements rest; Ok (s :: others)
           end) items;
      Ok (Array_join (js ",") elements)
  | JObject fields =>
      match get_field fields (js "toString") with
      | Some _ => Err not_primitive
      | None => Ok (js "[object Object]")
      end
  end.

Definition valueToStringArray `{NumberFormat} (value : option json)
  : Result (list jsstring) :=
  match value with
  | Some (JArray items) =>
      strings ← traverse js_String items;
      Ok (List.filter truthy_string (trim <$> strings))
  | _ => Ok []
  end.

Definition emailDateForSort (email : ParsedEmail) : number :=
  match ParsedEmail.internalDate email with
  | Some n => if number_isFinite n then n else Fin 0
  | None => Fin 0
  end.

(** [new Date(value).toISOString()]: the time value of a number is its
    integer part when that is at most 8.64e15 away from 0, and is invalid
    otherwise. *)
Definition toISOString `{Builtins} (value : number) : Result jsstring :=
  match value with
  | Fin q =>
      if Qle_bool (Qabs q) 8640000000000000
      then Ok (Date_toISOString (Qtruncate q))
      else Err (RangeError (js "Invalid time value"))
  | _ => Err (RangeError (js "Invalid time value"))
  end.

(** [text || fallback] *)
Definition or_else (text fallback : jsstring) : jsstring :=
  if truthy_string text then text else fallback.

Definition formatEmailItem `{Builtins} (email : ParsedEmail) (includeBody : bool)
  : Result jsstring :=
  dateText ←
    (if truthy_string (ParsedEmail.date email) then Ok (ParsedEmail.date email)
     else match ParsedEmail.internalDate email with
          | Some n => if truthy (Some (JNumber n)) then toISOString n
                      else Ok (js "(unknown)")
          | None => Ok (js "(unknown)")
          end);
  let lines :=
    [js "**Account**: " ++ ParsedEmail.accountId email ++ js " ("
       ++ ParsedEmail.accountEmail email ++ js ")";
     js "**From**: " ++ or_else (ParsedEmail.from email) (js "(unknown)");
     js "**To**: " ++ or_else (ParsedEmail.to email) (js "(unknown)");
     js "**Date**: " ++ dateText;
     js "**Message ID**: " ++ ParsedEmail.id email;
     js "**Thread ID**: " ++ ParsedEmail.threadId email;
     js "**Preview**: " ++ or_else (ParsedEmail.snippet email) (js "(none)")] in
  let body := trim (default [] (ParsedEmail.body email)) in
  let lines' :=
    if includeBody && truthy_string body
    then lines
         ++ [js "**Body**:" ++ [10]
             ++ (if (600 <? length body)%nat then take 600 body ++ js "..." else body)]
    else lines in
  Ok (Array_join [10] lines').

(** The argument of [formatEmailListOutput]. *)
Record EmailListOutput : Type := {
  title : jsstring;
  scopeText : jsstring;
  queryText : jsstring;
  totalFound : nat;
  returned : list ParsedEmail;
  includeBody : bool;
  errors : list jsstring
}.

(** The sections the [forEach] over [input.returned] pushes, from the email
    of index [index] on. *)
Fixpoint email_sections `{Builtins} (includeBody : bool) (index : nat)
    (emails : list ParsedEmail) : Result (list jsstring) :=
  match emails with
  | [] => Ok []
  | email :: rest =>
      item ← formatEmailItem email includeBody;
      others ← email_sections includeBody (S index) rest;
      Ok ((js "## " ++ decimal (index + 1) ++ js ". "
           ++ or_else (ParsedEmail.subject email) (js "(no subject)"))
          :: item :: [] :: others)
  end.

Definition formatEmailListOutput `{Builtins} (input : EmailListOutput) : Result jsstring :=
  let sections :=
    [js "# " ++ title input;
     [];
     js "**Scope**: " ++ scopeText input;
     js "**Query**: " ++ or_else (queryText input) (js "(none)");
     js "**Total Found**: " ++ decimal (totalFound input);
     js "**Returned**: " ++ decimal (length (returned input))] in
  emails ←
    (if (0 <? length (returned input))%nat
     then rows ← email_sections (includeBody input) 0 (returned input); Ok ([] :: rows)
     else Ok []);
  let failures :=
    if (0 <? length (errors input))%nat
    then [js "## Account Errors";
          Array_join [10] ((fun error => js "- " ++ error) <$> errors input)]
    else [] in
  Ok (Array_join [10] (sections ++ emails ++ failures)).

(** One element of [accountResults]. *)
Record AccountResult : Type := {
  account : AccountConfig;
  emails : list ParsedEmail;
  error : option jsstring
}.

(** The callback both handlers map over [targetAccounts]: the outcome of
    one account's operation becomes a record, never a rejection. *)
Definition accountResult (operation : AccountConfig -> IO (list ParsedEmail))
    (account : AccountConfig) : IO AccountResult :=
  try_catch
    (emails ← operation account;
     mret {| account := account; emails := emails; error := None |})
    (fun error =>
       mret {| account := account; emails := [];
               error := Some (id account ++ js ": " ++ message error) |}).

(** [Promise.all]: every promise runs; the result is the results in the
    order of the promises, or the first rejection. *)
Fixpoint Promise_all {A} (promises : list (IO A)) : IO (list A) := fun fs =>
  match promises with
  | [] => (Ok [], fs)
  | p :: rest =>
      let first := p fs in
      let others := Promise_all rest first.2 in
      (x ← first.1; xs ← others.1; Ok (x :: xs), others.2)
  end.

(** The comparator both handlers sort with:
    [(a, b) => emailDateForSort(b) - emailDateForSort(a)]. *)
Definition by_date (a b : ParsedEmail) : number :=
  number_sub (emailDateForSort b) (emailDateForSort a).

(** [merged] *)
Definition merged (accountResults : list AccountResult) : list ParsedEmail :=
  Array_sort by_date (flat_map emails accountResults).

(** [errors]: the [error] fields that are truthy. *)
Definition accountErrors (accountResults : list AccountResult) : list jsstring :=
  omap (fun result =>
          match error result with
          | Some e => if truthy_string e then Some e else None
          | None => None
          end) accountResults.

(** What a tool that changes messages reports: how many, in which account,
    and the labels when it names them. *)
Record UpdateOutput : Type := {
  updated : nat;
  updated_account : AccountConfig;
  updated_labels : option (list jsstring)
}.

(** What [begin_account_auth] reports. *)
Record BeginOutput : Type := {
  begun_account : jsstring;
  begun_email : jsstring;
  begun_credentialsFile : jsstring;
  begun_authUrl : jsstring
}.

(** What [finish_account_auth] reports. *)
Record FinishOutput : Type := {
  finished_account : jsstring;
  finished_email : jsstring;
  finished_tokenFile : jsstring
}.

Definition invalid_credentials_json : Error :=
  External (js "credentials_json must be either a JSON string or object.").

Section Server.
Context `{Runtime} `{Builtins} `{NumberFormat} `{GmailApi} `{GmailWriteApi} `{OAuthUrlApi}.
Variable configRoot : jsstring.

Definition loadConfig : IO AccountsConfig := loadAccountsConfig configRoot.

Definition getClientForAccount (account : AccountConfig) : IO GmailAccountClient :=
  GmailAccountClient_create configRoot account.

(** [valueToString(rawArgs.account, '').trim() || undefined] *)
Definition account_argument (rawArgs : list (jsstring * json)) : option jsstring :=
  let trimmed := trim (valueToString (get_field rawArgs (js "account")) []) in
  if truthy_string trimmed then Some trimmed else None.

(** [scopeText] *)
Definition scope (args_account : option jsstring) (targetAccounts : list AccountConfig)
  : jsstring :=
  match args_account with
  | Some a => js "account " ++ a
  | None => js "all enabled accounts (" ++ decimal (length targetAccounts) ++ js ")"
  end.

Definition handleReadEmails (rawArgs : list (jsstring * json)) : IO CallToolResult :=
  let args_account := account_argument rawArgs in
  let args_query := valueToString (get_field rawArgs (js "query")) [] in
  let args_max_results := valueToNumber (get_field rawArgs (js "max_results")) (Fin 20) in
  let args_include_body := valueToBoolean (get_field rawArgs (js "include_body")) false in
  config ← loadConfig;
  targetAccounts ← lift (resolveReadAccounts config args_account);
  let query := trim args_query in
  let includeBody := args_include_body in
  let maxResults := clamp args_max_results (Fin 1) (Fin 100) in
  accountResults ← Promise_all
    (accountResult
       (fun account =>
          client ← getClientForAccount account;
          readEmails client query maxResults includeBody)
     <$> targetAccounts);
  let merged := merged accountResults in
  let errors := accountErrors accountResults in
  let returned := slice0 merged maxResults in
  text ← lift (formatEmailListOutput
                 {| title := js "Gmail Emails";
                    scopeText := scope args_account targetAccounts;
                    queryText := query;
                    totalFound := length merged;
                    returned := returned;
                    includeBody := includeBody;
                    errors := errors |});
  mret (textResult text).

Definition handleSearchEmails (rawArgs : list (jsstring * json)) : IO CallToolResult :=
  let args_account := account_argument rawArgs in
  let args_query := valueToString (get_field rawArgs (js "query")) [] in
  let args_max_results := valueToNumber (get_field rawArgs (js "max_results")) (Fin 25) in
  if negb (truthy_string args_query) || is_empty (trim args_query)
  then lift (Err QueryRequired)
  else
    config ← loadConfig;
    targetAccounts ← lift (resolveReadAccounts config args_account);
    let maxResults := clamp args_max_results (Fin 1) (Fin 100) in
    accountResults ← Promise_all
      (accountResult
         (fun account =>
            client ← getClientForAccount account;
            searchEmails client args_query maxResults)
       <$> targetAccounts);
    let merged := merged accountResults in
    let errors := accountErrors accountResults in
    let returned := slice0 merged maxResults in
    text ← lift (formatEmailListOutput
                   {| title := js "Gmail Search Results";
                      scopeText := scope args_account targetAccounts;
                      queryText := args_query;
                      totalFound := length merged;
                      returned := returned;
                      includeBody := false;
                      errors := errors |});
    mret (textResult text).

Definition handleMarkAsRead (rawArgs : list (jsstring * json)) : IO UpdateOutput :=
  let args_account := valueToString (get_field rawArgs (js "account")) [] in
  args_message_ids ← lift (valueToStringArray (get_field rawArgs (js "message_ids")));
  config ← loadConfig;
  account ← lift (resolveWriteAccount config (Some args_account));
  client ← getClientForAccount account;
  updated ← markAsRead client args_message_ids;
  mret {| updated := updated; updated_account := account; updated_labels := None |}.

Definition handleAddLabels (rawArgs : list (jsstring * json)) : IO UpdateOutput :=
  let args_account := valueToString (get_field rawArgs (js "account")) [] in
  args_message_ids ← lift (valueToStringArray (get_field rawArgs (js "message_ids")));
  args_label_ids ← lift (valueToStringArray (get_field rawArgs (js "label_ids")));
  config ← loadConfig;
  account ← lift (resolveWriteAccount config (Some args_account));
  client ← getClientForAccount account;
  updated ← addLabels client args_message_ids args_label_ids;
  mret {| updated := updated; updated_account := account;
          updated_labels := Some args_label_ids |}.

Definition handleRemoveLabels (rawArgs : list (jsstring * json)) : IO UpdateOutput :=
  let args_account := valueToString (get_field rawArgs (js "account")) [] in
  args_message_ids ← lift (valueToStringArray (get_field rawArgs (js "message_ids")));
  args_label_ids ← lift (valueToStringArray (get_field rawArgs (js "label_ids")));
  config ← loadConfig;
  account ← lift (resolveWriteAccount config (Some args_account));
  client ← getClientForAccount account;
  updated ← removeLabels client args_message_ids args_label_ids;
  mret {| updated := updated; updated_account := account;
          updated_labels := Some args_label_ids |}.

Definition handleArchiveEmails (rawArgs : list (jsstring * json)) : IO UpdateOutput :=
  let args_account := valueToString (get_field rawArgs (js "account")) [] in
  args_message_ids ← lift (valueToStringArray (get_field rawArgs (js "message_ids")));
  config ← loadConfig;
  account ← lift (resolveWriteAccount config (Some args_account));
  client ← getClientForAccount account;
  updated ← archiveEmails client args_message_ids;
  mret {| updated := updated; updated_account := account; updated_labels := None |}.

Definition handleTrashEmails (rawArgs : list (jsstring * json)) : IO UpdateOutput :=
  let args_account := valueToString (get_field rawArgs (js "account")) [] in
  args_message_ids ← lift (valueToStringArray (get_field rawArgs (js "message_ids")));
  config ← loadConfig;
  account ← lift (resolveWriteAccount config (Some args_account));
  client ← getClientForAccount account;
  updated ← trashEmails client args_message_ids;
  mret {| updated := updated; updated_account := account; updated_labels := None |}.

(** [args.credentials_json] is the raw argument, [None] when it is
    [undefined]; [args.credentials_path] is a string or [undefined]. *)
Definition parseCredentialsInput (credentials_json : option json)
    (credentials_path : option jsstring) (credentialsPath : jsstring) : IO json :=
  match credentials_json with
  | Some (JString text) => lift (JSON_parse text)
  | Some (JObject fields) => mret (JObject fields)
  | Some (JArray items) => mret (JArray items)
  | Some _ => lift (Err invalid_credentials_json)
  | None =>
      match credentials_path with
      | Some path =>
          if truthy_string path && negb (is_empty (trim path))
          then raw ← fs_readFile path; lift (JSON_parse raw)
          else readCredentialsFile credentialsPath
      | None => readCredentialsFile credentialsPath
      end
  end.

(** [valueToString(value, '') || undefined] *)
Definition optional_argument (value : option json) : option jsstring :=
  let s := valueToString value [] in
  if truthy_string s then Some s else None.

Definition handleBeginAccountAuth (rawArgs : list (jsstring * json)) : IO BeginOutput :=
  let args_account_id := valueToString (get_field rawArgs (js "account_id")) [] in
  let args_email := valueToString (get_field rawArgs (js "email")) [] in
  let args_display_name := optional_argument (get_field rawArgs (js "display_name")) in
  let args_credentials_json := get_field rawArgs (js "credentials_json") in
  let args_credentials_path :=
    optional_argument (get_field rawArgs (js "credentials_path")) in
  if negb (truthy_string args_account_id)
  then lift (Err (ArgumentRequired (js "account_id")))
  else if negb (truthy_string args_email)
  then lift (Err (ArgumentRequired (js "email")))
  else
    _ ← lift (validateAccountId args_account_id);
    _ ← ensureConfigLayout configRoot;
    let defaultPaths := getDefaultAccountPaths configRoot args_account_id in
    _ ← fs_mkdir (accountDir defaultPaths);
    credentials ← parseCredentialsInput args_credentials_json args_credentials_path
                    (credentialsPath defaultPaths);
    _ ← fs_writeFile (credentialsPath defaultPaths)
          (JSON_stringify credentials ++ js (String "010" ""));
    generated ← lift (generateAuthUrlFromCredentials credentials);
    config ← loadConfig;
    let config' :=
      upsertAccount config
        {| id := args_account_id; email := args_email;
           displayName := args_display_name; enabled := false;
           credentialPath := Some (credentialsPath defaultPaths);
           tokenPath := Some (tokenPath_ defaultPaths) |} in
    _ ← saveAccountsConfig configRoot config';
    mret {| begun_account := args_account_id; begun_email := args_email;
            begun_credentialsFile := credentialsPath defaultPaths;
            begun_authUrl := generated.2 |}.

Definition handleFinishAccountAuth (rawArgs : list (jsstring * json)) : IO FinishOutput :=
  let args_account_id := valueToString (get_field rawArgs (js "account_id")) [] in
  let args_authorization_code :=
    valueToString (get_field rawArgs (js "authorization_code")) [] in
  if negb (truthy_string args_account_id)
  then lift (Err (ArgumentRequired (js "account_id")))
  else if negb (truthy_string args_authorization_code)
  then lift (Err (ArgumentRequired (js "authorization_code")))
  else
    _ ← lift (validateAccountId args_account_id);
    config ← loadConfig;
    account ← lift (getAccountOrThrow config args_account_id);
    let paths := getAccountPaths configRoot account in
    credentials ← readCredentialsFile (credentialsPath paths);
    tokens ← lift (exchangeCodeForToken credentials args_authorization_code);
    if negb (truthy (get_field tokens (js "access_token")))
       && negb (truthy (get_field tokens (js "refresh_token")))
    then lift (Err TokenExchangeIncomplete)
    else
      _ ← fs_writeFile (tokenPath_ paths)
            (JSON_stringify (JObject tokens) ++ js (String "010" ""));
      let updatedAccount :=
        {| id := id account; email := email account;
           displayName := displayName account; enabled := true;
           credentialPath := Some (credentialsPath paths);
           tokenPath := Some (tokenPath_ paths) |} in
      let tempConfig := upsertAccount config updatedAccount in
      _ ← saveAccountsConfig configRoot tempConfig;
      refreshedAccount ← lift (getAccountOrThrow tempConfig args_account_id);
      client ← getClientForAccount refreshedAccount;
      profileEmail ←
        try_catch (getProfileEmail client)
          (fun error => mret (email refreshedAccount));
      let config' :=
        upsertAccount tempConfig
          {| id := id refreshedAccount; email := profileEmail;
             displayName := displayName refreshedAccount; enabled := true;
             credentialPath := credentialPath refreshedAccount;
             tokenPath := tokenPath refreshedAccount |} in
      let config'' :=
        match defaultAccount config' with
        | Some d =>
            if truthy_string d then config'
            else {| defaultAccount := Some args_account_id;
                    accounts := accounts config' |}
        | None => {| defaultAccount := Some args_account_id;
                     accounts := accounts config' |}
        end in
      _ ← saveAccountsConfig configRoot config'';
      mret {| finished_account := args_account_id; finished_email := profileEmail;
              finished_tokenFile := tokenPath_ paths |}.
End Server.

(** ** Vocabulary of the statements *)

(** The invariants the data model puts on a registry: every id matches the
    identifier pattern, and no two accounts share an id. *)
Definition registry_invariant (config : AccountsConfig) : Prop :=
  Forall (fun a => ACCOUNT_ID_PATTERN_test (id a) = true) (accounts config)
  ∧ NoDup (id <$> accounts config).

(** [a] is the account the registry holds for [accountId]: the first one, in
    registry order, with that id. *)
Definition registry_entry (config : AccountsConfig) (accountId : jsstring)
    (a : AccountConfig) : Prop :=
  ∃ before after,
    accounts config = before ++ a :: after
    ∧ id a = accountId
    ∧ ∀ b, b ∈ before → id b ≠ accountId.

(** An account argument that is missing or blank. *)
Definition blank (accountId : option jsstring) : Prop :=
  match accountId with
  | None => True
  | Some s => is_empty (trim s) = true
  end.

(** The string one failed account leaves in the error list. *)
Definition diagnostic (account : AccountConfig) (error : Error) : jsstring :=
  id account ++ js ": " ++ message error.

(** The record [accountResult] makes of the outcome of an account's
    operation. *)
Definition settled (account : AccountConfig) (outcome : Result (list ParsedEmail))
  : AccountResult :=
  match outcome with
  | Ok emails => {| account := account; emails := emails; error := None |}
  | Err e => {| account := account; emails := []; error := Some (diagnostic account e) |}
  end.

(** The items an outcome contributes, and the diagnostic it leaves. *)
Definition contributed (outcome : AccountConfig * Result (list ParsedEmail))
  : list ParsedEmail :=
  match outcome.2 with
  | Ok emails => emails
  | Err _ => []
  end.

Definition reported (outcome : AccountConfig * Result (list ParsedEmail))
  : option jsstring :=
  match outcome.2 with
  | Ok _ => None
  | Err e => Some (diagnostic outcome.1 e)
  end.

(** The outcomes of an operation on the accounts in their order, each on
    the disk the accounts before it left, and the disk after the last. *)
Fixpoint outcomes (operation : AccountConfig → IO (list ParsedEmail))
    (targetAccounts : list AccountConfig) (fs : FileSystem)
  : list (AccountConfig * Result (list ParsedEmail)) :=
  match targetAccounts with
  | [] => []
  | a :: rest => (a, (operation a fs).1) :: outcomes operation rest (operation a fs).2
  end.

Fixpoint disk_after (operation : AccountConfig → IO (list ParsedEmail))
    (targetAccounts : list AccountConfig) (fs : FileSystem) : FileSystem :=
  match targetAccounts with
  | [] => fs
  | a :: rest => disk_after operation rest (operation a fs).2
  end.

(** The argument the read and the search handler give the formatter, made
    of the outcomes of the accounts. *)
Definition listing (title scopeText queryText : jsstring)
    (results : list (AccountConfig * Result (list ParsedEmail))) (maxResults : number)
    (includeBody : bool) : EmailListOutput :=
  {| title := title; scopeText := scopeText; queryText := queryText;
     totalFound := length (Array_sort by_date (flat_map contributed results));
     returned := slice0 (Array_sort by_date (flat_map contributed results)) maxResults;
     includeBody := includeBody;
     errors := omap reported results |}.

(** [a] may stand before [b] in a sequence ordered by descending date. *)
Definition descending (a b : ParsedEmail) : Prop :=
  number_leb (emailDateForSort b) (emailDateForSort a) = true.

(** An email whose date line can be printed: it has a [Date] header, or no
    [internalDate] to speak of, or one that is a valid time value. *)
Definition printable (e : ParsedEmail) : Prop :=
  ParsedEmail.date e ≠ []
  ∨ match ParsedEmail.internalDate e with
    | Some (Fin q) => Qle_bool (Qabs q) 8640000000000000 = true
    | Some NaN | None => True
    | Some _ => False
    end.

(** The text a handler answers with when the formatter gets [input]. *)
Definition answered `{Builtins} (input : EmailListOutput) : Result CallToolResult :=
  text ← formatEmailListOutput input; Ok (textResult text).

(** What the load makes of the text of a registry file that is present: the
    steps of [loadAccountsConfig] between the read and the return. *)
Definition decoded `{Runtime} (configRoot raw : jsstring) : Result AccountsConfig :=
  parsed ← JSON_parse raw;
  parsed_accounts ← get_property parsed (js "accounts");
  let accountsRaw :=
    match parsed_accounts with Some (JArray items) => items | _ => [] end in
  sanitized ← traverse (sanitizeAccount configRoot) accountsRaw;
  let accounts := omap (fun account => account) sanitized in
  parsed_defaultAccount ← get_property parsed (js "defaultAccount");
  let defaultAccount :=
    match as_string parsed_defaultAccount with
    | Some d =>
        if existsb (fun account => bool_decide (id account = d)) accounts
        then Some d else None
    | None => None
    end in
  Ok {| defaultAccount := defaultAccount; accounts := accounts |}.

(** The disk after [ensureConfigLayout]. *)
Definition with_layout `{Runtime} (configRoot : jsstring) (fs : FileSystem) : FileSystem :=
  (ensureConfigLayout configRoot fs).2.

(** Nothing is at [path]: no file and no directory. *)
Definition absent (fs : FileSystem) (path : jsstring) : Prop :=
  files fs !! path = None ∧ path ∉ directories fs.

(** Something is at [path]: a file or a directory. *)
Definition present (fs : FileSystem) (path : jsstring) : Prop :=
  is_Some (files fs !! path) ∨ path ∈ directories fs.

(** The registry the load synthesizes when there is no file. *)
Definition emptyConfig : AccountsConfig := {| defaultAccount := None; accounts := [] |}.

(** The emails whose sort date is [q]. *)
Definition dated (q : Q) (e : ParsedEmail) : bool :=
  match emailDateForSort e with
  | Fin d => Qeq_bool d q
  | _ => false
  end.



(** What the load gives back as it was stored: paths that resolving leaves
    alone. *)
Definition resolved `{Runtime} (path : option jsstring) : Prop :=
  ∃ p, path = Some p ∧ path_resolve (expandHome p) = p.

Definition storable `{Runtime} (a : AccountConfig) : Prop :=
  ACCOUNT_ID_PATTERN_test (id a) = true
  ∧ is_empty (trim (email a)) = false
  ∧ resolved (credentialPath a) ∧ resolved (tokenPath a).

(** The default account is unset or names an account of the registry. *)
Definition default_in_registry (config : AccountsConfig) : Prop :=
  match defaultAccount config with
  | None => True
  | Some d => ∃ a, a ∈ accounts config ∧ id a = d
  end.

(** A provider whose calls refresh no token. *)
Definition quiet_reads `{GmailApi} : Prop :=
  (∀ client, refreshed (users_getProfile client) = [])
  ∧ (∀ client query maxResults,
       refreshed (users_messages_list client query maxResults) = [])
  ∧ (∀ client messageId format metadataHeaders,
       refreshed (users_messages_get client messageId format metadataHeaders) = []).

Definition quiet_writes `{GmailWriteApi} : Prop :=
  (∀ client ids addLabelIds removeLabelIds,
     refreshed (users_messages_batchModify client ids addLabelIds removeLabelIds) = [])
  ∧ (∀ client messageId, refreshed (users_messages_trash client messageId) = []).

(** The entry the second onboarding step stores for an account: enabled,
    with the paths the step used and the address it settled on. *)
Definition enabled_entry (a : AccountConfig) (paths : AccountPaths) (address : jsstring)
  : AccountConfig :=
  {| id := id a; email := address; displayName := displayName a; enabled := true;
     credentialPath := Some (credentialsPath paths);
     tokenPath := Some (tokenPath_ paths) |}.

(** The default account after the second onboarding step. *)
Definition default_or (config : AccountsConfig) (accountId : jsstring) : option jsstring :=
  match defaultAccount config with
  | Some d => if truthy_string d then Some d else Some accountId
  | None => Some accountId
  end.

(** The disk of the second onboarding step once it has written the token
    file and saved the registry with the account enabled. *)
Definition disk_after_exchange `{Runtime} (configRoot : jsstring) (config : AccountsConfig)
    (a : AccountConfig) (tokens : list (jsstring * json)) (fs : FileSystem) : FileSystem :=
  let paths := getAccountPaths configRoot a in
  (saveAccountsConfig configRoot (upsertAccount config (enabled_entry a paths (email a)))
     {| files := <[tokenPath_ paths :=
                     JSON_stringify (JObject tokens) ++ js (String "010" "")]> (files fs);
        directories := directories (with_layout configRoot fs) |}).2.

(** The entry the first onboarding step stores: disabled, with the default
    paths of the account. *)
Definition pending_entry `{Runtime} (configRoot accountId address : jsstring)
    (name : option jsstring) : AccountConfig :=
  {| id := accountId; email := address; displayName := name; enabled := false;
     credentialPath := Some (credentialsPath (getDefaultAccountPaths configRoot accountId));
     tokenPath := Some (tokenPath_ (getDefaultAccountPaths configRoot accountId)) |}.

(** The disk of the first onboarding step once it has made the account's
    directory and written the credentials it was given. *)
Definition disk_with_credentials `{Runtime} (configRoot accountId : jsstring)
    (credentials : json) (fs : FileSystem) : FileSystem :=
  let defaultPaths := getDefaultAccountPaths configRoot accountId in
  (fs_writeFile (credentialsPath defaultPaths)
     (JSON_stringify credentials ++ js (String "010" ""))
     (fs_mkdir (accountDir defaultPaths) (with_layout configRoot fs)).2).2.

(** ** Sample data *)

Definition sample_account (name : string) (on : bool) : AccountConfig :=
  {| id := js name; email := js name ++ js "@example.com"; displayName := None;
     enabled := on; credentialPath := None; tokenPath := None |}.

Definition sample_registry : AccountsConfig :=
  {| defaultAccount := Some (js "work");
     accounts := [sample_account "work" true; sample_account "old" false;
                  sample_account "home" true] |}.

(** A registry with two accounts of one id, the first enabled, the second
    not. *)
Definition twin_registry : AccountsConfig :=
  {| defaultAccount := None;
     accounts := [sample_account "x" true; sample_account "x" false] |}.

Definition empty_disk : FileSystem := {| files := ∅; directories := ∅ |}.

(** Paths with slashes: the directory of a path is what stands before its
    last slash. *)
Fixpoint from_slash (reversed : jsstring) : jsstring :=
  match reversed with
  | [] => []
  | c :: rest => if c =? 47 then reversed else from_slash rest
  end.

Definition sample_dirname (path : jsstring) : jsstring :=
  match from_slash (rev path) with
  | [] => js "."
  | [_] => js "/"
  | _ :: parent => rev parent
  end.

Definition sample_join (parts : list jsstring) : jsstring :=
  foldr (fun part rest => if is_empty rest then part else part ++ js "/" ++ rest)
    [] parts.

(** A run time for the examples: three texts the parser knows, every other
    text a syntax error. *)
Definition sample_document : json :=
  JObject [(js "defaultAccount", JString (js "gone"));
           (js "accounts",
            JArray [JObject [(js "id", JString (js "acct1"));
                             (js "email", JString (js "e@x.com"));
                             (js "enabled", JBool false)]])].

Definition sample_credentials : json :=
  JObject [(js "installed",
            JObject [(js "client_id", JString (js "cid"));
                     (js "client_secret", JString (js "secret"))])].

Definition sample_runtime : Runtime := {|
  JSON_decode text :=
    if bool_decide (text = js "registry") then inr sample_document
    else if bool_decide (text = js "credentials") then inr sample_credentials
    else inl (js "Unexpected token");
  JSON_stringify _ := js "{}";
  path_join := sample_join;
  path_resolve p := p;
  path_dirname := sample_dirname;
  os_homedir := js "/home/user"
|}.

Definition no_refresh {A} (r : Result A) : Response A :=
  {| answer := r; refreshed := [] |}.

Definition blank_message : Message :=
  {| Message.id := None; Message.threadId := None; Message.labelIds := None;
     Message.snippet := None; Message.internalDate := None; Message.payload := None |}.

(** A token endpoint that answers an empty payload. *)
Definition sample_api : GmailApi := {|
  oauth_getToken _ _ := Ok [];
  users_getProfile _ := no_refresh (Ok (Some (js "e@x.com")));
  users_messages_list _ _ _ := no_refresh (Ok None);
  users_messages_get _ _ _ _ := no_refresh (Ok blank_message)
|}.

Definition sample_disk : FileSystem :=
  {| files := {[ js "/cfg/accounts.json" := js "registry";
                 js "/cfg/accounts/acct1/credentials.json" := js "credentials" ]};
     directories := ∅ |}.

Definition broken_disk : FileSystem :=
  {| files := {[ js "/cfg/accounts.json" := js "{ not json" ]};
     directories := ∅ |}.

(** A disk on which the registry path is a directory. *)
Definition directory_disk : FileSystem :=
  {| files := ∅; directories := {[ js "/cfg/accounts.json" ]} |}.

(** A run time whose codec knows the sample texts and gives back the stored
    registry it wrote: a registry document is written as "registry2", every
    other value as "{}". *)
Definition stored_account : AccountConfig :=
  {| id := js "acct1"; email := js "e@x.com"; displayName := Some (js "Work");
     enabled := true;
     credentialPath := Some (js "/cfg/accounts/acct1/credentials.json");
     tokenPath := Some (js "/cfg/accounts/acct1/token.json") |}.

Definition stored_registry : AccountsConfig :=
  {| defaultAccount := Some (js "acct1"); accounts := [stored_account] |}.

Definition codec_runtime : Runtime := {|
  JSON_decode text :=
    if bool_decide (text = js "registry") then inr sample_document
    else if bool_decide (text = js "credentials") then inr sample_credentials
    else if bool_decide (text = js "registry2" ++ [10])
         then inr (config_to_json stored_registry)
    else if bool_decide (text = js "{}" ++ [10]) then inr (JObject [])
    else inl (js "Unexpected token");
  JSON_stringify value :=
    match value with
    | JObject ((key, _) :: _) =>
        if bool_decide (key = js "defaultAccount") then js "registry2" else js "{}"
    | _ => js "{}"
    end;
  path_join := sample_join;
  path_resolve p := p;
  path_dirname := sample_dirname;
  os_homedir := js "/home/user"
|}.

(** A token endpoint that answers an access token, and a profile that
    answers another address than the one on file. *)
Definition token_api : GmailApi := {|
  oauth_getToken _ _ := Ok [(js "access_token", JString (js "t"))];
  users_getProfile _ := no_refresh (Ok (Some (js "me@x.com")));
  users_messages_list _ _ _ := no_refresh (Ok None);
  users_messages_get _ _ _ _ := no_refresh (Ok blank_message)
|}.

(** A provider that accepts every change. *)
Definition sample_write_api : GmailWriteApi := {|
  users_messages_batchModify _ _ _ _ := no_refresh (Ok ());
  users_messages_trash _ _ := no_refresh (Ok ());
  users_labels_delete _ _ := no_refresh (Ok ())
|}.

Definition sample_format : NumberFormat := {| Number_toString _ := js "0" |}.

Definition sample_url_api : OAuthUrlApi := {|
  oauth_generateAuthUrl _ := js "https://accounts.google.com/o/oauth2/v2/auth"
|}.

Definition sample_client : GmailAccountClient :=
  {| client_account := stored_account;
     client_paths :=
       {| accountDir := js "/cfg/accounts/acct1";
          credentialsPath := js "/cfg/accounts/acct1/credentials.json";
          tokenPath_ := js "/cfg/accounts/acct1/token.json";
          metaPath := js "/cfg/accounts/acct1/meta.json" |};
     client_auth :=
       {| client_id := JString (js "cid"); client_secret := JString (js "secret");
          redirectUri := JString (js "http://localhost") |};
     cachedTokens := JObject [] |}.

(** A disk on which [acct1] is enabled and has both its files. *)
Definition ready_disk : FileSystem :=
  {| files := {[ js "/cfg/accounts.json" := js "registry2" ++ [10];
                 js "/cfg/accounts/acct1/credentials.json" := js "credentials";
                 js "/cfg/accounts/acct1/token.json" := js "{}" ++ [10] ]};
     directories := ∅ |}.

(** ** Sample mailboxes *)

(** Built-ins for the examples: ASCII letters in lower case, texts of
    digits as numbers, base64 data taken for its own text, one date text. *)
Definition sample_builtins : Builtins := {|
  String_toLowerCase s :=
    (fun c => if (65 <=? c) && (c <=? 90) then c + 32 else c) <$> s;
  StringToNumber s :=
    if forallb (fun c => (48 <=? c) && (c <=? 57)) s
    then Fin (inject_Z (Z.of_N (foldl (fun acc c => 10 * acc + (c - 48)) 0 s)))
    else NaN;
  Buffer_base64_utf8 s := s;
  Date_toISOString _ := js "1970-01-01T00:00:00.000Z"
|}.

Definition inbox_account (name : string) : AccountConfig :=
  {| id := js name; email := js name ++ js "@example.com"; displayName := None;
     enabled := true;
     credentialPath := Some (js "/cfg/accounts/" ++ js name ++ js "/credentials.json");
     tokenPath := Some (js "/cfg/accounts/" ++ js name ++ js "/token.json") |}.

Definition inbox_entry (name : string) : json :=
  JObject [(js "id", JString (js name));
           (js "email", JString (js name ++ js "@example.com"));
           (js "enabled", JBool true)].

(** A run time that knows a registry of the accounts A, B and C, one of A
    and B, the credentials and a token file, and writes an object as the
    list of its keys. *)
Definition inbox_runtime : Runtime := {|
  JSON_decode text :=
    if bool_decide (text = js "three")
    then inr (JObject [(js "defaultAccount", JNull);
                       (js "accounts",
                        JArray [inbox_entry "A"; inbox_entry "B"; inbox_entry "C"])])
    else if bool_decide (text = js "two")
    then inr (JObject [(js "defaultAccount", JNull);
                       (js "accounts", JArray [inbox_entry "A"; inbox_entry "B"])])
    else if bool_decide (text = js "credentials") then inr sample_credentials
    else if bool_decide (text = js "tokens")
    then inr (JObject [(js "refresh_token", JString (js "r"))])
    else inl (js "Unexpected token");
  JSON_stringify value :=
    match value with
    | JObject fields => js "{" ++ Array_join (js ",") (fields.*1) ++ js "}"
    | _ => js "{}"
    end;
  path_join := sample_join;
  path_resolve p := p;
  path_dirname := sample_dirname;
  os_homedir := js "/home/user"
|}.

Definition inbox_files (registry : string) : gmap jsstring jsstring :=
  {[ js "/cfg/accounts.json" := js registry;
     js "/cfg/accounts/A/credentials.json" := js "credentials";
     js "/cfg/accounts/A/token.json" := js "tokens";
     js "/cfg/accounts/B/credentials.json" := js "credentials";
     js "/cfg/accounts/B/token.json" := js "tokens";
     js "/cfg/accounts/C/credentials.json" := js "credentials";
     js "/cfg/accounts/C/token.json" := js "tokens" ]}.

Definition inbox_disk : FileSystem :=
  {| files := inbox_files "three"; directories := ∅ |}.

Definition pair_disk : FileSystem :=
  {| files := inbox_files "two"; directories := ∅ |}.

Definition listed (name : string) : Message :=
  {| Message.id := Some (js name); Message.threadId := None; Message.labelIds := None;
     Message.snippet := None; Message.internalDate := None; Message.payload := None |}.

(** The message [name], dated by the digits that follow its first
    character. *)
Definition dated_message (name : jsstring) : Message :=
  {| Message.id := Some name; Message.threadId := Some name;
     Message.labelIds := Some [js "INBOX"]; Message.snippet := Some (js "hello");
     Message.internalDate := Some (drop 1 name);
     Message.payload :=
       Some {| MessagePart.mimeType := Some (js "text/plain");
               MessagePart.headers :=
                 Some [{| header_name := Some (js "SUBJECT");
                          header_value := Some (js " Hi ") |}];
               MessagePart.body := Some {| data := Some (js "aGk_") |};
               MessagePart.parts := None |} |}.

(** A with messages dated 100 and 50 and a token refreshed while they are
    listed, B with one message dated 200, C failing with "boom". *)
Definition inbox_api : GmailApi := {|
  oauth_getToken _ _ := Ok [];
  users_getProfile _ := no_refresh (Ok (Some (js "me@x.com")));
  users_messages_list client _ _ :=
    if bool_decide (id (client_account client) = js "A")
    then {| answer := Ok (Some [listed "a100"; blank_message; listed "a50"]);
            refreshed := [[(js "access_token", JString (js "fresh"))]] |}
    else if bool_decide (id (client_account client) = js "B")
    then no_refresh (Ok (Some [listed "b200"]))
    else no_refresh (Err (External (js "boom")));
  users_messages_get _ messageId _ _ := no_refresh (Ok (dated_message messageId))
|}.

(** A with messages dated 90, 80 and 70, B with one message dated 60. *)
Definition busy_api : GmailApi := {|
  oauth_getToken _ _ := Ok [];
  users_getProfile _ := no_refresh (Ok (Some (js "me@x.com")));
  users_messages_list client _ _ :=
    if bool_decide (id (client_account client) = js "A")
    then no_refresh (Ok (Some [listed "a80"; listed "a90"; listed "a70"]))
    else no_refresh (Ok (Some [listed "b60"]));
  users_messages_get _ messageId _ _ := no_refresh (Ok (dated_message messageId))
|}.

(** The email [parseMessage] makes of [dated_message name] for the account
    [owner], without its body. *)
Definition sample_email (owner name : string) (date : Z) : ParsedEmail :=
  {| ParsedEmail.id := js name; ParsedEmail.threadId := js name;
     ParsedEmail.snippet := js "hello"; ParsedEmail.from := []; ParsedEmail.to := [];
     ParsedEmail.subject := js "Hi"; ParsedEmail.date := [];
     ParsedEmail.internalDate := Some (Fin (inject_Z date));
     ParsedEmail.body := None; ParsedEmail.labels := [js "INBOX"];
     ParsedEmail.accountId := js owner;
     ParsedEmail.accountEmail := js owner ++ js "@example.com" |}.

(** * Properties *)

(** ** Strings *)

Lemma account_id_char_not_whitespace c :
  account_id_char c = true → is_whitespace c = false.
Proof.
  unfold account_id_char, is_whitespace.
  rewrite !orb_true_iff, !andb_true_iff, !N.leb_le, !N.eqb_eq.
  intros Hc.
  repeat (apply orb_false_intro); try (apply N.eqb_neq; lia).
  apply andb_false_iff. rewrite !N.leb_gt. lia.
Qed.

Lemma trimStart_head c s :
  is_whitespace c = false → trimStart (c :: s) = c :: s.
Proof. intros Hc. simpl. by rewrite Hc. Qed.

Lemma pattern_not_empty s : ACCOUNT_ID_PATTERN_test s = true → s ≠ [].
Proof. by destruct s. Qed.

Lemma pattern_all_chars s c :
  ACCOUNT_ID_PATTERN_test s = true → c ∈ s → account_id_char c = true.
Proof.
  unfold ACCOUNT_ID_PATTERN_test. rewrite andb_true_iff, forallb_forall.
  intros [_ Hall] Hc. apply Hall. by apply list_elem_of_In.
Qed.

Lemma pattern_trim s : ACCOUNT_ID_PATTERN_test s = true → trim s = s.
Proof.
  intros Hs. unfold trim, trimEnd.
  assert (Hstart : trimStart s = s).
  { destruct s as [|c s']; [done|].
    apply trimStart_head, account_id_char_not_whitespace.
    apply (pattern_all_chars _ _ Hs). left. }
  rewrite Hstart.
  destruct (rev s) as [|c r] eqn:Hrev.
  - rewrite <- (rev_involutive s), Hrev. done.
  - rewrite trimStart_head.
    + by rewrite <- Hrev, rev_involutive.
    + apply account_id_char_not_whitespace, (pattern_all_chars _ _ Hs).
      apply list_elem_of_In, in_rev. rewrite Hrev. left. done.
Qed.

Lemma pattern_not_blank s :
  ACCOUNT_ID_PATTERN_test s = true → is_empty (trim s) = false.
Proof. intros Hs. rewrite (pattern_trim _ Hs). by destruct s. Qed.

Lemma explicit_account_pattern s :
  ACCOUNT_ID_PATTERN_test s = true → explicit_account (Some s) = Some s.
Proof.
  intros Hs. unfold explicit_account.
  rewrite (pattern_not_blank _ Hs). by destruct s.
Qed.

Lemma explicit_account_not_blank s :
  is_empty (trim s) = false → explicit_account (Some s) = Some s.
Proof.
  intros Hs. unfold explicit_account. rewrite Hs.
  destruct s; [done|]. done.
Qed.

Lemma explicit_account_blank accountId :
  blank accountId ↔ explicit_account accountId = None.
Proof.
  destruct accountId as [s|]; simpl; [|done].
  destruct (is_empty (trim s)) eqn:Hb.
  - by rewrite andb_false_r.
  - destruct s; [done|]. simpl. split; done.
Qed.

(** ** Registry lookup *)

Lemma validateAccountId_ok s :
  ACCOUNT_ID_PATTERN_test s = true → validateAccountId s = Ok ().
Proof. intros Hs. unfold validateAccountId. by rewrite Hs. Qed.

Lemma validateAccountId_err s :
  ACCOUNT_ID_PATTERN_test s = false → validateAccountId s = Err (InvalidAccountId s).
Proof. intros Hs. unfold validateAccountId. by rewrite Hs. Qed.

Lemma find_first {A} (p : A → bool) (before after : list A) (b : A) :
  p b = true → (∀ c, c ∈ before → p c = false) →
  find p (before ++ b :: after) = Some b.
Proof.
  intros Hb. induction before as [|c before IH]; intros Hbefore; simpl.
  - by rewrite Hb.
  - rewrite (Hbefore c) by left. apply IH. intros d Hd. apply Hbefore. by right.
Qed.

Lemma find_absent {A} (p : A → bool) (l : list A) :
  (∀ c, c ∈ l → p c = false) → find p l = None.
Proof.
  induction l as [|c l IH]; intros Hl; simpl; [done|].
  rewrite (Hl c) by left. apply IH. intros d Hd. apply Hl. by right.
Qed.

Lemma find_true {A} (p : A → bool) (l : list A) (x : A) :
  find p l = Some x → p x = true ∧ x ∈ l.
Proof.
  induction l as [|c l IH]; simpl; [done|].
  destruct (p c) eqn:Hc.
  - intros [= <-]. split; [done|left].
  - intros Hx. destruct (IH Hx). split; [done|by right].
Qed.

Lemma registry_entry_find config accountId a :
  registry_entry config accountId a →
  find (fun item => bool_decide (id item = accountId)) (accounts config) = Some a.
Proof.
  intros (before & after & -> & Hid & Hbefore). apply find_first.
  - by apply bool_decide_eq_true.
  - intros c Hc. apply bool_decide_eq_false. by apply Hbefore.
Qed.

Lemma unique_id_entry (l : list AccountConfig) (a : AccountConfig) :
  NoDup (id <$> l) → a ∈ l →
  ∃ before after, l = before ++ a :: after ∧ ∀ b, b ∈ before → id b ≠ id a.
Proof.
  induction l as [|c l IH]; intros Hnd Ha; [by apply elem_of_nil in Ha|].
  rewrite fmap_cons in Hnd. apply NoDup_cons in Hnd as [Hc Hnd].
  apply elem_of_cons in Ha as [->|Ha].
  - exists [], l. split; [done|]. intros b Hb. by apply elem_of_nil in Hb.
  - destruct (IH Hnd Ha) as (before & after & -> & Hbefore).
    exists (c :: before), after. split; [done|].
    intros b Hb. apply elem_of_cons in Hb as [->|Hb]; [|by apply Hbefore].
    intros Heq. apply Hc. rewrite Heq. apply list_elem_of_fmap. by exists a.
Qed.

Lemma invariant_entry config a :
  registry_invariant config → a ∈ accounts config → registry_entry config (id a) a.
Proof.
  intros [_ Hnd] Ha.
  destruct (unique_id_entry _ _ Hnd Ha) as (before & after & Hl & Hbefore).
  by exists before, after.
Qed.

Lemma getAccountOrThrow_entry config accountId a :
  ACCOUNT_ID_PATTERN_test accountId = true → registry_entry config accountId a →
  getAccountOrThrow config accountId = Ok a.
Proof.
  intros Hp Ha. unfold getAccountOrThrow.
  rewrite (validateAccountId_ok _ Hp). simpl.
  by rewrite (registry_entry_find _ _ _ Ha).
Qed.

Lemma getAccountOrThrow_absent config accountId :
  ACCOUNT_ID_PATTERN_test accountId = true →
  (∀ a, a ∈ accounts config → id a ≠ accountId) →
  getAccountOrThrow config accountId = Err (UnknownAccount accountId).
Proof.
  intros Hp Ha. unfold getAccountOrThrow.
  rewrite (validateAccountId_ok _ Hp). simpl.
  rewrite find_absent; [done|].
  intros c Hc. apply bool_decide_eq_false. by apply Ha.
Qed.

Lemma getAccountOrThrow_invalid config accountId :
  ACCOUNT_ID_PATTERN_test accountId = false →
  getAccountOrThrow config accountId = Err (InvalidAccountId accountId).
Proof.
  intros Hp. unfold getAccountOrThrow. by rewrite (validateAccountId_err _ Hp).
Qed.

Lemma getAccountOrThrow_Ok config accountId a :
  getAccountOrThrow config accountId = Ok a →
  ACCOUNT_ID_PATTERN_test accountId = true ∧ id a = accountId ∧ a ∈ accounts config.
Proof.
  unfold getAccountOrThrow, validateAccountId.
  destruct (ACCOUNT_ID_PATTERN_test accountId); simpl; [|done].
  destruct (find _ _) as [b|] eqn:Hfind; [|done].
  intros [= ->]. apply find_true in Hfind as [Hid Hin].
  apply bool_decide_eq_true in Hid. done.
Qed.

Lemma getAccountOrThrow_Unknown config accountId x :
  getAccountOrThrow config accountId = Err (UnknownAccount x) →
  x = accountId ∧ ACCOUNT_ID_PATTERN_test x = true.
Proof.
  unfold getAccountOrThrow, validateAccountId.
  destruct (ACCOUNT_ID_PATTERN_test accountId) eqn:Hp; simpl; [|done].
  destruct (find _ _); [done|]. by intros [= <-].
Qed.

Lemma resolveReadAccounts_enabled config accountId targets :
  resolveReadAccounts config accountId = Ok targets →
  ∀ b, b ∈ targets → enabled b = true ∧ b ∈ accounts config.
Proof.
  unfold resolveReadAccounts.
  destruct (explicit_account accountId) as [s|].
  - destruct (getAccountOrThrow config s) as [c|e] eqn:Hget; simpl; [|done].
    destruct (enabled c) eqn:Hc; simpl; [|done].
    intros [= <-] b Hb. apply list_elem_of_singleton in Hb as ->.
    split; [done|]. by apply getAccountOrThrow_Ok in Hget as (_ & _ & ?).
  - destruct (_ =? _)%nat; [done|].
    intros [= <-] b Hb. unfold getEnabledAccounts in Hb.
    apply list_elem_of_In, filter_In in Hb as [Hb ?].
    split; [done|]. by apply list_elem_of_In.
Qed.

Lemma resolveWriteAccount_enabled config accountId b :
  resolveWriteAccount config accountId = Ok b →
  enabled b = true ∧ b ∈ accounts config.
Proof.
  unfold resolveWriteAccount.
  destruct (explicit_account accountId) as [s|]; [|done].
  destruct (getAccountOrThrow config s) as [c|e] eqn:Hget; simpl; [|done].
  destruct (enabled c) eqn:Hc; simpl; [|done].
  intros [= <-]. split; [done|].
  by apply getAccountOrThrow_Ok in Hget as (_ & _ & ?).
Qed.

Lemma resolveReadAccounts_explicit config s :
  is_empty (trim s) = false →
  resolveReadAccounts config (Some s) =
    account ← getAccountOrThrow config s;
    if negb (enabled account) then Err (AccountDisabled s) else Ok [account].
Proof.
  intros Hs. unfold resolveReadAccounts. by rewrite (explicit_account_not_blank _ Hs).
Qed.

Lemma resolveWriteAccount_explicit config s :
  is_empty (trim s) = false →
  resolveWriteAccount config (Some s) =
    account ← getAccountOrThrow config s;
    if negb (enabled account) then Err (AccountDisabled s) else Ok account.
Proof.
  intros Hs. unfold resolveWriteAccount. by rewrite (explicit_account_not_blank _ Hs).
Qed.

Lemma resolveReadAccounts_aggregate config accountId :
  blank accountId →
  resolveReadAccounts config accountId =
    if (length (getEnabledAccounts config) =? 0)%nat then Err NoEnabledAccounts
    else Ok (getEnabledAccounts config).
Proof.
  intros Hb. unfold resolveReadAccounts.
  by rewrite (proj1 (explicit_account_blank _) Hb).
Qed.

(** C1, as the claim states it, fails.  In a registry that holds two
    accounts of one id, the first enabled and the second not, resolving the
    id of the disabled account does not fail: it selects the enabled one,
    for a read and for a write.  And in a registry that holds a disabled
    account whose id is outside the identifier pattern, resolving that id
    fails with InvalidAccountId, not with AccountDisabled. *)
Lemma disabled_account_counterexample :
  (sample_account "x" false ∈ accounts twin_registry
   ∧ enabled (sample_account "x" false) = false
   ∧ resolveReadAccounts twin_registry (Some (id (sample_account "x" false)))
     = Ok [sample_account "x" true]
   ∧ resolveWriteAccount twin_registry (Some (id (sample_account "x" false)))
     = Ok (sample_account "x" true))
  ∧ (let registry :=
       {| defaultAccount := None; accounts := [sample_account "a/b" false] |} in
     sample_account "a/b" false ∈ accounts registry
     ∧ enabled (sample_account "a/b" false) = false
     ∧ resolveReadAccounts registry (Some (id (sample_account "a/b" false)))
       = Err (InvalidAccountId (js "a/b"))
     ∧ resolveWriteAccount registry (Some (id (sample_account "a/b" false)))
       = Err (InvalidAccountId (js "a/b"))).
Proof.
  split.
  - split; [right; left|]. split; [reflexivity|]. split; reflexivity.
  - cbv zeta. split; [left|]. split; [reflexivity|]. split; reflexivity.
Qed.

(** C1, amended: an account with [enabled = false] is never selected.  In a
    registry whose ids match the identifier pattern and are unique,
    resolving the id of a disabled account fails with AccountDisabled for a
    read and for a write; and in every registry, whatever the account
    argument, the read resolver never returns a list that holds a disabled
    account and the write resolver never returns one. *)
Theorem disabled_account_never_selected (config : AccountsConfig) (a : AccountConfig) :
  a ∈ accounts config → enabled a = false →
  (registry_invariant config →
     resolveReadAccounts config (Some (id a)) = Err (AccountDisabled (id a))
     ∧ resolveWriteAccount config (Some (id a)) = Err (AccountDisabled (id a)))
  ∧ (∀ accountId targets,
       resolveReadAccounts config accountId = Ok targets → a ∉ targets)
  ∧ (∀ accountId, resolveWriteAccount config accountId ≠ Ok a).
Proof.
  intros Ha Hoff. split; [|split].
  - intros Hinv.
    assert (Hp : ACCOUNT_ID_PATTERN_test (id a) = true).
    { destruct Hinv as [Hall _]. rewrite Forall_forall in Hall. by apply Hall. }
    pose proof (getAccountOrThrow_entry _ _ _ Hp (invariant_entry _ _ Hinv Ha)) as Hget.
    rewrite resolveReadAccounts_explicit, resolveWriteAccount_explicit
      by (by apply pattern_not_blank).
    rewrite Hget. simpl. by rewrite Hoff.
  - intros accountId targets Hres Hin.
    destruct (resolveReadAccounts_enabled _ _ _ Hres a Hin) as [Hon _]. congruence.
  - intros accountId Hres.
    destruct (resolveWriteAccount_enabled _ _ _ Hres) as [Hon _]. congruence.
Qed.

Lemma disabled_account_never_selected_witness :
  (resolveReadAccounts sample_registry (Some (js "old")) = Err (AccountDisabled (js "old"))
   ∧ resolveWriteAccount sample_registry (Some (js "old")) = Err (AccountDisabled (js "old")))
  ∧ (sample_account "old" false
     ∉ [sample_account "work" true; sample_account "home" true])
  ∧ (resolveWriteAccount sample_registry (Some (js "home"))
     ≠ Ok (sample_account "old" false)).
Proof.
  assert (Hin : sample_account "old" false ∈ accounts sample_registry)
    by (apply (bool_decide_unpack _); vm_compute; exact I).
  assert (Hinv : registry_invariant sample_registry)
    by (split; apply (bool_decide_unpack _); vm_compute; exact I).
  destruct (disabled_account_never_selected sample_registry
              (sample_account "old" false) Hin eq_refl) as (Hfail & Hread & Hwrite).
  split; [exact (Hfail Hinv)|]. split.
  - apply (Hread None). reflexivity.
  - apply Hwrite.
Defined.

(** Closed decidable facts about the sample data. *)
Ltac by_evaluation := apply (bool_decide_unpack _); vm_compute; exact I.

Lemma sample_has_no (name : string) :
  Forall (fun a => id a ≠ js name) (accounts sample_registry) →
  ∀ a, a ∈ accounts sample_registry → id a ≠ js name.
Proof. intros Hall. by apply Forall_forall. Qed.

Lemma sample_entry_home :
  registry_entry sample_registry (js "home") (sample_account "home" true).
Proof.
  exists [sample_account "work" true; sample_account "old" false], [].
  split; [reflexivity|]. split; [reflexivity|].
  apply Forall_forall. by_evaluation.
Qed.

Lemma sample_entry_old :
  registry_entry sample_registry (js "old") (sample_account "old" false).
Proof.
  exists [sample_account "work" true], [sample_account "home" true].
  split; [reflexivity|]. split; [reflexivity|].
  apply Forall_forall. by_evaluation.
Qed.

(** C4, as the claim states it, fails: an id that is given, that no account
    has, and that does not match the identifier pattern is rejected as an
    invalid id, not as an unknown account. *)
Lemma resolveReadAccounts_unknown_counterexample :
  (∀ a, a ∈ accounts sample_registry → id a ≠ js "a/b")
  ∧ resolveReadAccounts sample_registry (Some (js "a/b"))
    = Err (InvalidAccountId (js "a/b"))
  ∧ resolveReadAccounts sample_registry (Some (js "a/b"))
    ≠ Err (UnknownAccount (js "a/b")).
Proof.
  split; [|split].
  - apply sample_has_no. by_evaluation.
  - reflexivity.
  - vm_compute. discriminate.
Qed.

(** C4, amended: for every registry, a given non-blank account id that does
    not match the identifier pattern fails with InvalidAccountId; one that
    matches it fails with UnknownAccount when no account has that id, fails
    with AccountDisabled when the account the registry holds for it is
    disabled, and otherwise yields exactly that one account.  With the id
    omitted (or blank) the result is the accounts with [enabled = true], in
    registry order, and the call fails with NoEnabledAccounts exactly when
    there is none. *)
Theorem resolveReadAccounts_spec (config : AccountsConfig) :
  (∀ accountId,
     is_empty (trim accountId) = false → ACCOUNT_ID_PATTERN_test accountId = false →
     resolveReadAccounts config (Some accountId) = Err (InvalidAccountId accountId))
  ∧ (∀ accountId,
       ACCOUNT_ID_PATTERN_test accountId = true →
       ((∀ a, a ∈ accounts config → id a ≠ accountId) →
        resolveReadAccounts config (Some accountId) = Err (UnknownAccount accountId))
       ∧ (∀ a, registry_entry config accountId a → enabled a = false →
          resolveReadAccounts config (Some accountId) = Err (AccountDisabled accountId))
       ∧ (∀ a, registry_entry config accountId a → enabled a = true →
          resolveReadAccounts config (Some accountId) = Ok [a]))
  ∧ (∀ accountId,
       blank accountId →
       (List.filter (fun a => enabled a) (accounts config) ≠ [] →
        resolveReadAccounts config accountId
        = Ok (List.filter (fun a => enabled a) (accounts config)))
       ∧ (resolveReadAccounts config accountId = Err NoEnabledAccounts
          ↔ List.filter (fun a => enabled a) (accounts config) = [])).
Proof.
  split; [|split].
  - intros accountId Hnb Hp. rewrite resolveReadAccounts_explicit by done.
    by rewrite getAccountOrThrow_invalid.
  - intros accountId Hp.
    pose proof (pattern_not_blank _ Hp) as Hnb.
    split; [|split].
    + intros Hnone. rewrite resolveReadAccounts_explicit by done.
      by rewrite getAccountOrThrow_absent.
    + intros a Ha Hoff. rewrite resolveReadAccounts_explicit by done.
      rewrite (getAccountOrThrow_entry _ _ _ Hp Ha). simpl. by rewrite Hoff.
    + intros a Ha Hon. rewrite resolveReadAccounts_explicit by done.
      rewrite (getAccountOrThrow_entry _ _ _ Hp Ha). simpl. by rewrite Hon.
  - intros accountId Hb. rewrite (resolveReadAccounts_aggregate _ _ Hb).
    unfold getEnabledAccounts.
    destruct (List.filter _ _) as [|b l]; simpl.
    + split; [done|]. split; done.
    + split; [done|]. split; done.
Qed.

Lemma resolveReadAccounts_spec_witness :
  resolveReadAccounts sample_registry (Some (js "a b")) = Err (InvalidAccountId (js "a b"))
  ∧ resolveReadAccounts sample_registry (Some (js "nobody")) = Err (UnknownAccount (js "nobody"))
  ∧ resolveReadAccounts sample_registry (Some (js "old")) = Err (AccountDisabled (js "old"))
  ∧ resolveReadAccounts sample_registry (Some (js "home")) = Ok [sample_account "home" true]
  ∧ resolveReadAccounts sample_registry None
    = Ok [sample_account "work" true; sample_account "home" true].
Proof.
  destruct (resolveReadAccounts_spec sample_registry) as (Hinvalid & Hvalid & Hall).
  split; [|split; [|split; [|split]]].
  - apply Hinvalid; reflexivity.
  - apply (Hvalid (js "nobody")); [reflexivity|].
    apply sample_has_no. by_evaluation.
  - apply (Hvalid (js "old") eq_refl) with (a := sample_account "old" false);
      [apply sample_entry_old|reflexivity].
  - apply (Hvalid (js "home") eq_refl); [apply sample_entry_home|reflexivity].
  - apply (Hall None I). vm_compute. discriminate.
Defined.

(** C5, as the claim states it, fails: a non-blank id that is not in the
    registry and does not match the identifier pattern is rejected as an
    invalid id, not as an unknown account. *)
Lemma resolveWriteAccount_unknown_counterexample :
  is_empty (trim (js "a/b")) = false
  ∧ (∀ a, a ∈ accounts sample_registry → id a ≠ js "a/b")
  ∧ resolveWriteAccount sample_registry (Some (js "a/b"))
    = Err (InvalidAccountId (js "a/b"))
  ∧ resolveWriteAccount sample_registry (Some (js "a/b"))
    ≠ Err (UnknownAccount (js "a/b")).
Proof.
  split; [reflexivity|]. split; [|split].
  - apply sample_has_no. by_evaluation.
  - reflexivity.
  - vm_compute. discriminate.
Qed.

(** C5, amended: for every registry, the write resolver fails with
    AccountRequired whenever the account id is missing or blank, whatever the
    registry holds (no default, no aggregation).  A non-blank id that does
    not match the identifier pattern fails with InvalidAccountId; one that
    matches it fails with UnknownAccount if no account has that id, fails
    with AccountDisabled if the account the registry holds for it is
    disabled, and otherwise yields that one account. *)
Theorem resolveWriteAccount_spec (config : AccountsConfig) :
  (∀ accountId, blank accountId → resolveWriteAccount config accountId = Err AccountRequired)
  ∧ (∀ accountId,
       is_empty (trim accountId) = false → ACCOUNT_ID_PATTERN_test accountId = false →
       resolveWriteAccount config (Some accountId) = Err (InvalidAccountId accountId))
  ∧ (∀ accountId,
       ACCOUNT_ID_PATTERN_test accountId = true →
       ((∀ a, a ∈ accounts config → id a ≠ accountId) →
        resolveWriteAccount config (Some accountId) = Err (UnknownAccount accountId))
       ∧ (∀ a, registry_entry config accountId a → enabled a = false →
          resolveWriteAccount config (Some accountId) = Err (AccountDisabled accountId))
       ∧ (∀ a, registry_entry config accountId a → enabled a = true →
          resolveWriteAccount config (Some accountId) = Ok a)).
Proof.
  split; [|split].
  - intros accountId Hb. unfold resolveWriteAccount.
    by rewrite (proj1 (explicit_account_blank _) Hb).
  - intros accountId Hnb Hp. rewrite resolveWriteAccount_explicit by done.
    by rewrite getAccountOrThrow_invalid.
  - intros accountId Hp.
    pose proof (pattern_not_blank _ Hp) as Hnb.
    split; [|split].
    + intros Hnone. rewrite resolveWriteAccount_explicit by done.
      by rewrite getAccountOrThrow_absent.
    + intros a Ha Hoff. rewrite resolveWriteAccount_explicit by done.
      rewrite (getAccountOrThrow_entry _ _ _ Hp Ha). simpl. by rewrite Hoff.
    + intros a Ha Hon. rewrite resolveWriteAccount_explicit by done.
      rewrite (getAccountOrThrow_entry _ _ _ Hp Ha). simpl. by rewrite Hon.
Qed.

Lemma resolveWriteAccount_spec_witness :
  resolveWriteAccount sample_registry None = Err AccountRequired
  ∧ resolveWriteAccount sample_registry (Some (js "  ")) = Err AccountRequired
  ∧ resolveWriteAccount sample_registry (Some (js "a b")) = Err (InvalidAccountId (js "a b"))
  ∧ resolveWriteAccount sample_registry (Some (js "nobody")) = Err (UnknownAccount (js "nobody"))
  ∧ resolveWriteAccount sample_registry (Some (js "old")) = Err (AccountDisabled (js "old"))
  ∧ resolveWriteAccount sample_registry (Some (js "home")) = Ok (sample_account "home" true).
Proof.
  destruct (resolveWriteAccount_spec sample_registry) as (Hblank & Hinvalid & Hvalid).
  split; [|split; [|split; [|split; [|split]]]].
  - apply Hblank. exact I.
  - apply Hblank. reflexivity.
  - apply Hinvalid; reflexivity.
  - apply (Hvalid (js "nobody")); [reflexivity|].
    apply sample_has_no. by_evaluation.
  - apply (Hvalid (js "old") eq_refl) with (a := sample_account "old" false);
      [apply sample_entry_old|reflexivity].
  - apply (Hvalid (js "home") eq_refl); [apply sample_entry_home|reflexivity].
Defined.

(** C10: for every registry, an account id that does not match the
    identifier pattern makes the lookup fail with InvalidAccountId, whatever
    the registry holds; so do the read and the write resolution when that id
    is not blank.  And whenever the lookup or a resolver fails with
    UnknownAccount, the id it names matches the pattern. *)
Theorem invalid_id_rejected_before_lookup (config : AccountsConfig) :
  (∀ accountId,
     ACCOUNT_ID_PATTERN_test accountId = false →
     getAccountOrThrow config accountId = Err (InvalidAccountId accountId)
     ∧ (is_empty (trim accountId) = false →
        resolveReadAccounts config (Some accountId) = Err (InvalidAccountId accountId)
        ∧ resolveWriteAccount config (Some accountId) = Err (InvalidAccountId accountId)))
  ∧ (∀ accountId x,
       getAccountOrThrow config accountId = Err (UnknownAccount x) →
       ACCOUNT_ID_PATTERN_test x = true)
  ∧ (∀ accountId x,
       resolveReadAccounts config accountId = Err (UnknownAccount x) →
       ACCOUNT_ID_PATTERN_test x = true)
  ∧ (∀ accountId x,
       resolveWriteAccount config accountId = Err (UnknownAccount x) →
       ACCOUNT_ID_PATTERN_test x = true).
Proof.
  split; [|split; [|split]].
  - intros accountId Hp. split; [by apply getAccountOrThrow_invalid|].
    intros Hnb.
    rewrite resolveReadAccounts_explicit, resolveWriteAccount_explicit by done.
    by rewrite getAccountOrThrow_invalid.
  - intros accountId x Hx. by apply getAccountOrThrow_Unknown in Hx as [_ ?].
  - intros accountId x. unfold resolveReadAccounts.
    destruct (explicit_account accountId) as [s|].
    + destruct (getAccountOrThrow config s) as [c|e] eqn:Hget; simpl.
      * by destruct (enabled c).
      * intros [= ->]. by apply getAccountOrThrow_Unknown in Hget as [_ ?].
    + by destruct (_ =? _)%nat.
  - intros accountId x. unfold resolveWriteAccount.
    destruct (explicit_account accountId) as [s|]; [|done].
    destruct (getAccountOrThrow config s) as [c|e] eqn:Hget; simpl.
    + by destruct (enabled c).
    + intros [= ->]. by apply getAccountOrThrow_Unknown in Hget as [_ ?].
Qed.

Lemma invalid_id_rejected_before_lookup_witness :
  getAccountOrThrow sample_registry (js "a/b") = Err (InvalidAccountId (js "a/b"))
  ∧ resolveReadAccounts sample_registry (Some (js "a/b")) = Err (InvalidAccountId (js "a/b"))
  ∧ resolveWriteAccount sample_registry (Some (js "a b")) = Err (InvalidAccountId (js "a b"))
  ∧ ACCOUNT_ID_PATTERN_test (js "nobody") = true
  ∧ ACCOUNT_ID_PATTERN_test (js "no-one") = true
  ∧ ACCOUNT_ID_PATTERN_test (js "no_1") = true.
Proof.
  destruct (invalid_id_rejected_before_lookup sample_registry)
    as (Hinvalid & Hlookup & Hread & Hwrite).
  split; [|split; [|split; [|split; [|split]]]];
    [| | | |exact (Hread (Some (js "no-one")) (js "no-one") eq_refl)
           |exact (Hwrite (Some (js "no_1")) (js "no_1") eq_refl)].
  - exact (proj1 (Hinvalid (js "a/b") eq_refl)).
  - exact (proj1 (proj2 (Hinvalid (js "a/b") eq_refl) eq_refl)).
  - exact (proj2 (proj2 (Hinvalid (js "a b") eq_refl) eq_refl)).
  - exact (Hlookup (js "nobody") (js "nobody") eq_refl).
Defined.

(** ** upsertAccount *)

Lemma findIndex_first {A} (p : A → bool) (before after : list A) (b : A) :
  p b = true → (∀ c, c ∈ before → p c = false) →
  findIndex p (before ++ b :: after) = Some (length before).
Proof.
  intros Hb. induction before as [|c before IH]; intros Hbefore; simpl.
  - by rewrite Hb.
  - rewrite (Hbefore c) by left. rewrite IH; [done|].
    intros d Hd. apply Hbefore. by right.
Qed.

Lemma findIndex_absent {A} (p : A → bool) (l : list A) :
  (∀ c, c ∈ l → p c = false) → findIndex p l = None.
Proof.
  induction l as [|c l IH]; intros Hl; simpl; [done|].
  rewrite (Hl c) by left. rewrite IH; [done|].
  intros d Hd. apply Hl. by right.
Qed.

Lemma findIndex_split {A} (p : A → bool) (l : list A) :
  match findIndex p l with
  | Some i =>
      ∃ before b after,
        l = before ++ b :: after ∧ length before = i ∧ p b = true
        ∧ ∀ c, c ∈ before → p c = false
  | None => ∀ c, c ∈ l → p c = false
  end.
Proof.
  induction l as [|x l IH]; simpl.
  - intros c Hc. by apply elem_of_nil in Hc.
  - destruct (p x) eqn:Hx.
    + exists [], x, l. repeat split; try done.
      intros c Hc. by apply elem_of_nil in Hc.
    + destruct (findIndex p l) as [i|]; simpl.
      * destruct IH as (before & b & after & -> & <- & Hb & Hbefore).
        exists (x :: before), b, after. repeat split; try done.
        intros c Hc. apply elem_of_cons in Hc as [->|Hc]; [done|by apply Hbefore].
      * intros c Hc. apply elem_of_cons in Hc as [->|Hc]; [done|by apply IH].
Qed.

Lemma insert_at_split {A} (before after : list A) (b a : A) :
  <[length before := a]> (before ++ b :: after) = before ++ a :: after.
Proof. induction before as [|c before IH]; simpl; [done|]. by rewrite IH. Qed.

Lemma upsertAccount_replace config a before b after :
  accounts config = before ++ b :: after → id b = id a →
  (∀ c, c ∈ before → id c ≠ id a) →
  upsertAccount config a
  = {| defaultAccount := defaultAccount config; accounts := before ++ a :: after |}.
Proof.
  intros Hl Hb Hbefore. unfold upsertAccount. rewrite Hl.
  rewrite findIndex_first.
  - by rewrite insert_at_split.
  - by apply bool_decide_eq_true.
  - intros c Hc. apply bool_decide_eq_false. by apply Hbefore.
Qed.

Lemma upsertAccount_append config a :
  (∀ c, c ∈ accounts config → id c ≠ id a) →
  upsertAccount config a
  = {| defaultAccount := defaultAccount config; accounts := accounts config ++ [a] |}.
Proof.
  intros Hnone. unfold upsertAccount. rewrite findIndex_absent; [done|].
  intros c Hc. apply bool_decide_eq_false. by apply Hnone.
Qed.

(** C9: [upsertAccount] is a function of the registry and the account that
    keeps [defaultAccount]; when an account of the registry has the id of the
    new one, the first such account is replaced where it stands and every
    other account stays where it was; when none has it, the new account is
    appended at the end; and upserting the same account a second time changes
    nothing. *)
Theorem upsertAccount_spec (config : AccountsConfig) (a : AccountConfig) :
  defaultAccount (upsertAccount config a) = defaultAccount config
  ∧ (∀ before b after,
       accounts config = before ++ b :: after → id b = id a →
       (∀ c, c ∈ before → id c ≠ id a) →
       accounts (upsertAccount config a) = before ++ a :: after)
  ∧ ((∀ c, c ∈ accounts config → id c ≠ id a) →
     accounts (upsertAccount config a) = accounts config ++ [a])
  ∧ upsertAccount (upsertAccount config a) a = upsertAccount config a.
Proof.
  split; [|split; [|split]].
  - unfold upsertAccount. by destruct (findIndex _ _).
  - intros before b after Hl Hb Hbefore.
    by rewrite (upsertAccount_replace _ _ _ _ _ Hl Hb Hbefore).
  - intros Hnone. by rewrite (upsertAccount_append _ _ Hnone).
  - pose proof (findIndex_split (fun account => bool_decide (id account = id a))
                  (accounts config)) as Hsplit.
    destruct (findIndex _ (accounts config)) as [i|] eqn:Hfind.
    + destruct Hsplit as (before & b & after & Hl & _ & Hb & Hbefore).
      apply bool_decide_eq_true in Hb.
      assert (Hbefore' : ∀ c, c ∈ before → id c ≠ id a).
      { intros c Hc. specialize (Hbefore c Hc).
        by apply bool_decide_eq_false in Hbefore. }
      rewrite (upsertAccount_replace _ _ _ _ _ Hl Hb Hbefore').
      by rewrite (upsertAccount_replace
                    {| defaultAccount := defaultAccount config;
                       accounts := before ++ a :: after |}
                    a before a after eq_refl eq_refl Hbefore').
    + assert (Hnone : ∀ c, c ∈ accounts config → id c ≠ id a).
      { intros c Hc. specialize (Hsplit c Hc).
        by apply bool_decide_eq_false in Hsplit. }
      rewrite (upsertAccount_append _ _ Hnone).
      by rewrite (upsertAccount_replace
                    {| defaultAccount := defaultAccount config;
                       accounts := accounts config ++ [a] |}
                    a (accounts config) a [] eq_refl eq_refl Hnone).
Qed.

Lemma upsertAccount_spec_witness :
  accounts (upsertAccount sample_registry (sample_account "old" true))
  = [sample_account "work" true; sample_account "old" true; sample_account "home" true]
  ∧ accounts (upsertAccount sample_registry (sample_account "new" false))
    = accounts sample_registry ++ [sample_account "new" false].
Proof.
  split.
  - apply (proj1 (proj2 (upsertAccount_spec sample_registry (sample_account "old" true)))
             [sample_account "work" true] (sample_account "old" false)
             [sample_account "home" true]); [reflexivity|reflexivity|].
    apply Forall_forall. by_evaluation.
  - apply (proj1 (proj2 (proj2 (upsertAccount_spec sample_registry
                                   (sample_account "new" false))))).
    apply Forall_forall. by_evaluation.
Defined.

(** ** Numbers and the limit *)

Lemma valueToNumber_finite (value : option json) (fallback : Q) :
  ∃ q, valueToNumber value (Fin fallback) = Fin q.
Proof.
  destruct value as [[| |[q| | |]| | |]|]; simpl; eauto.
Qed.

Lemma clamp_finite (q : Q) :
  ∃ r, clamp (Fin q) (Fin 1) (Fin 100) = Fin r ∧ (1 <= r)%Q ∧ (r <= 100)%Q.
Proof.
  unfold clamp, Math_min, Math_max.
  destruct (Qle_bool q 100) eqn:Hhi.
  - destruct (Qle_bool 1 q) eqn:Hlo.
    + exists q. apply Qle_bool_iff in Hhi, Hlo. done.
    + exists 1%Q. repeat split; lra.
  - simpl. exists 100%Q. repeat split; lra.
Qed.


Lemma Qtruncate_bounds (r : Q) :
  (1 <= r)%Q → (r <= 100)%Q → (1 ≤ Qtruncate r ≤ 100)%Z.
Proof.
  destruct r as [n d]. unfold Qle, Qtruncate. simpl. intros Hlo Hhi.
  rewrite Z.quot_div_nonneg by lia.
  split.
  - apply Z.div_le_lower_bound; lia.
  - apply Z.div_le_upper_bound; lia.
Qed.

Lemma Qtruncate_integer (k : Z) : Qtruncate (inject_Z k) = k.
Proof. unfold Qtruncate, inject_Z. simpl. apply Z.quot_1_r. Qed.

Lemma clamp_integer (k : Z) :
  (1 ≤ k ≤ 100)%Z → clamp (Fin (inject_Z k)) (Fin 1) (Fin 100) = Fin (inject_Z k).
Proof.
  intros Hk. unfold clamp, Math_min, Math_max.
  assert (Hhi : Qle_bool (inject_Z k) 100 = true).
  { apply Qle_bool_iff. unfold Qle. simpl. lia. }
  assert (Hlo : Qle_bool 1 (inject_Z k) = true).
  { apply Qle_bool_iff. unfold Qle. simpl. lia. }
  by rewrite Hhi, Hlo.
Qed.

(** ** The merge *)

Lemma emailDateForSort_finite (e : ParsedEmail) :
  ∃ q, emailDateForSort e = Fin q.
Proof.
  unfold emailDateForSort.
  destruct (ParsedEmail.internalDate e) as [[q| | |]|]; simpl; eauto.
Qed.

Lemma comes_first_dates (a b : ParsedEmail) :
  comes_first (by_date a b) = true ↔ descending a b.
Proof.
  unfold descending, by_date.
  destruct (emailDateForSort_finite a) as [qa ->].
  destruct (emailDateForSort_finite b) as [qb ->].
  simpl. rewrite !Qle_bool_iff. split; intros; lra.
Qed.

Lemma descending_total (a b : ParsedEmail) : descending a b ∨ descending b a.
Proof.
  unfold descending.
  destruct (emailDateForSort_finite a) as [qa ->].
  destruct (emailDateForSort_finite b) as [qb ->].
  simpl. rewrite !Qle_bool_iff. destruct (Qlt_le_dec qa qb); [right|left]; lra.
Qed.

Lemma descending_trans (a b c : ParsedEmail) :
  descending a b → descending b c → descending a c.
Proof.
  unfold descending.
  destruct (emailDateForSort_finite a) as [qa ->].
  destruct (emailDateForSort_finite b) as [qb ->].
  destruct (emailDateForSort_finite c) as [qc ->].
  simpl. rewrite !Qle_bool_iff. intros; lra.
Qed.

Lemma sort_insert_perm {A} (comparefn : A → A → number) (x : A) (l : list A) :
  sort_insert comparefn x l ≡ₚ x :: l.
Proof.
  induction l as [|y l IH]; simpl; [done|].
  destruct (comes_first _); [done|].
  rewrite IH. apply Permutation_swap.
Qed.

Lemma Array_sort_perm {A} (comparefn : A → A → number) (l : list A) :
  Array_sort comparefn l ≡ₚ l.
Proof.
  induction l as [|x l IH]; simpl; [done|].
  by rewrite sort_insert_perm, IH.
Qed.

Lemma sort_insert_descending (x : ParsedEmail) (l : list ParsedEmail) :
  StronglySorted descending l →
  StronglySorted descending (sort_insert by_date x l).
Proof.
  induction 1 as [|y l Hl IH Hy]; simpl.
  - constructor; [constructor|constructor].
  - destruct (comes_first (by_date x y)) eqn:Hxy.
    + apply comes_first_dates in Hxy.
      constructor; [by constructor|].
      constructor; [done|].
      eapply Forall_impl; [exact Hy|].
      intros z Hz. by eapply descending_trans.
    + constructor; [done|].
      assert (Hyx : descending y x).
      { destruct (descending_total x y) as [Hd|Hd]; [|done].
        apply comes_first_dates in Hd. congruence. }
      rewrite sort_insert_perm. by constructor.
Qed.

Lemma Array_sort_descending (l : list ParsedEmail) :
  StronglySorted descending (Array_sort by_date l).
Proof.
  induction l as [|x l IH]; simpl; [constructor|].
  by apply sort_insert_descending.
Qed.

Lemma merged_perm (accountResults : list AccountResult) :
  merged accountResults ≡ₚ flat_map emails accountResults.
Proof. apply Array_sort_perm. Qed.

Lemma merged_descending (accountResults : list AccountResult) :
  StronglySorted descending (merged accountResults).
Proof. apply Array_sort_descending. Qed.

Lemma sort_insert_stable {A} (comparefn : A → A → number) (p : A → bool)
    (x : A) (l : list A) :
  (∀ y, p x = true → p y = true → comes_first (comparefn x y) = true) →
  List.filter p (sort_insert comparefn x l) = List.filter p (x :: l).
Proof.
  intros Hp. induction l as [|y l IH]; [done|].
  cbn [sort_insert]. destruct (comes_first (comparefn x y)) eqn:Hxy; [done|].
  cbn [List.filter] in *. rewrite IH.
  destruct (p x) eqn:Hx; [|done].
  destruct (p y) eqn:Hy; [|done].
  rewrite (Hp y) in Hxy by done. done.
Qed.

(** The sort is stable: emails of equal date keep the order they had in the
    concatenation of the accounts' sequences. *)
Lemma merged_stable (q : Q) (accountResults : list AccountResult) :
  List.filter (dated q) (merged accountResults)
  = List.filter (dated q) (flat_map emails accountResults).
Proof.
  unfold merged. induction (flat_map emails accountResults) as [|x l IH]; [done|].
  cbn [Array_sort]. rewrite sort_insert_stable.
  - cbn [List.filter]. by rewrite IH.
  - intros y Hx Hy. apply comes_first_dates. unfold descending, dated in *.
    destruct (emailDateForSort x) as [dx| | |]; try done.
    destruct (emailDateForSort y) as [dy| | |]; try done.
    apply Qeq_bool_iff in Hx, Hy. simpl. apply Qle_bool_iff. lra.
Qed.

(** ** Loading the registry *)

Lemma lift_bind {A B} (r : Result A) (k : A → IO B) (fs : FileSystem) :
  (lift r ≫= k) fs = match r with Ok a => k a fs | Err e => (Err e, fs) end.
Proof. unfold mbind, IO_mbind, lift. by destruct r. Qed.

Lemma io_bind {A B} (m : IO A) (k : A → IO B) (fs : FileSystem) :
  (m ≫= k) fs
  = match m fs with
    | (Ok a, fs') => k a fs'
    | (Err e, fs') => (Err e, fs')
    end.
Proof. reflexivity. Qed.

Section Loading.
Context `{Runtime}.
Variable configRoot : jsstring.

Lemma decoded_error_code (raw : jsstring) (e : Error) :
  decoded configRoot raw = Err e → code e = None.
Proof.
  unfold decoded, JSON_parse.
  destruct (JSON_decode raw) as [detail|parsed]; simpl; [by intros [= <-]|].
  destruct parsed as [| | | | |fields]; simpl; try (by intros [= <-]);
    try discriminate.
  destruct (traverse _ _) as [sanitized|e'] eqn:Htraverse; simpl; [done|].
  intros [= <-]. clear -Htraverse. revert e' Htraverse.
  generalize (match get_field fields (js "accounts") with
              | Some (JArray items) => items
              | _ => []
              end).
  induction l as [|x l IH]; intros e' He; simpl in He; [done|].
  destruct (sanitizeAccount configRoot x) as [y|e1] eqn:Hx; simpl in He.
  - destruct (traverse (sanitizeAccount configRoot) l) as [ys|e2]; simpl in He;
      [done|]. injection He as <-. by apply IH.
  - injection He as <-. clear -Hx. unfold sanitizeAccount in Hx.
    destruct x; try done.
    destruct (as_string (get_field fields (js "id"))) as [i|]; [|done].
    destruct (is_empty (trim i)); [done|].
    destruct (as_string (get_field fields (js "email"))) as [m|]; [|done].
    destruct (is_empty (trim m)); [done|].
    unfold validateAccountId in Hx.
    destruct (ACCOUNT_ID_PATTERN_test i); simpl in Hx; [done|].
    by injection Hx as <-.
Qed.

Lemma with_layout_files (fs : FileSystem) : files (with_layout configRoot fs) = files fs.
Proof. reflexivity. Qed.

Lemma loadAccountsConfig_present (fs : FileSystem) (raw : jsstring) :
  files fs !! getAccountsFilePath configRoot = Some raw →
  loadAccountsConfig configRoot fs
  = (match decoded configRoot raw with
     | Ok config => Ok config
     | Err e => Err (ConfigCorrupt e)
     end, with_layout configRoot fs).
Proof.
  intros Hraw. unfold loadAccountsConfig.
  rewrite io_bind. change (ensureConfigLayout configRoot fs)
    with (Ok (), with_layout configRoot fs).
  unfold try_catch. rewrite io_bind. unfold fs_readFile.
  rewrite with_layout_files, Hraw.
  pose proof (decoded_error_code raw) as Hcode. unfold decoded in *.
  rewrite lift_bind.
  destruct (JSON_parse raw) as [parsed|e]; simpl in *;
    [|by rewrite (Hcode e eq_refl)].
  rewrite lift_bind.
  destruct (get_property parsed (js "accounts")) as [parsed_accounts|e]; simpl in *;
    [|by rewrite (Hcode e eq_refl)].
  rewrite lift_bind.
  destruct (traverse _ _) as [sanitized|e]; simpl in *;
    [|by rewrite (Hcode e eq_refl)].
  rewrite lift_bind.
  destruct (get_property parsed (js "defaultAccount")) as [d|e]; simpl in *;
    [done|by rewrite (Hcode e eq_refl)].
Qed.

Lemma loadAccountsConfig_missing (fs : FileSystem) :
  absent (with_layout configRoot fs) (getAccountsFilePath configRoot) →
  loadAccountsConfig configRoot fs
  = (Ok emptyConfig,
     (saveAccountsConfig configRoot emptyConfig (with_layout configRoot fs)).2).
Proof.
  intros [Hraw Hdir]. unfold loadAccountsConfig.
  rewrite io_bind. change (ensureConfigLayout configRoot fs)
    with (Ok (), with_layout configRoot fs).
  unfold try_catch. rewrite io_bind. unfold fs_readFile.
  rewrite Hraw, bool_decide_eq_false_2 by done. reflexivity.
Qed.

Lemma loadAccountsConfig_directory (fs : FileSystem) :
  files fs !! getAccountsFilePath configRoot = None →
  getAccountsFilePath configRoot ∈ directories (with_layout configRoot fs) →
  loadAccountsConfig configRoot fs
  = (Err (ConfigCorrupt
            (FsError (js "EISDIR")
               (js "EISDIR: illegal operation on a directory, read"))),
     with_layout configRoot fs).
Proof.
  intros Hraw Hdir. unfold loadAccountsConfig.
  rewrite io_bind. change (ensureConfigLayout configRoot fs)
    with (Ok (), with_layout configRoot fs).
  unfold try_catch. rewrite io_bind. unfold fs_readFile.
  rewrite with_layout_files, Hraw, bool_decide_eq_true_2 by done. reflexivity.
Qed.

Lemma saved_files (config : AccountsConfig) (fs : FileSystem) :
  files (saveAccountsConfig configRoot config fs).2
  = <[getAccountsFilePath configRoot :=
        JSON_stringify (config_to_json config) ++ js (String "010" "")]> (files fs).
Proof. reflexivity. Qed.

(** The three things the load can find at the registry path. *)
Lemma loadAccountsConfig_cases (fs : FileSystem) :
  (∃ raw, files fs !! getAccountsFilePath configRoot = Some raw)
  ∨ (files fs !! getAccountsFilePath configRoot = None
     ∧ getAccountsFilePath configRoot ∈ directories (with_layout configRoot fs))
  ∨ absent (with_layout configRoot fs) (getAccountsFilePath configRoot).
Proof.
  destruct (files fs !! getAccountsFilePath configRoot) as [raw|] eqn:Hraw;
    [left; by exists raw|right].
  destruct (decide (getAccountsFilePath configRoot
                    ∈ directories (with_layout configRoot fs))) as [Hdir|Hdir];
    [by left|right]. split; [by rewrite with_layout_files|done].
Qed.

Lemma loadAccountsConfig_files (fs fs' : FileSystem) (config : AccountsConfig) :
  loadAccountsConfig configRoot fs = (Ok config, fs') →
  accounts config ≠ [] →
  ∃ raw, files fs !! getAccountsFilePath configRoot = Some raw
         ∧ decoded configRoot raw = Ok config
         ∧ fs' = with_layout configRoot fs.
Proof.
  intros Hload Hne.
  destruct (loadAccountsConfig_cases fs) as [[raw Hraw]|[[Hraw Hdir]|Habsent]].
  - rewrite (loadAccountsConfig_present _ _ Hraw) in Hload.
    exists raw. split; [done|].
    destruct (decoded configRoot raw); [|done].
    by injection Hload as -> <-.
  - by rewrite (loadAccountsConfig_directory _ Hraw Hdir) in Hload.
  - rewrite (loadAccountsConfig_missing _ Habsent) in Hload.
    injection Hload as <- _. done.
Qed.

(** Whatever the load finds, it leaves every other file alone. *)
Lemma loadAccountsConfig_other_files (fs : FileSystem) (path : jsstring) :
  path ≠ getAccountsFilePath configRoot →
  files (loadAccountsConfig configRoot fs).2 !! path = files fs !! path.
Proof.
  intros Hpath.
  destruct (loadAccountsConfig_cases fs) as [[raw Hraw]|[[Hraw Hdir]|Habsent]].
  - by rewrite (loadAccountsConfig_present _ _ Hraw).
  - by rewrite (loadAccountsConfig_directory _ Hraw Hdir).
  - rewrite (loadAccountsConfig_missing _ Habsent). cbn [snd].
    rewrite saved_files. by rewrite lookup_insert_ne.
Qed.

Lemma existsb_absent (l : list AccountConfig) (d : jsstring) :
  (∀ a, a ∈ l → id a ≠ d) →
  existsb (fun account => bool_decide (id account = d)) l = false.
Proof.
  induction l as [|c l IH]; intros Hl; simpl; [done|].
  rewrite bool_decide_eq_false_2 by (apply Hl; left). simpl.
  apply IH. intros a Ha. apply Hl. by right.
Qed.

(** C6: when nothing is at the registry path, the load returns the empty
    registry (no default account, no account) and leaves it on the disk;
    when the file is there and its text does not parse, the load fails with
    ConfigCorrupt, carrying the parser's error, and writes nothing; so it
    does, carrying the read error, when the path is a directory; and when
    the text parses to a document whose accounts are all accepted and whose
    [defaultAccount] names an id that none of the loaded accounts has, the
    load succeeds with the accounts and no default account. *)
Theorem loadAccountsConfig_spec (fs : FileSystem) :
  (absent (with_layout configRoot fs) (getAccountsFilePath configRoot) →
   ∃ fs',
     loadAccountsConfig configRoot fs
     = (Ok {| defaultAccount := None; accounts := [] |}, fs')
     ∧ files fs'
       = <[getAccountsFilePath configRoot :=
             JSON_stringify (config_to_json {| defaultAccount := None; accounts := [] |})
             ++ js (String "010" "")]> (files fs))
  ∧ (∀ raw detail,
       files fs !! getAccountsFilePath configRoot = Some raw →
       JSON_decode raw = inl detail →
       ∃ fs',
         loadAccountsConfig configRoot fs
         = (Err (ConfigCorrupt (SyntaxError detail)), fs')
         ∧ files fs' = files fs)
  ∧ (files fs !! getAccountsFilePath configRoot = None →
     getAccountsFilePath configRoot ∈ directories (with_layout configRoot fs) →
     ∃ fs' detail,
       loadAccountsConfig configRoot fs
       = (Err (ConfigCorrupt (FsError (js "EISDIR") detail)), fs')
       ∧ files fs' = files fs)
  ∧ (∀ raw fields sanitized d,
       files fs !! getAccountsFilePath configRoot = Some raw →
       JSON_decode raw = inr (JObject fields) →
       traverse (sanitizeAccount configRoot)
         match get_field fields (js "accounts") with
         | Some (JArray items) => items
         | _ => []
         end = Ok sanitized →
       get_field fields (js "defaultAccount") = Some (JString d) →
       (∀ a, a ∈ omap (fun account => account) sanitized → id a ≠ d) →
       ∃ fs',
         loadAccountsConfig configRoot fs
         = (Ok {| defaultAccount := None;
                  accounts := omap (fun account => account) sanitized |}, fs')
         ∧ files fs' = files fs).
Proof.
  split; [|split; [|split]].
  - intros Habsent. eexists.
    split; [rewrite (loadAccountsConfig_missing _ Habsent); reflexivity|reflexivity].
  - intros raw detail Hraw Hdecode. eexists. split.
    + rewrite (loadAccountsConfig_present _ _ Hraw).
      unfold decoded, JSON_parse. rewrite Hdecode. reflexivity.
    + reflexivity.
  - intros Hraw Hdir. eexists. eexists. split.
    + rewrite (loadAccountsConfig_directory _ Hraw Hdir). reflexivity.
    + reflexivity.
  - intros raw fields sanitized d Hraw Hdecode Hsanitized Hd Habsent. eexists. split.
    + rewrite (loadAccountsConfig_present _ _ Hraw).
      unfold decoded, JSON_parse. rewrite Hdecode. simpl.
      rewrite Hsanitized. simpl. rewrite Hd. simpl.
      rewrite (existsb_absent _ _ Habsent). reflexivity.
    + reflexivity.
Qed.
End Loading.

Lemma loadAccountsConfig_spec_witness :
  (∃ fs',
     @loadAccountsConfig sample_runtime (js "/cfg") empty_disk
     = (Ok {| defaultAccount := None; accounts := [] |}, fs')
     ∧ files fs' = {[ js "/cfg/accounts.json" := js "{}" ++ [10] ]})
  ∧ (∃ fs',
       @loadAccountsConfig sample_runtime (js "/cfg") broken_disk
       = (Err (ConfigCorrupt (SyntaxError (js "Unexpected token"))), fs')
       ∧ files fs' = files broken_disk)
  ∧ (∃ fs' detail,
       @loadAccountsConfig sample_runtime (js "/cfg") directory_disk
       = (Err (ConfigCorrupt (FsError (js "EISDIR") detail)), fs')
       ∧ files fs' = files directory_disk)
  ∧ (∃ fs',
       @loadAccountsConfig sample_runtime (js "/cfg") sample_disk
       = (Ok {| defaultAccount := None;
                accounts :=
                  [{| id := js "acct1"; email := js "e@x.com"; displayName := None;
                      enabled := false;
                      credentialPath := Some (js "/cfg/accounts/acct1/credentials.json");
                      tokenPath := Some (js "/cfg/accounts/acct1/token.json") |}] |}, fs')
       ∧ files fs' = files sample_disk).
Proof.
  split; [|split; [|split]].
  - apply (proj1 (@loadAccountsConfig_spec sample_runtime (js "/cfg") empty_disk)).
    split; [reflexivity|]. by_evaluation.
  - apply (proj1 (proj2 (@loadAccountsConfig_spec sample_runtime (js "/cfg") broken_disk))
             (js "{ not json") (js "Unexpected token"));
      vm_compute; reflexivity.
  - apply (proj1 (proj2 (proj2 (@loadAccountsConfig_spec sample_runtime (js "/cfg")
                                  directory_disk)))); [reflexivity|].
    by_evaluation.
  - apply (proj2 (proj2 (proj2 (@loadAccountsConfig_spec sample_runtime (js "/cfg")
                                  sample_disk)))
             (js "registry")
             [(js "defaultAccount", JString (js "gone"));
              (js "accounts",
               JArray [JObject [(js "id", JString (js "acct1"));
                                (js "email", JString (js "e@x.com"));
                                (js "enabled", JBool false)]])]
             [Some {| id := js "acct1"; email := js "e@x.com"; displayName := None;
                      enabled := false;
                      credentialPath := Some (js "/cfg/accounts/acct1/credentials.json");
                      tokenPath := Some (js "/cfg/accounts/acct1/token.json") |}]
             (js "gone")); try (vm_compute; reflexivity).
    apply Forall_forall. by_evaluation.
Defined.

(** ** Finishing the onboarding *)

Section Onboarding.
Context `{Runtime} `{GmailApi}.
Variable configRoot : jsstring.

Lemma readCredentialsFile_present (fs : FileSystem) (path raw : jsstring)
    (credentials : json) :
  files fs !! path = Some raw → JSON_decode raw = inr credentials →
  readCredentialsFile path fs = (Ok credentials, fs).
Proof.
  intros Hraw Hdecode. unfold readCredentialsFile.
  rewrite io_bind. unfold fs_readFile. rewrite Hraw.
  unfold lift, JSON_parse. by rewrite Hdecode.
Qed.

(** C7: when a finish call gets as far as the token exchange (both
    arguments given, the registry loaded, the account found, its
    credentials file read) and the exchange answers a payload with neither
    an access token nor a refresh token, the call fails with
    TokenExchangeIncomplete; no file has been written, so the token file is
    as it was (absent if it was absent); and the registry on the disk is
    the one that was loaded, so a new load yields the same registry, in
    which the account's entry is unchanged, still disabled if it was
    disabled. *)
Theorem finish_without_tokens (rawArgs : list (jsstring * json)) (fs fs1 : FileSystem)
    (config : AccountsConfig) (a : AccountConfig) (raw : jsstring)
    (credentials : json) (tokens : list (jsstring * json)) :
  let accountId := valueToString (get_field rawArgs (js "account_id")) [] in
  let authorizationCode :=
    valueToString (get_field rawArgs (js "authorization_code")) [] in
  let paths := getAccountPaths configRoot a in
  truthy_string accountId = true →
  truthy_string authorizationCode = true →
  loadConfig configRoot fs = (Ok config, fs1) →
  getAccountOrThrow config accountId = Ok a →
  files fs !! credentialsPath paths = Some raw →
  JSON_decode raw = inr credentials →
  exchangeCodeForToken credentials authorizationCode = Ok tokens →
  truthy (get_field tokens (js "access_token")) = false →
  truthy (get_field tokens (js "refresh_token")) = false →
  handleFinishAccountAuth configRoot rawArgs fs = (Err TokenExchangeIncomplete, fs1)
  ∧ files fs1 = files fs
  ∧ files fs1 !! tokenPath_ paths = files fs !! tokenPath_ paths
  ∧ (∃ fs2, loadConfig configRoot fs1 = (Ok config, fs2) ∧ files fs2 = files fs)
  ∧ (enabled a = false →
     ∀ config' fs2 a',
       loadConfig configRoot fs1 = (Ok config', fs2) →
       getAccountOrThrow config' accountId = Ok a' →
       a' = a ∧ enabled a' = false).
Proof.
  intros accountId authorizationCode paths Hid Hcode Hload Hget Hraw Hdecode
    Hexchange Haccess Hrefresh.
  assert (Hne : accounts config ≠ []).
  { apply getAccountOrThrow_Ok in Hget as (_ & _ & Hin).
    intros Hnil. rewrite Hnil in Hin. by apply elem_of_nil in Hin. }
  destruct (loadAccountsConfig_files configRoot _ _ _ Hload Hne)
    as (rawc & Hrawc & Hdecoded & ->).
  assert (Hreload : loadConfig configRoot (with_layout configRoot fs)
                    = (Ok config, with_layout configRoot (with_layout configRoot fs))).
  { unfold loadConfig.
    rewrite (loadAccountsConfig_present configRoot (with_layout configRoot fs) rawc Hrawc).
    by rewrite Hdecoded. }
  split; [|split; [done|split; [done|split]]].
  - unfold handleFinishAccountAuth.
    fold accountId authorizationCode. rewrite Hid, Hcode. simpl.
    apply getAccountOrThrow_Ok in Hget as Hok. destruct Hok as (Hp & _ & _).
    rewrite lift_bind, (validateAccountId_ok _ Hp).
    rewrite io_bind, Hload.
    rewrite lift_bind, Hget.
    rewrite io_bind. fold paths.
    rewrite (readCredentialsFile_present (with_layout configRoot fs) _ raw credentials)
      by done.
    rewrite lift_bind, Hexchange.
    by rewrite Haccess, Hrefresh.
  - by exists (with_layout configRoot (with_layout configRoot fs)).
  - intros Hoff config' fs2 a' Hload' Hget'.
    rewrite Hreload in Hload'. injection Hload' as <- _.
    rewrite Hget in Hget'. injection Hget' as <-. done.
Qed.
End Onboarding.

Lemma finish_without_tokens_witness :
  ∃ fs1,
    @handleFinishAccountAuth sample_runtime sample_api (js "/cfg")
      [(js "account_id", JString (js "acct1"));
       (js "authorization_code", JString (js "4/0Ab"))] sample_disk
    = (Err TokenExchangeIncomplete, fs1)
    ∧ files fs1 = files sample_disk
    ∧ files fs1 !! js "/cfg/accounts/acct1/token.json" = None.
Proof.
  pose proof (@finish_without_tokens sample_runtime sample_api (js "/cfg")
                [(js "account_id", JString (js "acct1"));
                 (js "authorization_code", JString (js "4/0Ab"))]
                sample_disk
                (@with_layout sample_runtime (js "/cfg") sample_disk)
                {| defaultAccount := None;
                   accounts :=
                     [{| id := js "acct1"; email := js "e@x.com"; displayName := None;
                         enabled := false;
                         credentialPath := Some (js "/cfg/accounts/acct1/credentials.json");
                         tokenPath := Some (js "/cfg/accounts/acct1/token.json") |}] |}
                {| id := js "acct1"; email := js "e@x.com"; displayName := None;
                   enabled := false;
                   credentialPath := Some (js "/cfg/accounts/acct1/credentials.json");
                   tokenPath := Some (js "/cfg/accounts/acct1/token.json") |}
                (js "credentials") sample_credentials []) as Hfinish.
  cbv zeta in Hfinish.
  destruct Hfinish as (Hfail & Hfiles & Htoken & _);
    try (vm_compute; reflexivity).
  eexists. split; [exact Hfail|]. split; [exact Hfiles|].
  vm_compute. reflexivity.
Defined.

(** ** The fan-out *)

Lemma diagnostic_truthy (a : AccountConfig) (e : Error) :
  truthy_string (diagnostic a e) = true.
Proof.
  unfold diagnostic. destruct (id a) as [|c s]; reflexivity.
Qed.

Lemma accountResult_settled (operation : AccountConfig → IO (list ParsedEmail))
    (a : AccountConfig) (fs : FileSystem) :
  accountResult operation a fs
  = (Ok (settled a (operation a fs).1), (operation a fs).2).
Proof.
  unfold accountResult, try_catch, mbind, IO_mbind, mret, IO_mret.
  destruct (operation a fs) as [[emails|e] fs']; reflexivity.
Qed.

Lemma Promise_all_outcomes (operation : AccountConfig → IO (list ParsedEmail))
    (targetAccounts : list AccountConfig) (fs : FileSystem) :
  Promise_all (accountResult operation <$> targetAccounts) fs
  = (Ok ((fun outcome => settled outcome.1 outcome.2)
         <$> outcomes operation targetAccounts fs),
     disk_after operation targetAccounts fs).
Proof.
  revert fs. induction targetAccounts as [|a l IH]; intros fs; [done|].
  rewrite fmap_cons. cbn [Promise_all outcomes disk_after].
  rewrite accountResult_settled. cbn [fst snd]. by rewrite IH.
Qed.

Lemma outcomes_accounts (operation : AccountConfig → IO (list ParsedEmail))
    (targetAccounts : list AccountConfig) (fs : FileSystem) :
  (outcomes operation targetAccounts fs).*1 = targetAccounts.
Proof.
  revert fs. induction targetAccounts as [|a l IH]; intros fs; [done|].
  cbn [outcomes]. rewrite fmap_cons. by rewrite IH.
Qed.

Lemma settled_emails (outcomes : list (AccountConfig * Result (list ParsedEmail))) :
  flat_map emails ((fun outcome => settled outcome.1 outcome.2) <$> outcomes)
  = flat_map contributed outcomes.
Proof.
  induction outcomes as [|[a o] outcomes IH]; [done|].
  rewrite fmap_cons. cbn [flat_map]. rewrite IH. by destruct o.
Qed.

Lemma settled_errors (outcomes : list (AccountConfig * Result (list ParsedEmail))) :
  accountErrors ((fun outcome => settled outcome.1 outcome.2) <$> outcomes)
  = omap reported outcomes.
Proof.
  unfold accountErrors.
  induction outcomes as [|[a o] outcomes IH]; [done|].
  rewrite fmap_cons. cbn [omap list_omap]. rewrite IH.
  destruct o as [l|e]; [done|].
  unfold reported. simpl. by rewrite diagnostic_truthy.
Qed.

(** ** The read and the search handler *)

Lemma slice0_limit {A} (l : list A) (requested : option json) (fallback : Q) :
  ∃ n, (1 ≤ n ≤ 100)%nat
       ∧ slice0 l (clamp (valueToNumber requested (Fin fallback)) (Fin 1) (Fin 100))
         = take n l.
Proof.
  destruct (valueToNumber_finite requested fallback) as [v ->].
  destruct (clamp_finite v) as (r & -> & Hlo & Hhi).
  pose proof (Qtruncate_bounds r Hlo Hhi) as Hr.
  exists (Z.to_nat (Qtruncate r)). split; [lia|].
  unfold slice0. destruct (Z.ltb_spec (Qtruncate r) 0); [lia|done].
Qed.

Lemma slice0_whole {A} (l : list A) (k : Z) (fallback : number) :
  (1 ≤ k ≤ 100)%Z →
  slice0 l (clamp (valueToNumber (Some (JNumber (Fin (inject_Z k)))) fallback)
              (Fin 1) (Fin 100))
  = take (Z.to_nat k) l.
Proof.
  intros Hk. cbn [valueToNumber number_isFinite].
  rewrite (clamp_integer k Hk). unfold slice0. rewrite Qtruncate_integer.
  destruct (Z.ltb_spec k 0); [lia|done].
Qed.

Section Handlers.
Context `{Runtime} `{Builtins} `{GmailApi}.
Variable configRoot : jsstring.

Lemma handleReadEmails_run (rawArgs : list (jsstring * json)) (fs fs1 : FileSystem)
    (config : AccountsConfig) (targetAccounts : list AccountConfig) :
  loadConfig configRoot fs = (Ok config, fs1) →
  resolveReadAccounts config (account_argument rawArgs) = Ok targetAccounts →
  let query := trim (valueToString (get_field rawArgs (js "query")) []) in
  let maxResults :=
    clamp (valueToNumber (get_field rawArgs (js "max_results")) (Fin 20))
      (Fin 1) (Fin 100) in
  let body := valueToBoolean (get_field rawArgs (js "include_body")) false in
  let operation := fun account =>
    client ← getClientForAccount configRoot account;
    readEmails client query maxResults body in
  handleReadEmails configRoot rawArgs fs
  = (answered (listing (js "Gmail Emails")
                 (scope (account_argument rawArgs) targetAccounts) query
                 (outcomes operation targetAccounts fs1) maxResults body),
     disk_after operation targetAccounts fs1).
Proof.
  intros Hload Hresolve. cbv zeta. unfold handleReadEmails.
  rewrite io_bind, Hload, lift_bind, Hresolve, io_bind, Promise_all_outcomes.
  rewrite lift_bind. unfold answered, listing, merged.
  rewrite settled_emails, settled_errors.
  by destruct (formatEmailListOutput _).
Qed.

Lemma handleSearchEmails_run (rawArgs : list (jsstring * json)) (fs fs1 : FileSystem)
    (config : AccountsConfig) (targetAccounts : list AccountConfig) :
  let query := valueToString (get_field rawArgs (js "query")) [] in
  is_empty (trim query) = false →
  loadConfig configRoot fs = (Ok config, fs1) →
  resolveReadAccounts config (account_argument rawArgs) = Ok targetAccounts →
  let maxResults :=
    clamp (valueToNumber (get_field rawArgs (js "max_results")) (Fin 25))
      (Fin 1) (Fin 100) in
  let operation := fun account =>
    client ← getClientForAccount configRoot account;
    searchEmails client query maxResults in
  handleSearchEmails configRoot rawArgs fs
  = (answered (listing (js "Gmail Search Results")
                 (scope (account_argument rawArgs) targetAccounts) query
                 (outcomes operation targetAccounts fs1) maxResults false),
     disk_after operation targetAccounts fs1).
Proof.
  intros query Hquery Hload Hresolve. cbv zeta. unfold handleSearchEmails.
  fold query.
  assert (Htruthy : truthy_string query = true).
  { destruct query; [done|reflexivity]. }
  rewrite Htruthy, Hquery. cbn [negb orb].
  rewrite io_bind, Hload, lift_bind, Hresolve, io_bind, Promise_all_outcomes.
  rewrite lift_bind. unfold answered, listing, merged.
  rewrite settled_emails, settled_errors.
  by destruct (formatEmailListOutput _).
Qed.

Lemma formatEmailItem_printable (e : ParsedEmail) (body : bool) :
  printable e → ∃ text, formatEmailItem e body = Ok text.
Proof.
  intros He. unfold formatEmailItem.
  destruct (truthy_string (ParsedEmail.date e)) eqn:Hdate; [by eexists|].
  destruct He as [He|He]; [by destruct (ParsedEmail.date e)|].
  destruct (ParsedEmail.internalDate e) as [[q| | |]|]; try done;
    try (by eexists).
  destruct (truthy (Some (JNumber (Fin q)))); [|by eexists].
  unfold toISOString. rewrite He. by eexists.
Qed.

Lemma email_sections_printable (body : bool) (index : nat) (l : list ParsedEmail) :
  Forall printable l → ∃ rows, email_sections body index l = Ok rows.
Proof.
  intros Hl. revert index. induction Hl as [|e l He Hl IH]; intros index;
    [by eexists|].
  cbn [email_sections].
  destruct (formatEmailItem_printable e body He) as [item ->].
  destruct (IH (S index)) as [rows ->]. by eexists.
Qed.

Lemma answered_printable (input : EmailListOutput) :
  Forall printable (returned input) → ∃ text, answered input = Ok (textResult text).
Proof.
  intros Hl. unfold answered, formatEmailListOutput.
  destruct (0 <? length (returned input))%nat; [|by eexists].
  destruct (email_sections_printable (includeBody input) 0 _ Hl) as [rows ->].
  by eexists.
Qed.

Lemma nothing_contributed (results : list (AccountConfig * Result (list ParsedEmail))) :
  (∀ o, o ∈ results → ∃ e, o.2 = Err e) → flat_map contributed results = [].
Proof.
  induction results as [|o l IH]; intros Hall; [done|].
  cbn [flat_map]. rewrite IH by (intros o' Ho'; apply Hall; by right).
  destruct (Hall o) as [e He]; [left|]. unfold contributed. by rewrite He.
Qed.

Lemma slice0_nil {A} (n : number) : slice0 (@nil A) n = [].
Proof.
  destruct n as [q| | |]; try done. unfold slice0.
  destruct (_ <? _)%Z; by rewrite take_nil.
Qed.

(** C2: in the read handler, once the registry is loaded and the accounts
    are resolved, the outcome of each account's operation (make the client,
    read) is captured on its own, in the order of the accounts: a success
    contributes exactly the emails it returned and no error, a failure no
    email and the one diagnostic "<accountId>: <message>".  The handler
    answers the text of the listing made of these outcomes: the total is
    the number of emails of the successful accounts, the merged sequence is
    a rearrangement of their concatenation in descending order of
    [internalDate], a date that is missing or not finite counting as 0, and
    the error list holds the diagnostics of the failed accounts in the
    order of the accounts.  No failure of an account makes the handler
    fail: it answers whenever the returned emails can be printed, and so
    when every account fails.  For A with items dated 100 and 50, B with
    one item dated 200, C failing with "boom" and limit 10, the merged
    dates are 200, 100, 50, the error list is "C: boom", three items are
    found and three returned. *)
Theorem fan_out_aggregation (rawArgs : list (jsstring * json)) (fs fs1 : FileSystem)
    (config : AccountsConfig) (targetAccounts : list AccountConfig) :
  loadConfig configRoot fs = (Ok config, fs1) →
  resolveReadAccounts config (account_argument rawArgs) = Ok targetAccounts →
  let query := trim (valueToString (get_field rawArgs (js "query")) []) in
  let maxResults :=
    clamp (valueToNumber (get_field rawArgs (js "max_results")) (Fin 20))
      (Fin 1) (Fin 100) in
  let body := valueToBoolean (get_field rawArgs (js "include_body")) false in
  let results :=
    outcomes (fun account =>
                client ← getClientForAccount configRoot account;
                readEmails client query maxResults body) targetAccounts fs1 in
  let input :=
    listing (js "Gmail Emails") (scope (account_argument rawArgs) targetAccounts)
      query results maxResults body in
  (handleReadEmails configRoot rawArgs fs).1 = answered input
  ∧ results.*1 = targetAccounts
  ∧ (∀ a l e,
       contributed (a, Ok l) = l ∧ reported (a, Ok l) = None
       ∧ contributed (a, Err e) = []
       ∧ reported (a, Err e) = Some (id a ++ js ": " ++ message e))
  ∧ (∃ sorted,
       sorted ≡ₚ flat_map contributed results
       ∧ StronglySorted descending sorted
       ∧ returned input = slice0 sorted maxResults)
  ∧ totalFound input = length (flat_map contributed results)
  ∧ errors input = omap reported results
  ∧ (Forall printable (returned input) →
     ∃ text, (handleReadEmails configRoot rawArgs fs).1 = Ok (textResult text))
  ∧ ((∀ o, o ∈ results → ∃ e, o.2 = Err e) →
     ∃ text, (handleReadEmails configRoot rawArgs fs).1 = Ok (textResult text))
  ∧ (∀ e : ParsedEmail,
       emailDateForSort e
       = match ParsedEmail.internalDate e with
         | Some (Fin q) => Fin q
         | _ => Fin 0
         end)
  ∧ (let sample :=
       outcomes (fun account =>
                   client ← @getClientForAccount inbox_runtime (js "/cfg") account;
                   @readEmails inbox_runtime sample_builtins inbox_api client []
                     (Fin 10) false)
         [inbox_account "A"; inbox_account "B"; inbox_account "C"]
         (@with_layout inbox_runtime (js "/cfg") inbox_disk) in
     (@handleReadEmails inbox_runtime sample_builtins inbox_api (js "/cfg")
        [(js "max_results", JNumber (Fin 10))] inbox_disk).1
     = @answered sample_builtins
         (listing (js "Gmail Emails") (js "all enabled accounts (3)") [] sample
            (Fin 10) false)
     ∧ sample.*2
       = [Ok [sample_email "A" "a100" 100; sample_email "A" "a50" 50];
          Ok [sample_email "B" "b200" 200];
          Err (External (js "boom"))]
     ∧ returned (listing (js "Gmail Emails") (js "all enabled accounts (3)") [] sample
                   (Fin 10) false)
       = [sample_email "B" "b200" 200; sample_email "A" "a100" 100;
          sample_email "A" "a50" 50]
     ∧ errors (listing (js "Gmail Emails") (js "all enabled accounts (3)") [] sample
                 (Fin 10) false)
       = [js "C: boom"]
     ∧ totalFound (listing (js "Gmail Emails") (js "all enabled accounts (3)") [] sample
                     (Fin 10) false)
       = 3%nat).
Proof.
  intros Hload Hresolve query maxResults body results input.
  pose proof (handleReadEmails_run rawArgs fs fs1 config targetAccounts Hload Hresolve)
    as Hrun. cbv zeta in Hrun.
  fold query maxResults body in Hrun. fold results in Hrun. fold input in Hrun.
  split; [by rewrite Hrun|]. split; [apply outcomes_accounts|].
  split; [done|]. split.
  { exists (Array_sort by_date (flat_map contributed results)).
    split; [apply Array_sort_perm|]. split; [apply Array_sort_descending|done]. }
  split; [apply Permutation_length, Array_sort_perm|]. split; [done|]. split.
  { intros Hprintable. rewrite Hrun. by apply answered_printable. }
  split.
  { intros Hfail. rewrite Hrun. apply answered_printable.
    unfold input, listing. cbn [returned].
    rewrite (nothing_contributed _ Hfail). cbn [Array_sort].
    rewrite slice0_nil. constructor. }
  split.
  { intros e. unfold emailDateForSort.
    by destruct (ParsedEmail.internalDate e) as [[q| | |]|]. }
  cbv zeta. split; [vm_compute; reflexivity|].
  split; [vm_compute; reflexivity|].
  split; [vm_compute; reflexivity|].
  split; vm_compute; reflexivity.
Qed.

(** C3: in the read handler the cut to the limit is made once, on the merged
    and sorted sequence of the emails of all accounts; the total reported is
    the length of that sequence before the cut, the number of emails all
    accounts returned.  The returned sequence is the first [n] merged items
    for an [n] between 1 and 100, and [n] is the requested limit when that
    is a whole number between 1 and 100.  For A with items dated 90, 80 and
    70, B with one item dated 60 and limit 2, the returned dates are 90 and
    80, and four items are found. *)
Theorem truncation_is_global (rawArgs : list (jsstring * json)) (fs fs1 : FileSystem)
    (config : AccountsConfig) (targetAccounts : list AccountConfig) :
  loadConfig configRoot fs = (Ok config, fs1) →
  resolveReadAccounts config (account_argument rawArgs) = Ok targetAccounts →
  let query := trim (valueToString (get_field rawArgs (js "query")) []) in
  let maxResults :=
    clamp (valueToNumber (get_field rawArgs (js "max_results")) (Fin 20))
      (Fin 1) (Fin 100) in
  let body := valueToBoolean (get_field rawArgs (js "include_body")) false in
  let results :=
    outcomes (fun account =>
                client ← getClientForAccount configRoot account;
                readEmails client query maxResults body) targetAccounts fs1 in
  let input :=
    listing (js "Gmail Emails") (scope (account_argument rawArgs) targetAccounts)
      query results maxResults body in
  (handleReadEmails configRoot rawArgs fs).1 = answered input
  ∧ (∃ sorted n,
       sorted ≡ₚ flat_map contributed results
       ∧ StronglySorted descending sorted
       ∧ (1 ≤ n ≤ 100)%nat
       ∧ returned input = take n sorted
       ∧ ∀ k, (1 ≤ k ≤ 100)%Z →
              get_field rawArgs (js "max_results") = Some (JNumber (Fin (inject_Z k))) →
              returned input = take (Z.to_nat k) sorted)
  ∧ totalFound input = length (flat_map contributed results)
  ∧ (let sample :=
       outcomes (fun account =>
                   client ← @getClientForAccount inbox_runtime (js "/cfg") account;
                   @readEmails inbox_runtime sample_builtins busy_api client []
                     (Fin 2) false)
         [inbox_account "A"; inbox_account "B"]
         (@with_layout inbox_runtime (js "/cfg") pair_disk) in
     (@handleReadEmails inbox_runtime sample_builtins busy_api (js "/cfg")
        [(js "max_results", JNumber (Fin 2))] pair_disk).1
     = @answered sample_builtins
         (listing (js "Gmail Emails") (js "all enabled accounts (2)") [] sample
            (Fin 2) false)
     ∧ sample.*2
       = [Ok [sample_email "A" "a90" 90; sample_email "A" "a80" 80;
              sample_email "A" "a70" 70];
          Ok [sample_email "B" "b60" 60]]
     ∧ returned (listing (js "Gmail Emails") (js "all enabled accounts (2)") [] sample
                   (Fin 2) false)
       = [sample_email "A" "a90" 90; sample_email "A" "a80" 80]
     ∧ totalFound (listing (js "Gmail Emails") (js "all enabled accounts (2)") [] sample
                     (Fin 2) false)
       = 4%nat).
Proof.
  intros Hload Hresolve query maxResults body results input.
  pose proof (handleReadEmails_run rawArgs fs fs1 config targetAccounts Hload Hresolve)
    as Hrun. cbv zeta in Hrun.
  fold query maxResults body in Hrun. fold results in Hrun. fold input in Hrun.
  split; [by rewrite Hrun|]. split.
  { exists (Array_sort by_date (flat_map contributed results)).
    destruct (slice0_limit (Array_sort by_date (flat_map contributed results))
                (get_field rawArgs (js "max_results")) 20) as (n & Hn & Hcut).
    exists n. split; [apply Array_sort_perm|]. split; [apply Array_sort_descending|].
    split; [done|]. split; [exact Hcut|].
    intros k Hk Hrequested. unfold input, listing, maxResults. cbn [returned].
    rewrite Hrequested. by apply slice0_whole. }
  split; [apply Permutation_length, Array_sort_perm|].
  cbv zeta. split; [vm_compute; reflexivity|].
  split; [vm_compute; reflexivity|].
  split; vm_compute; reflexivity.
Qed.

End Handlers.

(** ** Trimming *)

Lemma trimStart_idempotent (s : jsstring) : trimStart (trimStart s) = trimStart s.
Proof.
  induction s as [|c s IH]; [done|]. simpl.
  destruct (is_whitespace c) eqn:Hc; [done|]. by apply trimStart_head.
Qed.

Lemma trimStart_keeps_last (l : jsstring) (c : N) :
  is_whitespace c = false → ∃ m, trimStart (l ++ [c]) = m ++ [c].
Proof.
  intros Hc. induction l as [|x l IH]; simpl.
  - rewrite Hc. by exists [].
  - destruct (is_whitespace x); [done|]. by exists (x :: l).
Qed.

Lemma trimEnd_idempotent (s : jsstring) : trimEnd (trimEnd s) = trimEnd s.
Proof. unfold trimEnd. by rewrite rev_involutive, trimStart_idempotent. Qed.

Lemma trimEnd_keeps_head (c : N) (r : jsstring) :
  is_whitespace c = false → ∃ r', trimEnd (c :: r) = c :: r'.
Proof.
  intros Hc. unfold trimEnd. simpl.
  destruct (trimStart_keeps_last (rev r) c Hc) as [m ->].
  rewrite rev_app_distr. simpl. by eexists.
Qed.

Lemma trimStart_shape (s : jsstring) :
  trimStart s = [] ∨ ∃ c r, trimStart s = c :: r ∧ is_whitespace c = false.
Proof.
  induction s as [|c s IH]; [by left|]. simpl.
  destruct (is_whitespace c) eqn:Hc; [done|]. right. by exists c, s.
Qed.

Lemma trim_idempotent (s : jsstring) : trim (trim s) = trim s.
Proof.
  unfold trim.
  destruct (trimStart_shape s) as [->|(c & r & -> & Hc)]; [done|].
  destruct (trimEnd_keeps_head c r Hc) as [r' Hr'].
  rewrite Hr' at 1. rewrite (trimStart_head _ _ Hc). rewrite <- Hr'.
  apply trimEnd_idempotent.
Qed.

(** ** Message ids *)

Lemma Set_values_elem (x : jsstring) (seen values : list jsstring) :
  x ∈ Set_values seen values ↔ x ∈ values ∧ x ∉ seen.
Proof.
  revert seen. induction values as [|y values IH]; intros seen; simpl.
  - split; [by intros ?%elem_of_nil|by intros [?%elem_of_nil _]].
  - case_bool_decide as Hy.
    + rewrite IH, elem_of_cons. split.
      * intros [Hx Hs]. split; [by right|done].
      * intros [[->|Hx] Hs]; done.
    + rewrite !elem_of_cons, IH, not_elem_of_cons. split.
      * intros [->|[Hx [Hne Hs]]]; [by split; [left|]|]. split; [by right|done].
      * intros [[->|Hx] Hs]; [by left|].
        destruct (decide (x = y)) as [->|Hne]; [by left|]. by right.
Qed.

Lemma Set_values_NoDup (seen values : list jsstring) : NoDup (Set_values seen values).
Proof.
  revert seen. induction values as [|y values IH]; intros seen; simpl.
  - constructor.
  - case_bool_decide as Hy; [done|]. constructor; [|done].
    rewrite Set_values_elem. intros [_ Hy']. apply Hy'. left.
Qed.

Lemma Set_values_length (seen values : list jsstring) :
  (length (Set_values seen values) ≤ length values)%nat.
Proof.
  revert seen. induction values as [|y values IH]; intros seen; simpl; [done|].
  case_bool_decide.
  - etrans; [apply IH|]. apply Nat.le_succ_diag_r.
  - simpl. apply (proj1 (Nat.succ_le_mono _ _)), IH.
Qed.

Lemma Set_values_id (seen values : list jsstring) :
  NoDup values → (∀ x, x ∈ values → x ∉ seen) → Set_values seen values = values.
Proof.
  revert seen. induction values as [|y values IH]; intros seen Hnd Hseen; [done|].
  apply NoDup_cons in Hnd as [Hy Hnd]. simpl.
  rewrite bool_decide_eq_false_2 by (apply Hseen; left).
  rewrite IH; [done|done|].
  intros x Hx. rewrite not_elem_of_cons. split.
  - intros ->. done.
  - apply Hseen. by right.
Qed.

Lemma filter_id {A} (p : A → bool) (l : list A) :
  (∀ x, x ∈ l → p x = true) → List.filter p l = l.
Proof.
  induction l as [|x l IH]; intros Hl; [done|]. simpl.
  rewrite (Hl x) by left. rewrite IH; [done|]. intros y Hy. apply Hl. by right.
Qed.

Lemma sanitizeMessageIds_elem (x : jsstring) (messageIds : list jsstring) :
  x ∈ sanitizeMessageIds messageIds ↔ x ≠ [] ∧ ∃ y, y ∈ messageIds ∧ trim y = x.
Proof.
  unfold sanitizeMessageIds. rewrite Set_values_elem.
  rewrite list_elem_of_In, filter_In, <- list_elem_of_In, list_elem_of_fmap.
  split.
  - intros [[(y & -> & Hy) Hne] _]. split; [by destruct (trim y)|]. by exists y.
  - intros [Hne (y & Hy & <-)]. split; [|by intros ?%elem_of_nil].
    split; [by exists y|]. by destruct (trim y).
Qed.

Lemma sanitizeMessageIds_length (messageIds : list jsstring) :
  (length (sanitizeMessageIds messageIds) ≤ length messageIds)%nat.
Proof.
  unfold sanitizeMessageIds.
  etrans; [apply Set_values_length|]. etrans; [apply filter_length_le|].
  by rewrite length_fmap.
Qed.

(** Message ids are trimmed, blank ones dropped, repeats removed: the
    result has no repeat, holds exactly the non-empty trimmed forms of the
    given ids, is never longer than the input, and sanitizing it again
    changes nothing. *)
Theorem sanitizeMessageIds_spec (messageIds : list jsstring) :
  NoDup (sanitizeMessageIds messageIds)
  ∧ (∀ x, x ∈ sanitizeMessageIds messageIds
          ↔ x ≠ [] ∧ ∃ y, y ∈ messageIds ∧ trim y = x)
  ∧ (length (sanitizeMessageIds messageIds) ≤ length messageIds)%nat
  ∧ sanitizeMessageIds (sanitizeMessageIds messageIds) = sanitizeMessageIds messageIds.
Proof.
  split; [apply Set_values_NoDup|]. split; [intros x; apply sanitizeMessageIds_elem|].
  split; [apply sanitizeMessageIds_length|].
  set (ids := sanitizeMessageIds messageIds).
  assert (Hids : ∀ x, x ∈ ids → trim x = x ∧ x ≠ []).
  { intros x Hx. apply sanitizeMessageIds_elem in Hx as (Hne & y & _ & <-).
    split; [apply trim_idempotent|done]. }
  unfold sanitizeMessageIds at 1.
  assert (Htrim : trim <$> ids = ids).
  { rewrite <- (list_fmap_id ids) at 2. apply list_fmap_ext.
    intros i x Hx. apply Hids. by eapply list_elem_of_lookup_2. }
  rewrite Htrim. rewrite filter_id.
  - apply Set_values_id; [apply Set_values_NoDup|]. by intros x _ ?%elem_of_nil.
  - intros x Hx. destruct (Hids x Hx) as [_ Hne]. by destruct x.
Qed.

Lemma sanitizeMessageIds_nil (messageIds : list jsstring) :
  sanitizeMessageIds messageIds = []
  ↔ ∀ y, y ∈ messageIds → is_empty (trim y) = true.
Proof.
  split.
  - intros Hnil y Hy. destruct (trim y) as [|c r] eqn:Htrim; [done|].
    assert (Hin : c :: r ∈ sanitizeMessageIds messageIds).
    { apply sanitizeMessageIds_elem. split; [done|]. by exists y. }
    rewrite Hnil in Hin. by apply elem_of_nil in Hin.
  - intros Hall. destruct (sanitizeMessageIds messageIds) as [|x l] eqn:Hs; [done|].
    assert (Hin : x ∈ sanitizeMessageIds messageIds) by (rewrite Hs; left).
    apply sanitizeMessageIds_elem in Hin as (Hne & y & Hy & <-).
    specialize (Hall y Hy). by destruct (trim y).
Qed.

Lemma labels_nil (labelIds : list jsstring) :
  (∀ y, y ∈ labelIds → is_empty (trim y) = true) →
  List.filter truthy_string (trim <$> labelIds) = [].
Proof.
  induction labelIds as [|y l IH]; intros Hall; [done|].
  rewrite fmap_cons. simpl. unfold truthy_string at 1.
  rewrite (Hall y) by left. simpl. apply IH. intros z Hz. apply Hall. by right.
Qed.

(** ** The listener for refreshed tokens *)

Section Listener.
Context `{Runtime}.

Lemma on_tokens_run (paths : AccountPaths) (cached : json)
    (incoming : list (jsstring * json)) (fs : FileSystem) :
  on_tokens paths cached incoming fs
  = (Ok (JObject (spread (spread [] cached) (JObject incoming))),
     {| files := <[tokenPath_ paths :=
                     JSON_stringify (JObject (spread (spread [] cached) (JObject incoming)))
                     ++ js (String "010" "")]> (files fs);
        directories := directories fs |}).
Proof. reflexivity. Qed.

Lemma emitted_ok (paths : AccountPaths) (cached : json)
    (events : list (list (jsstring * json))) (fs : FileSystem) :
  ∃ cached', (emitted paths cached events fs).1 = Ok cached'.
Proof.
  revert cached fs. induction events as [|incoming rest IH]; intros cached fs;
    [by eexists|].
  cbn [emitted]. rewrite io_bind, on_tokens_run. apply IH.
Qed.

Lemma emitted_other_files (paths : AccountPaths) (cached : json)
    (events : list (list (jsstring * json))) (fs : FileSystem) (path : jsstring) :
  path ≠ tokenPath_ paths →
  files (emitted paths cached events fs).2 !! path = files fs !! path.
Proof.
  intros Hpath. revert cached fs.
  induction events as [|incoming rest IH]; intros cached fs; [done|].
  cbn [emitted]. rewrite io_bind, on_tokens_run, IH. cbn [files].
  by rewrite lookup_insert_ne.
Qed.

Lemma emitted_directories (paths : AccountPaths) (cached : json)
    (events : list (list (jsstring * json))) (fs : FileSystem) :
  directories (emitted paths cached events fs).2 = directories fs.
Proof.
  revert cached fs. induction events as [|incoming rest IH]; intros cached fs; [done|].
  cbn [emitted]. by rewrite io_bind, on_tokens_run, IH.
Qed.

Lemma emitted_bind {A} (paths : AccountPaths) (cached : json)
    (events : list (list (jsstring * json))) (k : json → IO A) (fs : FileSystem) :
  ∃ cached',
    (emitted paths cached events ≫= k) fs
    = k cached' (emitted paths cached events fs).2.
Proof.
  destruct (emitted_ok paths cached events fs) as [cached' Hok].
  exists cached'. rewrite io_bind.
  destruct (emitted paths cached events fs) as [[c|e] fs']; simpl in *; congruence.
Qed.

Lemma awaited_run {A} (client : GmailAccountClient) (call : Response A) (fs : FileSystem) :
  awaited client call fs
  = (answer call,
     (emitted (client_paths client) (cachedTokens client) (refreshed call) fs).2).
Proof.
  unfold awaited.
  destruct (emitted_bind (client_paths client) (cachedTokens client) (refreshed call)
              (fun _ => lift (answer call)) fs) as [cached' ->].
  reflexivity.
Qed.

Lemma awaited_quiet {A} (client : GmailAccountClient) (call : Response A) (fs : FileSystem) :
  refreshed call = [] → awaited client call fs = (answer call, fs).
Proof. intros Hquiet. rewrite awaited_run, Hquiet. reflexivity. Qed.
End Listener.

(** ** The calls that change messages *)

Section MessageUpdates.
Context `{Runtime} `{GmailWriteApi}.

Lemma ids_count (messageIds : list jsstring) :
  (length (sanitizeMessageIds messageIds) =? 0)%nat = false →
  (1 ≤ length (sanitizeMessageIds messageIds))%nat
  ∧ (length (sanitizeMessageIds messageIds) ≤ length messageIds)%nat.
Proof.
  intros Hne. split; [|apply sanitizeMessageIds_length].
  destruct (sanitizeMessageIds messageIds); [done|]. simpl.
  apply (proj1 (Nat.succ_le_mono _ _)), Nat.le_0_l.
Qed.

Lemma batch_count (client : GmailAccountClient) (call : Response unit)
    (messageIds : list jsstring) (n : nat) (fs : FileSystem) :
  ((if (length (sanitizeMessageIds messageIds) =? 0)%nat
    then lift (Err no_message_ids)
    else _ ← awaited client call; mret (length (sanitizeMessageIds messageIds))) fs).1
  = Ok n →
  n = length (sanitizeMessageIds messageIds)
  ∧ (1 ≤ n)%nat ∧ (n ≤ length messageIds)%nat.
Proof.
  destruct (length (sanitizeMessageIds messageIds) =? 0)%nat eqn:Hne; [done|].
  rewrite io_bind, awaited_run.
  destruct (answer call) as [[]|e]; [|done].
  intros [= <-]. split; [done|]. by apply ids_count.
Qed.

Lemma update_counts (client : GmailAccountClient) (messageIds labelIds : list jsstring)
    (n : nat) (fs : FileSystem) :
  (markAsRead client messageIds fs).1 = Ok n
  ∨ (archiveEmails client messageIds fs).1 = Ok n
  ∨ (trashEmails client messageIds fs).1 = Ok n
  ∨ (addLabels client messageIds labelIds fs).1 = Ok n
  ∨ (removeLabels client messageIds labelIds fs).1 = Ok n →
  n = length (sanitizeMessageIds messageIds)
  ∧ (1 ≤ n)%nat ∧ (n ≤ length messageIds)%nat.
Proof.
  intros [Hn|[Hn|[Hn|[Hn|Hn]]]].
  - by eapply batch_count.
  - by eapply batch_count.
  - unfold trashEmails in Hn.
    destruct (length (sanitizeMessageIds messageIds) =? 0)%nat eqn:Hne; [done|].
    match type of Hn with
    | context [emitted ?p ?c ?ev ≫= ?k] =>
        destruct (emitted_bind p c ev k fs) as [cached' Hbind]
    end.
    rewrite Hbind, lift_bind in Hn.
    destruct (all_answers _) as [units|e]; [|done].
    injection Hn as <-. split; [done|]. by apply ids_count.
  - unfold addLabels in Hn.
    destruct (length (List.filter _ _) =? 0)%nat.
    + by destruct (length (sanitizeMessageIds messageIds) =? 0)%nat.
    + by eapply batch_count.
  - unfold removeLabels in Hn.
    destruct (length (List.filter _ _) =? 0)%nat.
    + by destruct (length (sanitizeMessageIds messageIds) =? 0)%nat.
    + by eapply batch_count.
Qed.

(** The calls that change messages, whatever the provider answers: when every
    given id is blank (or none is given) each of them fails with the
    message-ids error before anything is asked of the provider, the disk
    being as it was; when one succeeds, the count it returns is the number
    of distinct non-blank trimmed ids, at least one and at most the number of
    ids given; and adding or removing labels with at least one usable id but
    only blank label ids fails with the label-ids error, the disk being as
    it was. *)
Theorem message_updates_spec (client : GmailAccountClient)
    (messageIds labelIds : list jsstring) (fs : FileSystem) :
  ((∀ y, y ∈ messageIds → is_empty (trim y) = true) →
   markAsRead client messageIds fs = (Err no_message_ids, fs)
   ∧ archiveEmails client messageIds fs = (Err no_message_ids, fs)
   ∧ trashEmails client messageIds fs = (Err no_message_ids, fs)
   ∧ addLabels client messageIds labelIds fs = (Err no_message_ids, fs)
   ∧ removeLabels client messageIds labelIds fs = (Err no_message_ids, fs))
  ∧ (∀ n,
       (markAsRead client messageIds fs).1 = Ok n
       ∨ (archiveEmails client messageIds fs).1 = Ok n
       ∨ (trashEmails client messageIds fs).1 = Ok n
       ∨ (addLabels client messageIds labelIds fs).1 = Ok n
       ∨ (removeLabels client messageIds labelIds fs).1 = Ok n →
       n = length (sanitizeMessageIds messageIds)
       ∧ (1 ≤ n)%nat ∧ (n ≤ length messageIds)%nat)
  ∧ (∀ y, y ∈ messageIds → is_empty (trim y) = false →
     (∀ l, l ∈ labelIds → is_empty (trim l) = true) →
     addLabels client messageIds labelIds fs = (Err no_label_ids, fs)
     ∧ removeLabels client messageIds labelIds fs = (Err no_label_ids, fs)).
Proof.
  split; [|split].
  - intros Hblank. apply sanitizeMessageIds_nil in Hblank.
    unfold markAsRead, archiveEmails, trashEmails, addLabels, removeLabels.
    rewrite Hblank. done.
  - intros n Hn. by eapply update_counts.
  - intros y Hy Hnb Hlabels.
    assert (Hids : (length (sanitizeMessageIds messageIds) =? 0)%nat = false).
    { apply Nat.eqb_neq. intros Hlen. apply length_zero_iff_nil in Hlen.
      rewrite sanitizeMessageIds_nil in Hlen. specialize (Hlen y Hy). congruence. }
    unfold addLabels, removeLabels. rewrite Hids, (labels_nil _ Hlabels). done.
Qed.
End MessageUpdates.

(** ** OAuth client credentials *)

(** A client is made only from an object whose [installed] section, or else
    (when that is missing or null) whose [web] section, is an object with a
    truthy [client_id] and [client_secret]; an [installed] section that is an
    object hides the [web] section even when it is the incomplete one; and
    the redirect address is the first of the [redirect_uris] of the section
    the client is made of, or "http://localhost" when there is none. *)
Theorem createOAuthClientFromCredentials_spec (credentials : json) :
  (∀ c, createOAuthClientFromCredentials credentials = Ok c →
        ∃ fields src,
          credentials = JObject fields
          ∧ nullish (get_field fields (js "installed")) (get_field fields (js "web"))
            = Some (JObject src)
          ∧ get_field src (js "client_id") = Some (client_id c)
          ∧ get_field src (js "client_secret") = Some (client_secret c)
          ∧ truthy (Some (client_id c)) = true
          ∧ truthy (Some (client_secret c)) = true
          ∧ redirectUri c
            = match first_element (get_field src (js "redirect_uris")) with
              | None | Some JNull => JString (js "http://localhost")
              | Some uri => uri
              end)
  ∧ (∀ fields src,
       credentials = JObject fields →
       get_field fields (js "installed") = Some (JObject src) →
       createOAuthClientFromCredentials credentials
       = createOAuthClientFromCredentials (JObject [(js "installed", JObject src)]))
  ∧ (∀ c fields src,
       createOAuthClientFromCredentials credentials = Ok c →
       credentials = JObject fields →
       nullish (get_field fields (js "installed")) (get_field fields (js "web"))
       = Some (JObject src) →
       get_field src (js "redirect_uris") = None
       ∨ get_field src (js "redirect_uris") = Some (JArray []) →
       redirectUri c = JString (js "http://localhost")).
Proof.
  assert (Hmade : ∀ c, createOAuthClientFromCredentials credentials = Ok c →
    ∃ fields src,
      credentials = JObject fields
      ∧ nullish (get_field fields (js "installed")) (get_field fields (js "web"))
        = Some (JObject src)
      ∧ get_field src (js "client_id") = Some (client_id c)
      ∧ get_field src (js "client_secret") = Some (client_secret c)
      ∧ truthy (Some (client_id c)) = true
      ∧ truthy (Some (client_secret c)) = true
      ∧ redirectUri c
        = match first_element (get_field src (js "redirect_uris")) with
          | None | Some JNull => JString (js "http://localhost")
          | Some uri => uri
          end).
  { intros c Hc. unfold createOAuthClientFromCredentials in Hc.
    destruct credentials as [| | | |items|fields]; try done.
    exists fields.
    destruct (nullish (get_field fields (js "installed")) (get_field fields (js "web")))
      as [[| | | | |src]|] eqn:Hsource; try done.
    exists src.
    destruct (get_field src (js "client_id")) as [clientId|] eqn:Hid; [|done].
    destruct (get_field src (js "client_secret")) as [clientSecret|] eqn:Hsecret;
      [|done].
    destruct (truthy (Some clientId)) eqn:Htid; [|done].
    destruct (truthy (Some clientSecret)) eqn:Htsecret; [|done].
    simpl in Hc.
    destruct (first_element (get_field src (js "redirect_uris"))) as [[| | | | |]|];
      simpl in Hc; injection Hc as <-; done. }
  split; [exact Hmade|]. split.
  - intros fields src -> Hinstalled. unfold createOAuthClientFromCredentials.
    rewrite Hinstalled. reflexivity.
  - intros c fields src Hc -> Hsource Hredirect.
    destruct (Hmade c Hc) as (fields' & src' & [= <-] & Hsource' & _ & _ & _ & _ & Huri).
    rewrite Hsource in Hsource'. injection Hsource' as <-.
    rewrite Huri. by destruct Hredirect as [-> | ->].
Qed.

(** ** The registry on the disk *)

(** Decides the comparisons of property names. *)
Ltac decide_keys :=
  repeat (rewrite bool_decide_eq_true_2 by reflexivity
          || rewrite bool_decide_eq_false_2 by (vm_compute; discriminate)).

Section Registry.
Context `{Runtime}.
Variable configRoot : jsstring.





(** The load writes at most the registry file; when that file exists it
    writes nothing, and loading again gives the same registry or the same
    error. *)
Theorem loadAccountsConfig_repeatable (fs : FileSystem) :
  (∀ path, path ≠ getAccountsFilePath configRoot →
     files (loadAccountsConfig configRoot fs).2 !! path = files fs !! path)
  ∧ (is_Some (files fs !! getAccountsFilePath configRoot) →
     files (loadAccountsConfig configRoot fs).2 = files fs
     ∧ (loadAccountsConfig configRoot (loadAccountsConfig configRoot fs).2).1
       = (loadAccountsConfig configRoot fs).1).
Proof.
  split.
  - intros path Hpath. by apply loadAccountsConfig_other_files.
  - intros [raw Hraw].
    rewrite (loadAccountsConfig_present _ _ _ Hraw). simpl. split; [done|].
    by rewrite (loadAccountsConfig_present _ (with_layout configRoot fs) raw Hraw).
Qed.

Lemma sanitizeAccount_stored (a : AccountConfig) :
  storable a → sanitizeAccount configRoot (account_to_json a) = Ok (Some a).
Proof.
  intros (Hp & Hm & (cp & Hcp & Hrcp) & (tp & Htp & Hrtp)).
  destruct a as [i m dn en c t]. simpl in *. subst c t.
  unfold sanitizeAccount, account_to_json. simpl optional_field.
  destruct dn as [name|]; simpl optional_field; cbn [app get_field]; decide_keys;
    cbn [as_string]; rewrite (pattern_not_blank _ Hp), Hm;
    rewrite (validateAccountId_ok _ Hp); simpl; by rewrite Hrcp, Hrtp.
Qed.

Lemma traverse_sanitize_stored (l : list AccountConfig) :
  Forall storable l →
  traverse (sanitizeAccount configRoot) (account_to_json <$> l) = Ok (Some <$> l).
Proof.
  induction 1 as [|a l Ha Hl IH]; [done|].
  rewrite !fmap_cons. cbn [traverse].
  rewrite (sanitizeAccount_stored a Ha). simpl. by rewrite IH.
Qed.

Lemma omap_Some {A} (l : list A) : omap (fun x => x) (Some <$> l) = l.
Proof.
  induction l as [|x l IH]; [done|].
  rewrite fmap_cons. cbn [omap list_omap]. by rewrite IH.
Qed.

Lemma existsb_present (l : list AccountConfig) (a : AccountConfig) :
  a ∈ l → existsb (fun account => bool_decide (id account = id a)) l = true.
Proof.
  intros Ha. apply existsb_exists. exists a.
  split; [by apply list_elem_of_In|]. by apply bool_decide_eq_true.
Qed.

(** A registry written by the save is read back as it was: when its accounts
    are ones the load accepts with paths that resolving leaves alone, its
    default account is unset or one of its accounts, and the JSON codec
    gives back the document it was given, the load after the save returns
    the same registry.  The save itself writes the registry file only. *)
Theorem save_then_load (config : AccountsConfig) (fs : FileSystem) :
  let saved := (saveAccountsConfig configRoot config fs).2 in
  (∀ path, path ≠ getAccountsFilePath configRoot →
     files saved !! path = files fs !! path)
  ∧ (Forall storable (accounts config) →
     default_in_registry config →
     JSON_decode (JSON_stringify (config_to_json config) ++ js (String "010" ""))
     = inr (config_to_json config) →
     (loadAccountsConfig configRoot saved).1 = Ok config).
Proof.
  cbv zeta. split.
  - intros path Hpath. simpl. by rewrite lookup_insert_ne.
  - intros Hstorable Hdefault Hcodec.
    rewrite (loadAccountsConfig_present _ _
               (JSON_stringify (config_to_json config) ++ js (String "010" "")))
      by (simpl; apply lookup_insert_eq).
    simpl. unfold decoded, JSON_parse. rewrite Hcodec. simpl.
    rewrite (traverse_sanitize_stored _ Hstorable). simpl.
    rewrite omap_Some.
    destruct config as [[d|] l]; simpl in *; [|done].
    destruct Hdefault as (a & Ha & <-).
    by rewrite (existsb_present l a Ha).
Qed.
End Registry.

(** ** Upsert and lookup *)

Lemma find_skip {A} (p : A → bool) (before after : list A) (x : A) :
  p x = false → find p (before ++ x :: after) = find p (before ++ after).
Proof.
  intros Hx. induction before as [|c before IH]; simpl.
  - by rewrite Hx.
  - by rewrite IH.
Qed.

Lemma upsertAccount_cases (config : AccountsConfig) (a : AccountConfig) :
  (∃ before b after,
     accounts config = before ++ b :: after ∧ id b = id a
     ∧ (∀ c, c ∈ before → id c ≠ id a)
     ∧ accounts (upsertAccount config a) = before ++ a :: after)
  ∨ ((∀ c, c ∈ accounts config → id c ≠ id a)
     ∧ accounts (upsertAccount config a) = accounts config ++ [a]).
Proof.
  pose proof (findIndex_split (fun account => bool_decide (id account = id a))
                (accounts config)) as Hsplit.
  destruct (findIndex _ (accounts config)) as [i|] eqn:Hfind.
  - left. destruct Hsplit as (before & b & after & Hl & _ & Hb & Hbefore).
    apply bool_decide_eq_true in Hb.
    assert (Hbefore' : ∀ c, c ∈ before → id c ≠ id a).
    { intros c Hc. specialize (Hbefore c Hc).
      by apply bool_decide_eq_false in Hbefore. }
    exists before, b, after. repeat split; try done.
    by rewrite (upsertAccount_replace _ _ _ _ _ Hl Hb Hbefore').
  - right.
    assert (Hnone : ∀ c, c ∈ accounts config → id c ≠ id a).
    { intros c Hc. specialize (Hsplit c Hc).
      by apply bool_decide_eq_false in Hsplit. }
    split; [done|]. by rewrite (upsertAccount_append _ _ Hnone).
Qed.

Lemma upsertAccount_lookup_new (config : AccountsConfig) (a : AccountConfig) :
  ACCOUNT_ID_PATTERN_test (id a) = true →
  getAccountOrThrow (upsertAccount config a) (id a) = Ok a.
Proof.
  intros Hp. apply getAccountOrThrow_entry; [done|].
  destruct (upsertAccount_cases config a)
    as [(before & b & after & Hl & Hb & Hbefore & Hnew)|[Hnone Hnew]].
  - by exists before, after.
  - exists (accounts config), []. done.
Qed.

Lemma upsertAccount_lookup_other (config : AccountsConfig) (a : AccountConfig)
    (accountId : jsstring) :
  accountId ≠ id a →
  getAccountOrThrow (upsertAccount config a) accountId
  = getAccountOrThrow config accountId.
Proof.
  intros Hne. unfold getAccountOrThrow.
  destruct (validateAccountId accountId); simpl; [|done].
  assert (Ha : bool_decide (id a = accountId) = false)
    by (by apply bool_decide_eq_false_2).
  destruct (upsertAccount_cases config a)
    as [(before & b & after & Hl & Hb & Hbefore & Hnew)|[Hnone Hnew]];
    rewrite Hnew.
  - rewrite Hl. rewrite !find_skip; [done| |done].
    rewrite Hb. done.
  - rewrite find_skip by done. by rewrite app_nil_r.
Qed.

Lemma upsertAccount_twice (config : AccountsConfig) (a1 a2 : AccountConfig) :
  id a1 = id a2 →
  upsertAccount (upsertAccount config a1) a2 = upsertAccount config a2.
Proof.
  intros Hid.
  pose proof (findIndex_split (fun account => bool_decide (id account = id a1))
                (accounts config)) as Hsplit.
  destruct (findIndex _ (accounts config)) as [i|] eqn:Hfind.
  - destruct Hsplit as (before & b & after & Hl & _ & Hb & Hbefore).
    apply bool_decide_eq_true in Hb.
    assert (Hbefore1 : ∀ c, c ∈ before → id c ≠ id a1).
    { intros c Hc. specialize (Hbefore c Hc).
      by apply bool_decide_eq_false in Hbefore. }
    assert (Hbefore2 : ∀ c, c ∈ before → id c ≠ id a2) by (by rewrite <- Hid).
    rewrite (upsertAccount_replace config a1 _ _ _ Hl Hb Hbefore1).
    rewrite (upsertAccount_replace
               {| defaultAccount := defaultAccount config;
                  accounts := before ++ a1 :: after |}
               a2 before a1 after eq_refl Hid Hbefore2).
    rewrite (upsertAccount_replace config a2 before b after Hl); [done| |done].
    by rewrite Hb.
  - assert (Hnone1 : ∀ c, c ∈ accounts config → id c ≠ id a1).
    { intros c Hc. specialize (Hsplit c Hc).
      by apply bool_decide_eq_false in Hsplit. }
    assert (Hnone2 : ∀ c, c ∈ accounts config → id c ≠ id a2) by (by rewrite <- Hid).
    rewrite (upsertAccount_append _ _ Hnone1).
    rewrite (upsertAccount_replace
               {| defaultAccount := defaultAccount config;
                  accounts := accounts config ++ [a1] |}
               a2 (accounts config) a1 [] eq_refl Hid Hnone2).
    by rewrite (upsertAccount_append _ _ Hnone2).
Qed.

(** After an upsert the registry's entry for the id of the new account is
    the new account, and the entry of every other id is what it was: a
    lookup of the new id returns the new account (when the id matches the
    pattern), and a lookup of any other id returns what it returned
    before. *)
Theorem upsertAccount_lookup (config : AccountsConfig) (a : AccountConfig) :
  (ACCOUNT_ID_PATTERN_test (id a) = true →
   getAccountOrThrow (upsertAccount config a) (id a) = Ok a)
  ∧ (∀ accountId, accountId ≠ id a →
       getAccountOrThrow (upsertAccount config a) accountId
       = getAccountOrThrow config accountId).
Proof.
  split.
  - apply upsertAccount_lookup_new.
  - intros accountId Hne. by apply upsertAccount_lookup_other.
Qed.

Lemma upsertAccount_lookup_witness :
  getAccountOrThrow (upsertAccount sample_registry (sample_account "old" true)) (js "old")
  = Ok (sample_account "old" true)
  ∧ getAccountOrThrow (upsertAccount sample_registry (sample_account "old" true)) (js "home")
    = getAccountOrThrow sample_registry (js "home").
Proof.
  destruct (upsertAccount_lookup sample_registry (sample_account "old" true))
    as [Hnew Hother].
  split; [exact (Hnew eq_refl)|]. apply Hother. vm_compute. discriminate.
Defined.

(** An upsert keeps the invariants of the registry: when the ids match the
    pattern and are unique and the id of the new account matches the
    pattern, the same holds afterwards; the registry never shrinks and grows
    by at most one account. *)
Theorem upsertAccount_invariant (config : AccountsConfig) (a : AccountConfig) :
  (registry_invariant config → ACCOUNT_ID_PATTERN_test (id a) = true →
   registry_invariant (upsertAccount config a))
  ∧ (length (accounts config) ≤ length (accounts (upsertAccount config a)))%nat
  ∧ (length (accounts (upsertAccount config a)) ≤ S (length (accounts config)))%nat.
Proof.
  destruct (upsertAccount_cases config a)
    as [(before & b & after & Hl & Hb & Hbefore & Hnew)|[Hnone Hnew]].
  - split; [|rewrite Hnew, Hl, !length_app; simpl; split; lia].
    intros [Hall Hnd] Hp. unfold registry_invariant. rewrite Hnew.
    rewrite Hl in Hall, Hnd. split.
    + apply Forall_app in Hall as [Hbefore' Hafter].
      apply Forall_cons in Hafter as [_ Hafter].
      apply Forall_app. split; [done|]. by constructor.
    + rewrite fmap_app, fmap_cons in *. by rewrite <- Hb.
  - split; [|rewrite Hnew, length_app; simpl; split; lia].
    intros [Hall Hnd] Hp. unfold registry_invariant. rewrite Hnew. split.
    + apply Forall_app. split; [done|]. by repeat constructor.
    + rewrite fmap_app. apply NoDup_app. split; [done|]. split.
      * intros x Hx Hx'. apply list_elem_of_singleton in Hx' as ->.
        apply list_elem_of_fmap in Hx as (c & Hid & Hc). by apply (Hnone c Hc).
      * repeat constructor. by intros ?%elem_of_nil.
Qed.

Lemma upsertAccount_invariant_witness :
  registry_invariant (upsertAccount sample_registry (sample_account "new" false)).
Proof.
  apply (proj1 (upsertAccount_invariant sample_registry (sample_account "new" false)));
    [|reflexivity].
  split; by_evaluation.
Defined.

(** ** The two resolvers *)

(** With an account id that is not blank the two resolvers agree: the read
    resolver returns the one account the write resolver returns, and fails
    with the error the write resolver fails with.  With a missing or blank id
    they part: the write resolver fails, the read resolver aggregates. *)
Theorem resolvers_agree (config : AccountsConfig) :
  (∀ accountId,
     is_empty (trim accountId) = false →
     resolveReadAccounts config (Some accountId)
     = (resolveWriteAccount config (Some accountId) ≫= λ a, Ok [a]))
  ∧ (∀ accountId,
       blank accountId →
       resolveWriteAccount config accountId = Err AccountRequired
       ∧ resolveReadAccounts config accountId ≠ Err AccountRequired).
Proof.
  split.
  - intros accountId Hnb.
    rewrite resolveReadAccounts_explicit, resolveWriteAccount_explicit by done.
    destruct (getAccountOrThrow config accountId) as [a|e]; simpl; [|done].
    by destruct (enabled a).
  - intros accountId Hb. split.
    + unfold resolveWriteAccount. by rewrite (proj1 (explicit_account_blank _) Hb).
    + rewrite (resolveReadAccounts_aggregate _ _ Hb).
      by destruct (_ =? _)%nat.
Qed.

Lemma resolvers_agree_witness :
  resolveReadAccounts sample_registry (Some (js "home"))
  = (resolveWriteAccount sample_registry (Some (js "home")) ≫= λ a, Ok [a])
  ∧ resolveWriteAccount sample_registry (Some (js " ")) = Err AccountRequired.
Proof.
  destruct (resolvers_agree sample_registry) as [Hsame Hblank].
  split; [apply Hsame; reflexivity|]. apply (Hblank (Some (js " "))). reflexivity.
Defined.

(** ** Clients and health *)

Lemma fs_readFile_cases (path : jsstring) (fs : FileSystem) :
  (∃ raw, files fs !! path = Some raw ∧ fs_readFile path fs = (Ok raw, fs))
  ∨ (files fs !! path = None ∧ path ∈ directories fs
     ∧ ∃ detail, fs_readFile path fs = (Err (FsError (js "EISDIR") detail), fs))
  ∨ (absent fs path
     ∧ ∃ detail, fs_readFile path fs = (Err (FsError (js "ENOENT") detail), fs)).
Proof.
  unfold fs_readFile, absent.
  destruct (files fs !! path) as [raw|]; [left; by exists raw|right].
  case_bool_decide as Hdir; [left|right]; (split; [done|]); eauto.
Qed.

Section Clients.
Context `{Runtime}.
Variable configRoot : jsstring.

Lemma readCredentialsFile_disk (path : jsstring) (fs : FileSystem) :
  (readCredentialsFile path fs).2 = fs.
Proof.
  unfold readCredentialsFile. rewrite io_bind.
  destruct (fs_readFile_cases path fs)
    as [(raw & _ & ->)|[(_ & _ & detail & ->)|(_ & detail & ->)]]; reflexivity.
Qed.

Lemma GmailAccountClient_create_steps (a : AccountConfig) (fs : FileSystem) :
  let paths := getAccountPaths configRoot a in
  GmailAccountClient_create configRoot a fs
  = (match fs_readFile (credentialsPath paths) fs with
     | (Err e, _) => Err e
     | (Ok raw, _) =>
         credentials ← JSON_parse raw;
         oauth ← createOAuthClientFromCredentials credentials;
         match fs_readFile (tokenPath_ paths) fs with
         | (Err e, _) => Err (TokenFileInvalid (id a) (tokenPath_ paths) e)
         | (Ok rawToken, _) =>
             match JSON_parse rawToken with
             | Err e => Err (TokenFileInvalid (id a) (tokenPath_ paths) e)
             | Ok tokens =>
                 Ok {| client_account := a; client_paths := paths;
                       client_auth := oauth; cachedTokens := tokens |}
             end
         end
     end, fs).
Proof.
  cbv zeta.
  unfold GmailAccountClient_create, buildOAuthClientFromCredentialsFile,
    readCredentialsFile, try_catch.
  rewrite !io_bind.
  destruct (fs_readFile_cases (credentialsPath (getAccountPaths configRoot a)) fs)
    as [(raw & _ & ->)|[(_ & _ & detail & ->)|(_ & detail & ->)]]; [|done|done].
  unfold lift at 1.
  destruct (JSON_parse raw) as [credentials|e]; [|done].
  cbn [mbind Result_mbind Result_bind]. unfold lift at 1.
  destruct (createOAuthClientFromCredentials credentials) as [oauth|e]; [|done].
  cbn [mbind Result_mbind Result_bind]. rewrite io_bind.
  rewrite (io_bind (fs_readFile (tokenPath_ (getAccountPaths configRoot a)))).
  destruct (fs_readFile_cases (tokenPath_ (getAccountPaths configRoot a)) fs)
    as [(rawToken & _ & ->)|[(_ & _ & detail & ->)|(_ & detail & ->)]]; [|done|done].
  unfold lift. by destruct (JSON_parse rawToken).
Qed.

Lemma GmailAccountClient_create_disk (a : AccountConfig) (fs : FileSystem) :
  (GmailAccountClient_create configRoot a fs).2 = fs.
Proof. by rewrite GmailAccountClient_create_steps. Qed.

Lemma GmailAccountClient_create_made (a : AccountConfig) (fs : FileSystem)
    (client : GmailAccountClient) :
  (GmailAccountClient_create configRoot a fs).1 = Ok client →
  client_account client = a
  ∧ client_paths client = getAccountPaths configRoot a
  ∧ is_Some (files fs !! credentialsPath (getAccountPaths configRoot a))
  ∧ ∃ rawToken,
      files fs !! tokenPath_ (getAccountPaths configRoot a) = Some rawToken
      ∧ JSON_parse rawToken = Ok (cachedTokens client).
Proof.
  rewrite GmailAccountClient_create_steps. cbv zeta. cbn [fst].
  destruct (fs_readFile_cases (credentialsPath (getAccountPaths configRoot a)) fs)
    as [(raw & Hraw & ->)|[(_ & _ & detail & ->)|(_ & detail & ->)]]; [|done|done].
  destruct (JSON_parse raw) as [credentials|e]; [|done].
  cbn [mbind Result_mbind Result_bind].
  destruct (createOAuthClientFromCredentials credentials) as [oauth|e]; [|done].
  cbn [mbind Result_mbind Result_bind].
  destruct (fs_readFile_cases (tokenPath_ (getAccountPaths configRoot a)) fs)
    as [(rawToken & Htoken & ->)|[(_ & _ & detail & ->)|(_ & detail & ->)]];
    [|done|done].
  destruct (JSON_parse rawToken) as [tokens|e] eqn:Hparse; [|done].
  intros [= <-]. cbn [client_account client_paths cachedTokens].
  split; [done|]. split; [done|]. split; [by eexists|]. by exists rawToken.
Qed.


Lemma fileExists_present (path : jsstring) (fs : FileSystem) :
  ∃ found, fileExists path fs = (Ok found, fs) ∧ (found = true ↔ present fs path).
Proof.
  eexists. split; [reflexivity|]. unfold present.
  rewrite orb_true_iff, !bool_decide_eq_true. done.
Qed.

(** The health check never changes the disk and never fails.  It reports
    the account it was given; a file as there exactly when its path holds a
    file or a directory; and [ready] exactly when the account is enabled and
    both are there.  An account whose client can be made has both files, so
    it is ready exactly when it is enabled. *)
Theorem getAccountHealth_spec (a : AccountConfig) (fs : FileSystem) :
  let paths := getAccountPaths configRoot a in
  ∃ health,
    getAccountHealth configRoot a fs = (Ok health, fs)
    ∧ health_account health = a
    ∧ (hasCredentialsFile health = true ↔ present fs (credentialsPath paths))
    ∧ (hasTokenFile health = true ↔ present fs (tokenPath_ paths))
    ∧ (ready health = true
       ↔ enabled a = true ∧ present fs (credentialsPath paths)
         ∧ present fs (tokenPath_ paths))
    ∧ (∀ client,
         (GmailAccountClient_create configRoot a fs).1 = Ok client →
         ready health = enabled a).
Proof.
  cbv zeta. set (paths := getAccountPaths configRoot a).
  destruct (fileExists_present (credentialsPath paths) fs) as (c & Hc & Hcp).
  destruct (fileExists_present (tokenPath_ paths) fs) as (t & Ht & Htp).
  exists {| health_account := a; hasCredentialsFile := c; hasTokenFile := t;
            ready := enabled a && c && t |}.
  split.
  { unfold getAccountHealth. fold paths. rewrite io_bind, Hc, io_bind, Ht. reflexivity. }
  cbn [health_account hasCredentialsFile hasTokenFile ready].
  split; [done|]. split; [done|]. split; [done|]. split.
  { rewrite !andb_true_iff, Hcp, Htp. tauto. }
  intros client Hclient.
  destruct (GmailAccountClient_create_made a fs client Hclient)
    as (_ & _ & Hcredentials & rawToken & Htoken & _).
  assert (c = true) as -> by (apply Hcp; by left).
  assert (t = true) as -> by (apply Htp; left; by eexists).
  by rewrite !andb_true_r.
Qed.
End Clients.

(** ** The fetch of one account *)

Lemma StronglySorted_split {A} (R : A → A → Prop) (l1 l2 : list A) :
  StronglySorted R (l1 ++ l2) → ∀ x y, x ∈ l1 → y ∈ l2 → R x y.
Proof.
  induction l1 as [|c l1 IH]; intros Hs x y Hx Hy; [by apply elem_of_nil in Hx|].
  simpl in Hs. apply StronglySorted_inv in Hs as [Hs Hc].
  apply elem_of_cons in Hx as [->|Hx]; [|by apply IH].
  rewrite Forall_forall in Hc. apply Hc, elem_of_app. by right.
Qed.

Lemma sort_insert_ext {A} (f g : A → A → number) (x : A) (l : list A) :
  (∀ y, y ∈ l → f x y = g x y) → sort_insert f x l = sort_insert g x l.
Proof.
  induction l as [|y l IH]; intros Hfg; [done|]. simpl.
  rewrite (Hfg y) by left. destruct (comes_first (g x y)); [done|].
  rewrite IH; [done|]. intros z Hz. apply Hfg. by right.
Qed.

Lemma Array_sort_ext {A} (f g : A → A → number) (l : list A) :
  (∀ x y, x ∈ l → y ∈ l → f x y = g x y) → Array_sort f l = Array_sort g l.
Proof.
  induction l as [|x l IH]; intros Hfg; [done|]. simpl.
  rewrite IH by (intros y z Hy Hz; apply Hfg; by right).
  apply sort_insert_ext. intros y Hy. apply Hfg; [left|].
  right. by rewrite <- (Array_sort_perm g l).
Qed.

Lemma traverse_length {A B} (f : A → Result B) (l : list A) (results : list B) :
  traverse f l = Ok results → length results = length l.
Proof.
  revert results. induction l as [|x l IH]; intros results; simpl.
  - by intros [= <-].
  - destruct (f x) as [y|e]; simpl; [|done].
    destruct (traverse f l) as [ys|e]; simpl; [|done].
    intros [= <-]. simpl. by rewrite (IH ys).
Qed.

Section Fetch.
Context `{Runtime} `{Builtins} `{GmailApi}.

Lemma parseMessage_date (a : AccountConfig) (m : Message) (body : bool) :
  ∃ q, ParsedEmail.internalDate (parseMessage a m body) = Some (Fin q).
Proof.
  unfold parseMessage. cbn [ParsedEmail.internalDate].
  destruct (Message.internalDate m) as [text|]; [|by eexists].
  destruct (StringToNumber text); by eexists.
Qed.

Lemma parsed_sorted (a : AccountConfig) (body : bool) (messages : list Message) :
  StronglySorted descending
    (Array_sort
       (fun x y => number_sub (to_number (ParsedEmail.internalDate y))
                              (to_number (ParsedEmail.internalDate x)))
       ((fun m => parseMessage a m body) <$> messages)).
Proof.
  rewrite (Array_sort_ext _ by_date); [apply Array_sort_descending|].
  intros x y Hx Hy.
  apply list_elem_of_fmap in Hx as (mx & -> & _).
  apply list_elem_of_fmap in Hy as (my & -> & _).
  unfold by_date, emailDateForSort.
  destruct (parseMessage_date a mx body) as [qx ->].
  by destruct (parseMessage_date a my body) as [qy ->].
Qed.

(** The steps of the fetch, with the disk each leaves. *)
Lemma fetchMessages_run (client : GmailAccountClient) (query : jsstring)
    (maxResults : number) (body : bool) (fs : FileSystem) :
  let paths := client_paths client in
  let listing :=
    users_messages_list client (if is_empty (trim query) then None else Some query)
      (clamp maxResults (Fin 1) (Fin 100)) in
  ∃ cached,
    let fs1 := (emitted paths (cachedTokens client) (refreshed listing) fs).2 in
    fetchMessages client query maxResults body fs
    = match answer listing with
      | Err e => (Err e, fs1)
      | Ok listed =>
          let messageIds :=
            List.filter truthy_string
              (omap (fun message => Message.id message) (default [] listed)) in
          let calls :=
            (fun messageId =>
               users_messages_get client messageId
                 (if body then js "full" else js "metadata")
                 (if body then None
                  else Some [js "From"; js "To"; js "Subject"; js "Date"]))
            <$> messageIds in
          if (length messageIds =? 0)%nat then (Ok [], fs1)
          else
            (fullMessages ← all_answers calls;
             Ok (Array_sort
                   (fun a b => number_sub (to_number (ParsedEmail.internalDate b))
                                          (to_number (ParsedEmail.internalDate a)))
                   ((fun response => parseMessage (client_account client) response body)
                    <$> fullMessages)),
             (emitted paths cached (concat (refreshed <$> calls)) fs1).2)
      end.
Proof.
  cbv zeta. unfold fetchMessages. fold (clamp maxResults (Fin 1) (Fin 100)).
  match goal with
  | |- context [emitted ?p ?c ?ev ≫= ?k] =>
      destruct (emitted_bind p c ev k fs) as [cached Hbind]
  end.
  exists cached. rewrite Hbind. clear Hbind. rewrite lift_bind.
  destruct (answer (users_messages_list _ _ _)) as [listed|e]; [|done].
  destruct (length _ =? 0)%nat; [done|].
  match goal with
  | |- context [emitted ?p ?c ?ev ≫= ?k] =>
      destruct (emitted_bind p c ev k
                  (emitted (client_paths client) (cachedTokens client)
                     (refreshed
                        (users_messages_list client
                           (if is_empty (trim query) then None else Some query)
                           (clamp maxResults (Fin 1) (Fin 100)))) fs).2)
        as [cached' Hbind]
  end.
  rewrite Hbind. rewrite lift_bind.
  by destruct (all_answers _).
Qed.

Lemma fetchMessages_other_files (client : GmailAccountClient) (query : jsstring)
    (maxResults : number) (body : bool) (fs : FileSystem) (path : jsstring) :
  path ≠ tokenPath_ (client_paths client) →
  files (fetchMessages client query maxResults body fs).2 !! path = files fs !! path.
Proof.
  intros Hpath.
  destruct (fetchMessages_run client query maxResults body fs) as [cached Hrun].
  cbv zeta in Hrun. rewrite Hrun.
  destruct (answer _) as [listed|e]; [|by apply emitted_other_files].
  destruct (length _ =? 0)%nat; [by apply emitted_other_files|].
  cbn [snd]. rewrite emitted_other_files by done. by apply emitted_other_files.
Qed.

Lemma fetchMessages_quiet (client : GmailAccountClient) (query : jsstring)
    (maxResults : number) (body : bool) (fs : FileSystem) :
  quiet_reads → (fetchMessages client query maxResults body fs).2 = fs.
Proof.
  intros (_ & Hlist & Hget).
  destruct (fetchMessages_run client query maxResults body fs) as [cached Hrun].
  cbv zeta in Hrun. rewrite Hrun. rewrite Hlist. cbn [emitted].
  destruct (answer _) as [listed|e]; [|done].
  destruct (length _ =? 0)%nat; [done|]. cbn [snd].
  match goal with
  | |- context [concat (?f <$> ?l)] =>
      assert (Hnone : concat (f <$> l) = [])
  end.
  { match goal with
    | |- concat (_ <$> (_ <$> ?ids)) = [] => generalize ids
    end.
    intros ids. induction ids as [|x ids IH]; [done|].
    rewrite !fmap_cons. cbn [concat]. by rewrite Hget, IH. }
  by rewrite Hnone.
Qed.

(** The fetch of one account asks the provider for the listing of the
    query, with the clamped limit and with no query when the query is
    blank.  When the listing is refused the fetch fails with that error.
    When it is answered, the fetch gets one message for each id of the
    listing that is not empty, and no other: when all are answered, the
    result holds the parsed form of each, one email for each such id, in
    descending order of date; when one is refused, the fetch fails with the
    first refusal.  The only file the fetch may write is the token file of
    the client, and it writes none when the provider refreshes no token. *)
Theorem fetchMessages_spec (client : GmailAccountClient) (query : jsstring)
    (maxResults : number) (body : bool) (fs : FileSystem) :
  let listing :=
    users_messages_list client (if is_empty (trim query) then None else Some query)
      (clamp maxResults (Fin 1) (Fin 100)) in
  (∀ e, answer listing = Err e →
        (fetchMessages client query maxResults body fs).1 = Err e)
  ∧ (∀ listed,
       answer listing = Ok listed →
       let messageIds :=
         List.filter truthy_string
           (omap (fun message => Message.id message) (default [] listed)) in
       let calls :=
         (fun messageId =>
            users_messages_get client messageId
              (if body then js "full" else js "metadata")
              (if body then None
               else Some [js "From"; js "To"; js "Subject"; js "Date"]))
         <$> messageIds in
       (∀ messages,
          all_answers calls = Ok messages →
          ∃ sorted,
            (fetchMessages client query maxResults body fs).1 = Ok sorted
            ∧ sorted ≡ₚ (fun m => parseMessage (client_account client) m body)
                        <$> messages
            ∧ StronglySorted descending sorted
            ∧ length sorted = length messageIds)
       ∧ (∀ e, all_answers calls = Err e →
               (fetchMessages client query maxResults body fs).1 = Err e))
  ∧ (∀ path, path ≠ tokenPath_ (client_paths client) →
       files (fetchMessages client query maxResults body fs).2 !! path
       = files fs !! path)
  ∧ (quiet_reads → (fetchMessages client query maxResults body fs).2 = fs).
Proof.
  cbv zeta.
  destruct (fetchMessages_run client query maxResults body fs) as [cached Hrun].
  cbv zeta in Hrun.
  split; [|split; [|split]].
  - intros e He. rewrite Hrun, He. done.
  - intros listed Hlisted. rewrite Hrun, Hlisted. split.
    + intros messages Hmessages.
      pose proof (traverse_length _ _ _ Hmessages) as Hlen.
      rewrite length_fmap in Hlen.
      destruct (length _ =? 0)%nat eqn:Hids.
      * apply Nat.eqb_eq in Hids. rewrite Hids in Hlen.
        destruct messages; [|done]. exists []. cbn [fst].
        split; [done|]. split; [done|]. split; [constructor|done].
      * rewrite Hmessages. cbn [fst mbind Result_mbind Result_bind].
        eexists. split; [reflexivity|]. split; [apply Array_sort_perm|].
        split; [apply parsed_sorted|].
        by rewrite (Permutation_length (Array_sort_perm _ _)), length_fmap.
    + intros e He.
      destruct (length _ =? 0)%nat eqn:Hids; [|by rewrite He].
      apply Nat.eqb_eq, length_zero_iff_nil in Hids. by rewrite Hids in He.
  - intros path Hpath. by apply fetchMessages_other_files.
  - apply fetchMessages_quiet.
Qed.
End Fetch.

(** ** What the read tools do to the disk *)

Lemma disk_after_other_files (operation : AccountConfig → IO (list ParsedEmail))
    (targetAccounts : list AccountConfig) (fs : FileSystem) (path : jsstring) :
  (∀ a fs, a ∈ targetAccounts → files (operation a fs).2 !! path = files fs !! path) →
  files (disk_after operation targetAccounts fs) !! path = files fs !! path.
Proof.
  revert fs. induction targetAccounts as [|a l IH]; intros fs Hop; [done|].
  cbn [disk_after]. rewrite IH.
  - apply Hop. by left.
  - intros b fs' Hb. apply Hop. by right.
Qed.

Lemma disk_after_quiet (operation : AccountConfig → IO (list ParsedEmail))
    (targetAccounts : list AccountConfig) (fs : FileSystem) :
  (∀ a fs, (operation a fs).2 = fs) →
  disk_after operation targetAccounts fs = fs.
Proof.
  intros Hop. revert fs. induction targetAccounts as [|a l IH]; intros fs; [done|].
  cbn [disk_after]. by rewrite Hop, IH.
Qed.

Section ReadTools.
Context `{Runtime} `{Builtins} `{GmailApi}.
Variable configRoot : jsstring.

Lemma loadConfig_other_files (fs : FileSystem) (path : jsstring) :
  path ≠ getAccountsFilePath configRoot →
  files (loadConfig configRoot fs).2 !! path = files fs !! path.
Proof. apply loadAccountsConfig_other_files. Qed.

Lemma loadConfig_present_files (fs : FileSystem) :
  is_Some (files fs !! getAccountsFilePath configRoot) →
  files (loadConfig configRoot fs).2 = files fs.
Proof.
  intros [raw Hraw]. unfold loadConfig.
  by rewrite (loadAccountsConfig_present _ _ _ Hraw).
Qed.

(** An operation on the client of an account writes where the operation
    writes: making the client writes nothing. *)
Lemma client_operation_other_files {A} (k : GmailAccountClient → IO A)
    (a : AccountConfig) (fs : FileSystem) (path : jsstring) :
  (∀ client fs, client_paths client = getAccountPaths configRoot a →
                files (k client fs).2 !! path = files fs !! path) →
  files ((getClientForAccount configRoot a ≫= k) fs).2 !! path = files fs !! path.
Proof.
  intros Hk. rewrite io_bind. unfold getClientForAccount.
  pose proof (GmailAccountClient_create_disk configRoot a fs) as Hdisk.
  pose proof (GmailAccountClient_create_made configRoot a fs) as Hmade.
  destruct (GmailAccountClient_create configRoot a fs) as [[client|e] fs'];
    simpl in *; subst; [|done].
  apply Hk. by destruct (Hmade client eq_refl) as (_ & ? & _).
Qed.

Lemma client_operation_quiet {A} (k : GmailAccountClient → IO A)
    (a : AccountConfig) (fs : FileSystem) :
  (∀ client fs, (k client fs).2 = fs) →
  ((getClientForAccount configRoot a ≫= k) fs).2 = fs.
Proof.
  intros Hk. rewrite io_bind. unfold getClientForAccount.
  pose proof (GmailAccountClient_create_disk configRoot a fs) as Hdisk.
  destruct (GmailAccountClient_create configRoot a fs) as [[client|e] fs'];
    simpl in *; subst; [|done].
  apply Hk.
Qed.

Lemma searchEmails_other_files (client : GmailAccountClient) (query : jsstring)
    (maxResults : number) (fs : FileSystem) (path : jsstring) :
  path ≠ tokenPath_ (client_paths client) →
  files (searchEmails client query maxResults fs).2 !! path = files fs !! path.
Proof.
  intros Hpath. unfold searchEmails.
  destruct (negb _ || _); [done|]. by apply fetchMessages_other_files.
Qed.

Lemma searchEmails_quiet (client : GmailAccountClient) (query : jsstring)
    (maxResults : number) (fs : FileSystem) :
  quiet_reads → (searchEmails client query maxResults fs).2 = fs.
Proof.
  intros Hquiet. unfold searchEmails.
  destruct (negb _ || _); [done|]. by apply fetchMessages_quiet.
Qed.

(** The disk the read handler leaves: the disk of the load when it fails
    before the fan-out, the disk after the last account otherwise. *)
Lemma handleReadEmails_disk (rawArgs : list (jsstring * json)) (fs : FileSystem) :
  (handleReadEmails configRoot rawArgs fs).2 = (loadConfig configRoot fs).2
  ∨ ∃ config targetAccounts,
      (loadConfig configRoot fs).1 = Ok config
      ∧ resolveReadAccounts config (account_argument rawArgs) = Ok targetAccounts
      ∧ (handleReadEmails configRoot rawArgs fs).2
        = disk_after
            (fun account =>
               client ← getClientForAccount configRoot account;
               readEmails client
                 (trim (valueToString (get_field rawArgs (js "query")) []))
                 (clamp (valueToNumber (get_field rawArgs (js "max_results")) (Fin 20))
                    (Fin 1) (Fin 100))
                 (valueToBoolean (get_field rawArgs (js "include_body")) false))
            targetAccounts (loadConfig configRoot fs).2.
Proof.
  destruct (loadConfig configRoot fs) as [[config|e] fs1] eqn:Hload.
  - destruct (resolveReadAccounts config (account_argument rawArgs))
      as [targetAccounts|e] eqn:Hresolve.
    + right. exists config, targetAccounts. split; [done|]. split; [done|].
      by rewrite (handleReadEmails_run configRoot rawArgs fs fs1 config targetAccounts
                    Hload Hresolve).
    + left. unfold handleReadEmails. by rewrite io_bind, Hload, lift_bind, Hresolve.
  - left. unfold handleReadEmails. by rewrite io_bind, Hload.
Qed.

Lemma handleSearchEmails_disk (rawArgs : list (jsstring * json)) (fs : FileSystem) :
  (handleSearchEmails configRoot rawArgs fs).2 = fs
  ∨ (handleSearchEmails configRoot rawArgs fs).2 = (loadConfig configRoot fs).2
  ∨ ∃ config targetAccounts,
      (loadConfig configRoot fs).1 = Ok config
      ∧ resolveReadAccounts config (account_argument rawArgs) = Ok targetAccounts
      ∧ (handleSearchEmails configRoot rawArgs fs).2
        = disk_after
            (fun account =>
               client ← getClientForAccount configRoot account;
               searchEmails client (valueToString (get_field rawArgs (js "query")) [])
                 (clamp (valueToNumber (get_field rawArgs (js "max_results")) (Fin 25))
                    (Fin 1) (Fin 100)))
            targetAccounts (loadConfig configRoot fs).2.
Proof.
  destruct (is_empty (trim (valueToString (get_field rawArgs (js "query")) [])))
    eqn:Hquery.
  { left. unfold handleSearchEmails. by rewrite Hquery, orb_true_r. }
  right.
  assert (Htruthy : truthy_string (valueToString (get_field rawArgs (js "query")) [])
                    = true).
  { destruct (valueToString _ _); [done|reflexivity]. }
  destruct (loadConfig configRoot fs) as [[config|e] fs1] eqn:Hload.
  - destruct (resolveReadAccounts config (account_argument rawArgs))
      as [targetAccounts|e] eqn:Hresolve.
    + right. exists config, targetAccounts. split; [done|]. split; [done|].
      by rewrite (handleSearchEmails_run configRoot rawArgs fs fs1 config targetAccounts
                    Hquery Hload Hresolve).
    + left. unfold handleSearchEmails. rewrite Htruthy, Hquery. cbn [negb orb].
      by rewrite io_bind, Hload, lift_bind, Hresolve.
  - left. unfold handleSearchEmails. rewrite Htruthy, Hquery. cbn [negb orb].
    by rewrite io_bind, Hload.
Qed.

(** Reading and searching write no file but the registry file and the token
    files of the enabled accounts of the registry, which the client of an
    account rewrites when the provider refreshes its token.  With a provider
    that refreshes no token they write no file but the registry, and when
    the registry file exists nothing at all. *)
Theorem read_tools_leave_the_disk (rawArgs : list (jsstring * json)) (fs : FileSystem) :
  (∀ path,
     path ≠ getAccountsFilePath configRoot →
     (∀ config a, (loadConfig configRoot fs).1 = Ok config →
                  a ∈ accounts config → enabled a = true →
                  path ≠ tokenPath_ (getAccountPaths configRoot a)) →
     files (handleReadEmails configRoot rawArgs fs).2 !! path = files fs !! path
     ∧ files (handleSearchEmails configRoot rawArgs fs).2 !! path = files fs !! path)
  ∧ (quiet_reads →
     (∀ path, path ≠ getAccountsFilePath configRoot →
        files (handleReadEmails configRoot rawArgs fs).2 !! path = files fs !! path
        ∧ files (handleSearchEmails configRoot rawArgs fs).2 !! path = files fs !! path)
     ∧ (is_Some (files fs !! getAccountsFilePath configRoot) →
        files (handleReadEmails configRoot rawArgs fs).2 = files fs
        ∧ files (handleSearchEmails configRoot rawArgs fs).2 = files fs)).
Proof.
  split.
  - intros path Hpath Htokens. split.
    + destruct (handleReadEmails_disk rawArgs fs)
        as [->|(config & targets & Hload & Hresolve & ->)];
        [by apply loadConfig_other_files|].
      rewrite disk_after_other_files; [by apply loadConfig_other_files|].
      intros a fs' Ha.
      destruct (resolveReadAccounts_enabled _ _ _ Hresolve a Ha) as [Hon Hin].
      apply client_operation_other_files. intros client fs'' Hpaths.
      apply fetchMessages_other_files. rewrite Hpaths. by apply (Htokens config).
    + destruct (handleSearchEmails_disk rawArgs fs)
        as [->|[->|(config & targets & Hload & Hresolve & ->)]];
        [done|by apply loadConfig_other_files|].
      rewrite disk_after_other_files; [by apply loadConfig_other_files|].
      intros a fs' Ha.
      destruct (resolveReadAccounts_enabled _ _ _ Hresolve a Ha) as [Hon Hin].
      apply client_operation_other_files. intros client fs'' Hpaths.
      apply searchEmails_other_files. rewrite Hpaths. by apply (Htokens config).
  - intros Hquiet.
    assert (Hread : (handleReadEmails configRoot rawArgs fs).2
                    = (loadConfig configRoot fs).2).
    { destruct (handleReadEmails_disk rawArgs fs)
        as [->|(config & targets & Hload & Hresolve & ->)]; [done|].
      apply disk_after_quiet. intros a fs'. apply client_operation_quiet.
      intros client fs''. by apply fetchMessages_quiet. }
    assert (Hsearch : (handleSearchEmails configRoot rawArgs fs).2 = fs
                      ∨ (handleSearchEmails configRoot rawArgs fs).2
                        = (loadConfig configRoot fs).2).
    { destruct (handleSearchEmails_disk rawArgs fs)
        as [->|[->|(config & targets & Hload & Hresolve & ->)]];
        [by left|by right|right].
      apply disk_after_quiet. intros a fs'. apply client_operation_quiet.
      intros client fs''. by apply searchEmails_quiet. }
    split.
    + intros path Hpath. rewrite Hread.
      split; [by apply loadConfig_other_files|].
      destruct Hsearch as [->| ->]; [done|by apply loadConfig_other_files].
    + intros Hpresent. rewrite Hread.
      split; [by apply loadConfig_present_files|].
      destruct Hsearch as [->| ->]; [done|by apply loadConfig_present_files].
Qed.

(** The emails the read handler returns are the newest: the sorted sequence
    of the emails of all accounts is the returned emails followed by the
    omitted ones, no omitted email has a later date than a returned one,
    and the total found is the number of both. *)
Theorem returned_are_newest (rawArgs : list (jsstring * json)) (fs fs1 : FileSystem)
    (config : AccountsConfig) (targetAccounts : list AccountConfig) :
  loadConfig configRoot fs = (Ok config, fs1) →
  resolveReadAccounts config (account_argument rawArgs) = Ok targetAccounts →
  let query := trim (valueToString (get_field rawArgs (js "query")) []) in
  let maxResults :=
    clamp (valueToNumber (get_field rawArgs (js "max_results")) (Fin 20))
      (Fin 1) (Fin 100) in
  let body := valueToBoolean (get_field rawArgs (js "include_body")) false in
  let results :=
    outcomes (fun account =>
                client ← getClientForAccount configRoot account;
                readEmails client query maxResults body) targetAccounts fs1 in
  let input :=
    listing (js "Gmail Emails") (scope (account_argument rawArgs) targetAccounts)
      query results maxResults body in
  (handleReadEmails configRoot rawArgs fs).1 = answered input
  ∧ ∃ omitted,
      returned input ++ omitted ≡ₚ flat_map contributed results
      ∧ StronglySorted descending (returned input ++ omitted)
      ∧ totalFound input = (length (returned input) + length omitted)%nat
      ∧ ∀ e e', e ∈ returned input → e' ∈ omitted → descending e e'.
Proof.
  intros Hload Hresolve query maxResults body results input.
  pose proof (handleReadEmails_run configRoot rawArgs fs fs1 config targetAccounts
                Hload Hresolve) as Hrun.
  cbv zeta in Hrun.
  fold query maxResults body in Hrun. fold results in Hrun. fold input in Hrun.
  split; [by rewrite Hrun|].
  destruct (slice0_limit (Array_sort by_date (flat_map contributed results))
              (get_field rawArgs (js "max_results")) 20) as (n & _ & Hn).
  fold maxResults in Hn.
  exists (drop n (Array_sort by_date (flat_map contributed results))).
  unfold input, listing. cbn [returned totalFound]. rewrite Hn, take_drop.
  split; [apply Array_sort_perm|]. split; [apply Array_sort_descending|].
  split.
  - by rewrite <- length_app, take_drop.
  - apply StronglySorted_split. rewrite take_drop. apply Array_sort_descending.
Qed.

Lemma resolveReadAccounts_empty (accountId : option jsstring) :
  ∃ e, resolveReadAccounts emptyConfig accountId = Err e.
Proof.
  unfold resolveReadAccounts.
  destruct (explicit_account accountId) as [s|]; [|by eexists].
  unfold getAccountOrThrow, validateAccountId.
  destruct (ACCOUNT_ID_PATTERN_test s); by eexists.
Qed.

(** On a configuration root with nothing at the registry path a read never
    succeeds: it fails with NoEnabledAccounts when no account is named, with
    InvalidAccountId or UnknownAccount when one is; and it leaves behind the
    registry file of the empty registry.  When the registry path is a
    directory the read fails with the error of a corrupt configuration and
    writes nothing. *)
Theorem handleReadEmails_first_run (rawArgs : list (jsstring * json)) (fs : FileSystem) :
  (absent (with_layout configRoot fs) (getAccountsFilePath configRoot) →
   (account_argument rawArgs = None →
    (handleReadEmails configRoot rawArgs fs).1 = Err NoEnabledAccounts)
   ∧ (∀ s, account_argument rawArgs = Some s →
        (handleReadEmails configRoot rawArgs fs).1
        = Err (if ACCOUNT_ID_PATTERN_test s then UnknownAccount s
               else InvalidAccountId s))
   ∧ files (handleReadEmails configRoot rawArgs fs).2
     = <[getAccountsFilePath configRoot :=
           JSON_stringify (config_to_json emptyConfig) ++ js (String "010" "")]>
         (files fs))
  ∧ (files fs !! getAccountsFilePath configRoot = None →
     getAccountsFilePath configRoot ∈ directories (with_layout configRoot fs) →
     handleReadEmails configRoot rawArgs fs
     = (Err (ConfigCorrupt
               (FsError (js "EISDIR")
                  (js "EISDIR: illegal operation on a directory, read"))),
        with_layout configRoot fs)).
Proof.
  split.
  - intros Hmissing.
    assert (Hload : loadConfig configRoot fs
                    = (Ok emptyConfig,
                       (saveAccountsConfig configRoot emptyConfig
                          (with_layout configRoot fs)).2))
      by apply (loadAccountsConfig_missing _ _ Hmissing).
    split; [|split].
    + intros Hnone. unfold handleReadEmails.
      rewrite io_bind, Hload, lift_bind, Hnone. done.
    + intros s Hs. unfold handleReadEmails.
      rewrite io_bind, Hload, lift_bind, Hs.
      assert (Hnb : is_empty (trim s) = false).
      { unfold account_argument in Hs.
        destruct (truthy_string (trim _)) eqn:Ht; [|done]. injection Hs as <-.
        rewrite trim_idempotent. unfold truthy_string in Ht.
        by destruct (is_empty _). }
      rewrite (resolveReadAccounts_explicit _ _ Hnb).
      unfold getAccountOrThrow, validateAccountId.
      by destruct (ACCOUNT_ID_PATTERN_test s).
    + unfold handleReadEmails. rewrite io_bind, Hload, lift_bind.
      destruct (resolveReadAccounts_empty (account_argument rawArgs)) as [e ->].
      cbn [snd]. by rewrite saved_files, with_layout_files.
  - intros Hraw Hdir. unfold handleReadEmails, loadConfig.
    by rewrite io_bind, (loadAccountsConfig_directory _ _ Hraw Hdir).
Qed.

(** A search without a query (missing, not a string, or blank) is refused
    with QueryRequired before the disk is touched. *)
Theorem handleSearchEmails_requires_query (rawArgs : list (jsstring * json))
    (fs : FileSystem) :
  is_empty (trim (valueToString (get_field rawArgs (js "query")) [])) = true →
  handleSearchEmails configRoot rawArgs fs = (Err QueryRequired, fs).
Proof.
  intros Hblank. unfold handleSearchEmails. rewrite Hblank.
  by rewrite orb_true_r.
Qed.
End ReadTools.

(** ** The tools that change messages *)

Section UpdateDisk.
Context `{Runtime} `{GmailWriteApi}.

(** The disk a call that changes messages leaves is the disk the token
    listener leaves, for the tokens the provider refreshed during the
    call. *)
Lemma update_disk (client : GmailAccountClient) (messageIds labelIds : list jsstring)
    (operation : IO nat) (fs : FileSystem) :
  operation ∈ [markAsRead client messageIds; archiveEmails client messageIds;
               trashEmails client messageIds; addLabels client messageIds labelIds;
               removeLabels client messageIds labelIds] →
  ∃ events,
    (operation fs).2
    = (emitted (client_paths client) (cachedTokens client) events fs).2
    ∧ (quiet_writes → events = []).
Proof.
  assert (Hbatch : ∀ (call : Response unit) (n : nat),
            (∀ client ids addLabelIds removeLabelIds,
               call = users_messages_batchModify client ids addLabelIds removeLabelIds
               → True) →
            ((awaited client call ≫= λ _, mret n) fs).2
            = (emitted (client_paths client) (cachedTokens client)
                 (refreshed call) fs).2).
  { intros call n _. rewrite io_bind, awaited_run. by destruct (answer call). }
  intros Hop.
  repeat (apply elem_of_cons in Hop as [->|Hop]);
    [| | | | |by apply elem_of_nil in Hop].
  - unfold markAsRead.
    destruct (length _ =? 0)%nat; [exists []; by split|].
    eexists. split; [by apply Hbatch|]. intros [Hquiet _]. apply Hquiet.
  - unfold archiveEmails.
    destruct (length _ =? 0)%nat; [exists []; by split|].
    eexists. split; [by apply Hbatch|]. intros [Hquiet _]. apply Hquiet.
  - unfold trashEmails.
    destruct (length _ =? 0)%nat; [exists []; by split|].
    eexists. split.
    + match goal with
      | |- context [emitted ?p ?c ?ev ≫= ?k] =>
          destruct (emitted_bind p c ev k fs) as [cached' ->]
      end.
      rewrite lift_bind. by destruct (all_answers _).
    + intros [_ Hquiet].
      generalize (sanitizeMessageIds messageIds). intros ids.
      induction ids as [|x ids IH]; [done|].
      rewrite !fmap_cons. cbn [concat]. by rewrite Hquiet, IH.
  - unfold addLabels.
    destruct (length (sanitizeMessageIds _) =? 0)%nat; [exists []; by split|].
    destruct (length _ =? 0)%nat; [exists []; by split|].
    eexists. split; [by apply Hbatch|]. intros [Hquiet _]. apply Hquiet.
  - unfold removeLabels.
    destruct (length (sanitizeMessageIds _) =? 0)%nat; [exists []; by split|].
    destruct (length _ =? 0)%nat; [exists []; by split|].
    eexists. split; [by apply Hbatch|]. intros [Hquiet _]. apply Hquiet.
Qed.

Lemma update_other_files (client : GmailAccountClient)
    (messageIds labelIds : list jsstring) (operation : IO nat) (fs : FileSystem)
    (path : jsstring) :
  operation ∈ [markAsRead client messageIds; archiveEmails client messageIds;
               trashEmails client messageIds; addLabels client messageIds labelIds;
               removeLabels client messageIds labelIds] →
  path ≠ tokenPath_ (client_paths client) →
  files (operation fs).2 !! path = files fs !! path.
Proof.
  intros Hop Hpath.
  destruct (update_disk client messageIds labelIds operation fs Hop)
    as (events & -> & _).
  by apply emitted_other_files.
Qed.

Lemma update_quiet (client : GmailAccountClient)
    (messageIds labelIds : list jsstring) (operation : IO nat) (fs : FileSystem) :
  operation ∈ [markAsRead client messageIds; archiveEmails client messageIds;
               trashEmails client messageIds; addLabels client messageIds labelIds;
               removeLabels client messageIds labelIds] →
  quiet_writes → (operation fs).2 = fs.
Proof.
  intros Hop Hquiet.
  destruct (update_disk client messageIds labelIds operation fs Hop)
    as (events & -> & Hevents).
  by rewrite (Hevents Hquiet).
Qed.
End UpdateDisk.

Section WriteTools.
Context `{Runtime} `{NumberFormat} `{GmailWriteApi}.
Variable configRoot : jsstring.

Lemma resolveWriteAccount_id (config : AccountsConfig) (accountId : jsstring)
    (a : AccountConfig) :
  resolveWriteAccount config (Some accountId) = Ok a → id a = accountId.
Proof.
  unfold resolveWriteAccount.
  destruct (explicit_account (Some accountId)) as [s|] eqn:Hs; [|done].
  assert (s = accountId) as ->.
  { unfold explicit_account in Hs. destruct (_ && _); [|done]. by injection Hs. }
  destruct (getAccountOrThrow config accountId) as [b|] eqn:Hget; [|done].
  simpl. destruct (enabled b); [|done]. intros [= <-].
  by apply getAccountOrThrow_Ok in Hget as (_ & ? & _).
Qed.

(** The steps the five handlers share: turn the arguments into strings,
    load the registry, resolve the account, make its client, run the
    operation. *)
Lemma update_steps {X} (arguments : Result X)
    (operation : X → GmailAccountClient → IO nat) (labels : X → option (list jsstring))
    (count : X → nat) (accountId : jsstring) (fs : FileSystem)
    (tool : IO UpdateOutput) :
  tool fs
  = (args ← lift arguments;
     config ← loadConfig configRoot;
     account ← lift (resolveWriteAccount config (Some accountId));
     client ← getClientForAccount configRoot account;
     updated ← operation args client;
     mret {| updated := updated; updated_account := account;
             updated_labels := labels args |}) fs →
  (∀ args client fs n, (operation args client fs).1 = Ok n →
                       n = count args ∧ (1 ≤ n)%nat) →
  (∀ args client fs path, path ≠ tokenPath_ (client_paths client) →
     files (operation args client fs).2 !! path = files fs !! path) →
  (quiet_writes → ∀ args client fs, (operation args client fs).2 = fs) →
  (∀ e, arguments = Err e → tool fs = (Err e, fs))
  ∧ (∀ args config,
       arguments = Ok args →
       (loadConfig configRoot fs).1 = Ok config →
       is_empty (trim accountId) = true →
       (tool fs).1 = Err AccountRequired)
  ∧ (∀ out,
       (tool fs).1 = Ok out →
       ∃ config args,
         (loadConfig configRoot fs).1 = Ok config
         ∧ arguments = Ok args
         ∧ resolveWriteAccount config (Some accountId) = Ok (updated_account out)
         ∧ updated_account out ∈ accounts config
         ∧ id (updated_account out) = accountId
         ∧ enabled (updated_account out) = true
         ∧ updated out = count args
         ∧ (1 ≤ updated out)%nat)
  ∧ (∀ path,
       path ≠ getAccountsFilePath configRoot →
       (∀ config a,
          (loadConfig configRoot fs).1 = Ok config →
          resolveWriteAccount config (Some accountId) = Ok a →
          path ≠ tokenPath_ (getAccountPaths configRoot a)) →
       files (tool fs).2 !! path = files fs !! path)
  ∧ (quiet_writes →
     (tool fs).2 = fs ∨ (tool fs).2 = (loadConfig configRoot fs).2).
Proof.
  intros -> Hcount Hother Hquiet. rewrite lift_bind.
  destruct arguments as [args|e0]; cbn [Result_rect];
    [|repeat split; try done; [by intros e [= <-]|by left]].
  rewrite io_bind.
  pose proof (loadConfig_other_files configRoot fs) as Hload.
  destruct (loadConfig configRoot fs) as [[config|e] fs1]; cbn [fst snd] in *;
    [|repeat split; try done; [by intros; apply Hload|by right]].
  rewrite lift_bind.
  destruct (resolveWriteAccount config (Some accountId)) as [a|e] eqn:Hresolve.
  2:{ split; [done|]. split; [|split; [done|split; [by intros; apply Hload|by right]]].
      intros ? ? _ _ Hblank. unfold resolveWriteAccount in Hresolve.
      rewrite (proj1 (explicit_account_blank (Some accountId)) Hblank) in Hresolve.
      by injection Hresolve as <-. }
  assert (Hnot_blank : is_empty (trim accountId) = true → False).
  { intros Hblank. unfold resolveWriteAccount in Hresolve.
    by rewrite (proj1 (explicit_account_blank (Some accountId)) Hblank) in Hresolve. }
  rewrite io_bind. unfold getClientForAccount.
  pose proof (GmailAccountClient_create_disk configRoot a fs1) as Hdisk.
  pose proof (GmailAccountClient_create_made configRoot a fs1) as Hmade.
  destruct (GmailAccountClient_create configRoot a fs1) as [[client|e] fs2];
    simpl in Hdisk; subst fs2.
  2:{ split; [done|]. split; [by intros ? ? _ _ ?%Hnot_blank|].
      split; [done|]. split; [by intros; apply Hload|by right]. }
  destruct (Hmade client eq_refl) as (_ & Hpaths & _).
  rewrite io_bind.
  specialize (Hcount args client fs1). specialize (Hother args client fs1).
  destruct (operation args client fs1) as [[n|e] fs2] eqn:Hop; cbn [fst snd] in *.
  - split; [done|]. split; [by intros ? ? _ _ ?%Hnot_blank|]. split.
    + intros out [= <-]. exists config, args. cbn [updated updated_account].
      destruct (resolveWriteAccount_enabled _ _ _ Hresolve) as [Hon Hin].
      destruct (Hcount n eq_refl) as [-> ?].
      pose proof (resolveWriteAccount_id _ _ _ Hresolve). done.
    + split.
      * intros path Hpath Htoken. rewrite Hother; [by apply Hload|].
        rewrite Hpaths. by apply (Htoken config).
      * intros Hq. right. specialize (Hquiet Hq args client fs1).
        by rewrite Hop in Hquiet.
  - split; [done|]. split; [by intros ? ? _ _ ?%Hnot_blank|]. split; [done|].
    split.
    + intros path Hpath Htoken. rewrite Hother; [by apply Hload|].
      rewrite Hpaths. by apply (Htoken config).
    + intros Hq. right. specialize (Hquiet Hq args client fs1).
      by rewrite Hop in Hquiet.
Qed.

(** The tools that mark, label, archive and trash messages turn their list
    arguments into strings before they load the registry: an element that
    cannot be turned into a string makes the tool fail with that error, the
    disk being as it was.  They act only on an account that is named, known
    and enabled: with lists that can be read and a registry that loads, a
    missing or blank account id makes each fail with AccountRequired; when
    one succeeds, the account it reports is the registry's enabled account
    with exactly the id given, and the count it reports is the number of
    distinct non-blank message ids, at least one.  The only files they may
    write are the registry, when loading writes it, and the token file of
    the account they act on; with a provider that refreshes no token they
    write nothing beyond what loading the registry writes. *)
Theorem write_tools_need_an_enabled_account
    (tool : list (jsstring * json) → IO UpdateOutput) :
  tool ∈ [handleMarkAsRead configRoot; handleAddLabels configRoot;
          handleRemoveLabels configRoot; handleArchiveEmails configRoot;
          handleTrashEmails configRoot] →
  ∀ (rawArgs : list (jsstring * json)) (fs : FileSystem),
    let accountId := valueToString (get_field rawArgs (js "account")) [] in
    let messageIds := valueToStringArray (get_field rawArgs (js "message_ids")) in
    let labelIds := valueToStringArray (get_field rawArgs (js "label_ids")) in
    (∀ e, messageIds = Err e → tool rawArgs fs = (Err e, fs))
    ∧ (∀ ids e, messageIds = Ok ids → labelIds = Err e →
         handleAddLabels configRoot rawArgs fs = (Err e, fs)
         ∧ handleRemoveLabels configRoot rawArgs fs = (Err e, fs))
    ∧ (∀ ids labels config,
         messageIds = Ok ids → labelIds = Ok labels →
         (loadConfig configRoot fs).1 = Ok config →
         is_empty (trim accountId) = true →
         (tool rawArgs fs).1 = Err AccountRequired)
    ∧ (∀ out,
         (tool rawArgs fs).1 = Ok out →
         ∃ config ids,
           (loadConfig configRoot fs).1 = Ok config
           ∧ messageIds = Ok ids
           ∧ resolveWriteAccount config (Some accountId) = Ok (updated_account out)
           ∧ updated_account out ∈ accounts config
           ∧ id (updated_account out) = accountId
           ∧ enabled (updated_account out) = true
           ∧ updated out = length (sanitizeMessageIds ids)
           ∧ (1 ≤ updated out)%nat)
    ∧ (∀ path,
         path ≠ getAccountsFilePath configRoot →
         (∀ config a,
            (loadConfig configRoot fs).1 = Ok config →
            resolveWriteAccount config (Some accountId) = Ok a →
            path ≠ tokenPath_ (getAccountPaths configRoot a)) →
         files (tool rawArgs fs).2 !! path = files fs !! path)
    ∧ (quiet_writes →
       (tool rawArgs fs).2 = fs
       ∨ (tool rawArgs fs).2 = (loadConfig configRoot fs).2).
Proof.
  intros Htool rawArgs fs accountId messageIds labelIds.
  assert (Hsingle : ∀ (operation : list jsstring → GmailAccountClient → IO nat),
            (∀ ids client,
               operation ids client
               ∈ [markAsRead client ids; archiveEmails client ids;
                  trashEmails client ids; addLabels client ids [];
                  removeLabels client ids []]) →
            tool rawArgs fs
            = (args ← lift messageIds;
               config ← loadConfig configRoot;
               account ← lift (resolveWriteAccount config (Some accountId));
               client ← getClientForAccount configRoot account;
               updated ← operation args client;
               mret {| updated := updated; updated_account := account;
                       updated_labels := None |}) fs →
            (∀ e, messageIds = Err e → tool rawArgs fs = (Err e, fs))
            ∧ (∀ ids labels config,
                 messageIds = Ok ids → labelIds = Ok labels →
                 (loadConfig configRoot fs).1 = Ok config →
                 is_empty (trim accountId) = true →
                 (tool rawArgs fs).1 = Err AccountRequired)
            ∧ (∀ out,
                 (tool rawArgs fs).1 = Ok out →
                 ∃ config ids,
                   (loadConfig configRoot fs).1 = Ok config
                   ∧ messageIds = Ok ids
                   ∧ resolveWriteAccount config (Some accountId)
                     = Ok (updated_account out)
                   ∧ updated_account out ∈ accounts config
                   ∧ id (updated_account out) = accountId
                   ∧ enabled (updated_account out) = true
                   ∧ updated out = length (sanitizeMessageIds ids)
                   ∧ (1 ≤ updated out)%nat)
            ∧ (∀ path,
                 path ≠ getAccountsFilePath configRoot →
                 (∀ config a,
                    (loadConfig configRoot fs).1 = Ok config →
                    resolveWriteAccount config (Some accountId) = Ok a →
                    path ≠ tokenPath_ (getAccountPaths configRoot a)) →
                 files (tool rawArgs fs).2 !! path = files fs !! path)
            ∧ (quiet_writes →
               (tool rawArgs fs).2 = fs
               ∨ (tool rawArgs fs).2 = (loadConfig configRoot fs).2)).
  { intros operation Hoperation Hsteps.
    destruct (update_steps messageIds operation (fun _ => None)
                (fun ids => length (sanitizeMessageIds ids)) accountId fs
                (tool rawArgs) Hsteps)
      as (Hfail & Hblank & Hdone & Hfiles & Hquiet).
    - intros ids client fs' n Hn.
      assert (Hcounts : n = length (sanitizeMessageIds ids)
                        ∧ (1 ≤ n)%nat ∧ (n ≤ length ids)%nat).
      { apply (update_counts client ids [] n fs').
        specialize (Hoperation ids client).
        repeat (apply elem_of_cons in Hoperation as [Heq|Hoperation]);
          [| | | | |by apply elem_of_nil in Hoperation];
          rewrite Heq in Hn; tauto. }
      tauto.
    - intros ids client fs' path Hpath.
      by apply (update_other_files client ids []).
    - intros Hq ids client fs'. by apply (update_quiet client ids []).
    - split; [done|].
      split; [by intros ids labels config ? _; apply (Hblank ids)|].
      done. }
  assert (Hlabelled :
            ∀ (operation : list jsstring → list jsstring → GmailAccountClient → IO nat),
            (∀ ids labels client,
               operation ids labels client
               ∈ [markAsRead client ids; archiveEmails client ids;
                  trashEmails client ids; addLabels client ids labels;
                  removeLabels client ids labels]) →
            (∀ fs,
               tool rawArgs fs
               = (args_message_ids ← lift messageIds;
                  args_label_ids ← lift labelIds;
                  config ← loadConfig configRoot;
                  account ← lift (resolveWriteAccount config (Some accountId));
                  client ← getClientForAccount configRoot account;
                  updated ← operation args_message_ids args_label_ids client;
                  mret {| updated := updated; updated_account := account;
                          updated_labels := Some args_label_ids |}) fs) →
            (∀ ids e, messageIds = Ok ids → labelIds = Err e →
                      tool rawArgs fs = (Err e, fs))
            ∧ (∀ e, messageIds = Err e → tool rawArgs fs = (Err e, fs))
            ∧ (∀ ids labels config,
                 messageIds = Ok ids → labelIds = Ok labels →
                 (loadConfig configRoot fs).1 = Ok config →
                 is_empty (trim accountId) = true →
                 (tool rawArgs fs).1 = Err AccountRequired)
            ∧ (∀ out,
                 (tool rawArgs fs).1 = Ok out →
                 ∃ config ids,
                   (loadConfig configRoot fs).1 = Ok config
                   ∧ messageIds = Ok ids
                   ∧ resolveWriteAccount config (Some accountId)
                     = Ok (updated_account out)
                   ∧ updated_account out ∈ accounts config
                   ∧ id (updated_account out) = accountId
                   ∧ enabled (updated_account out) = true
                   ∧ updated out = length (sanitizeMessageIds ids)
                   ∧ (1 ≤ updated out)%nat)
            ∧ (∀ path,
                 path ≠ getAccountsFilePath configRoot →
                 (∀ config a,
                    (loadConfig configRoot fs).1 = Ok config →
                    resolveWriteAccount config (Some accountId) = Ok a →
                    path ≠ tokenPath_ (getAccountPaths configRoot a)) →
                 files (tool rawArgs fs).2 !! path = files fs !! path)
            ∧ (quiet_writes →
               (tool rawArgs fs).2 = fs
               ∨ (tool rawArgs fs).2 = (loadConfig configRoot fs).2)).
  { intros operation Hoperation Hsteps.
    destruct (update_steps
                (ids ← messageIds; labels ← labelIds; Ok (ids, labels))
                (fun args => operation args.1 args.2)
                (fun args => Some args.2)
                (fun args => length (sanitizeMessageIds args.1)) accountId fs
                (tool rawArgs))
      as (Hfail & Hblank & Hdone & Hfiles & Hquiet).
    - rewrite Hsteps, !lift_bind.
      destruct messageIds as [ids|e]; [|done]. cbn [Result_rect mbind Result_mbind
        Result_bind]. rewrite !lift_bind. by destruct labelIds as [labels|e].
    - intros [ids labels] client fs' n Hn. cbn [fst snd] in *.
      assert (Hcounts : n = length (sanitizeMessageIds ids)
                        ∧ (1 ≤ n)%nat ∧ (n ≤ length ids)%nat).
      { apply (update_counts client ids labels n fs').
        specialize (Hoperation ids labels client).
        repeat (apply elem_of_cons in Hoperation as [Heq|Hoperation]);
          [| | | | |by apply elem_of_nil in Hoperation];
          rewrite Heq in Hn; tauto. }
      tauto.
    - intros [ids labels] client fs' path Hpath.
      by apply (update_other_files client ids labels).
    - intros Hq [ids labels] client fs'. by apply (update_quiet client ids labels).
    - split; [by intros ids e Hids He; apply Hfail; rewrite Hids, He|].
      split; [by intros e He; apply Hfail; rewrite He|].
      split.
      { intros ids labels config Hids Hlabels. apply (Hblank (ids, labels)).
        by rewrite Hids, Hlabels. }
      split; [|done].
      intros out Hout.
      destruct (Hdone out Hout) as (config & [ids labels] & Hload & Hargs & Hrest).
      exists config, ids. split; [done|]. split; [|done].
      destruct messageIds as [ids'|e]; [|done].
      destruct labelIds as [labels'|e]; [|done].
      by injection Hargs as -> _. }
  assert (Hlabels : ∀ ids e, messageIds = Ok ids → labelIds = Err e →
            handleAddLabels configRoot rawArgs fs = (Err e, fs)
            ∧ handleRemoveLabels configRoot rawArgs fs = (Err e, fs)).
  { intros ids e Hids He. unfold handleAddLabels, handleRemoveLabels.
    fold messageIds labelIds. rewrite !lift_bind, Hids. cbn [Result_rect].
    rewrite !lift_bind, He. done. }
  repeat (apply elem_of_cons in Htool as [->|Htool]);
    [| | | | |by apply elem_of_nil in Htool].
  - destruct (Hsingle (fun ids client => markAsRead client ids))
      as (? & ? & ? & ? & ?); [by intros; left|reflexivity|done].
  - destruct (Hlabelled (fun ids labels client => addLabels client ids labels))
      as (? & ? & ? & ? & ? & ?); [by intros; do 3 right; left|reflexivity|done].
  - destruct (Hlabelled (fun ids labels client => removeLabels client ids labels))
      as (? & ? & ? & ? & ? & ?); [by intros; do 4 right; left|reflexivity|done].
  - destruct (Hsingle (fun ids client => archiveEmails client ids))
      as (? & ? & ? & ? & ?); [by intros; right; left|reflexivity|done].
  - destruct (Hsingle (fun ids client => trashEmails client ids))
      as (? & ? & ? & ? & ?); [by intros; do 2 right; left|reflexivity|done].
Qed.
End WriteTools.

(** ** The onboarding steps *)

Lemma try_catch_default {A} (body : IO A) (fallback : A) (fs : FileSystem) :
  try_catch body (fun _ => mret fallback) fs
  = (Ok match (body fs).1 with Ok x => x | Err _ => fallback end, (body fs).2).
Proof. unfold try_catch. by destruct (body fs) as [[x|e] fs']. Qed.

Section OnboardingSteps.
Context `{Runtime} `{GmailApi} `{OAuthUrlApi}.
Variable configRoot : jsstring.

Lemma not_truthy_string (s : jsstring) : s = [] → truthy_string s = false.
Proof. by intros ->. Qed.

Lemma truthy_string_nonempty (s : jsstring) : s ≠ [] → truthy_string s = true.
Proof. by destruct s. Qed.

(** Both onboarding steps check their arguments before they touch the disk:
    without an account id each fails with the account-id error; the first
    step then wants an email, the second an authorization code; and an
    account id outside the identifier pattern is refused by both.  In each
    of these cases the disk is exactly as it was.  The second step, for an
    id that matches the pattern but that the loaded registry does not hold,
    fails with UnknownAccount. *)
Theorem onboarding_argument_checks (rawArgs : list (jsstring * json)) (fs : FileSystem) :
  let accountId := valueToString (get_field rawArgs (js "account_id")) [] in
  let address := valueToString (get_field rawArgs (js "email")) [] in
  let authorizationCode :=
    valueToString (get_field rawArgs (js "authorization_code")) [] in
  (accountId = [] →
   handleBeginAccountAuth configRoot rawArgs fs
   = (Err (ArgumentRequired (js "account_id")), fs)
   ∧ handleFinishAccountAuth configRoot rawArgs fs
     = (Err (ArgumentRequired (js "account_id")), fs))
  ∧ (accountId ≠ [] → address = [] →
     handleBeginAccountAuth configRoot rawArgs fs
     = (Err (ArgumentRequired (js "email")), fs))
  ∧ (accountId ≠ [] → authorizationCode = [] →
     handleFinishAccountAuth configRoot rawArgs fs
     = (Err (ArgumentRequired (js "authorization_code")), fs))
  ∧ (accountId ≠ [] → ACCOUNT_ID_PATTERN_test accountId = false →
     (address ≠ [] →
      handleBeginAccountAuth configRoot rawArgs fs
      = (Err (InvalidAccountId accountId), fs))
     ∧ (authorizationCode ≠ [] →
        handleFinishAccountAuth configRoot rawArgs fs
        = (Err (InvalidAccountId accountId), fs)))
  ∧ (∀ config,
       authorizationCode ≠ [] → ACCOUNT_ID_PATTERN_test accountId = true →
       (loadConfig configRoot fs).1 = Ok config →
       (∀ a, a ∈ accounts config → id a ≠ accountId) →
       handleFinishAccountAuth configRoot rawArgs fs
       = (Err (UnknownAccount accountId), (loadConfig configRoot fs).2)).
Proof.
  cbv zeta.
  set (accountId := valueToString (get_field rawArgs (js "account_id")) []).
  set (address := valueToString (get_field rawArgs (js "email")) []).
  set (authorizationCode :=
         valueToString (get_field rawArgs (js "authorization_code")) []).
  unfold handleBeginAccountAuth, handleFinishAccountAuth.
  fold accountId address authorizationCode.
  split; [|split; [|split; [|split]]].
  - intros Hid. by rewrite (not_truthy_string _ Hid).
  - intros Hid Haddress.
    by rewrite (truthy_string_nonempty _ Hid), (not_truthy_string _ Haddress).
  - intros Hid Hcode.
    by rewrite (truthy_string_nonempty _ Hid), (not_truthy_string _ Hcode).
  - intros Hid Hp. rewrite (truthy_string_nonempty _ Hid). split.
    + intros Haddress. rewrite (truthy_string_nonempty _ Haddress). cbn [negb].
      by rewrite lift_bind, (validateAccountId_err _ Hp).
    + intros Hcode. rewrite (truthy_string_nonempty _ Hcode). cbn [negb].
      by rewrite lift_bind, (validateAccountId_err _ Hp).
  - intros config Hcode Hp Hload Hnone.
    assert (Hid : accountId ≠ []) by (by intros Hnil; rewrite Hnil in Hp).
    rewrite (truthy_string_nonempty _ Hid), (truthy_string_nonempty _ Hcode).
    cbn [negb]. rewrite lift_bind, (validateAccountId_ok _ Hp). rewrite io_bind.
    destruct (loadConfig configRoot fs) as [[c|e] fs1]; simpl in Hload; [|done].
    injection Hload as ->. rewrite lift_bind.
    by rewrite (getAccountOrThrow_absent _ _ Hp Hnone).
Qed.

Lemma saveAccountsConfig_result (config : AccountsConfig) (fs : FileSystem) :
  saveAccountsConfig configRoot config fs
  = (Ok (), (saveAccountsConfig configRoot config fs).2).
Proof. reflexivity. Qed.

Lemma saveAccountsConfig_files (config : AccountsConfig) (fs : FileSystem) :
  files (saveAccountsConfig configRoot config fs).2
  = <[getAccountsFilePath configRoot :=
        JSON_stringify (config_to_json config) ++ js (String "010" "")]> (files fs).
Proof. reflexivity. Qed.

Lemma getProfileEmail_disk (client : GmailAccountClient) (fs : FileSystem) :
  (getProfileEmail client fs).2
  = (emitted (client_paths client) (cachedTokens client)
       (refreshed (users_getProfile client)) fs).2.
Proof.
  unfold getProfileEmail. rewrite io_bind, awaited_run.
  destruct (answer (users_getProfile client)) as [[address|]|e]; try done.
  by destruct (truthy_string address).
Qed.

(** The second onboarding step, when the exchange answers a payload with an
    access token or a refresh token and the account's client can be made on
    the disk the step has written: the step succeeds; the registry file
    holds the registry in which the account is enabled, with the paths the
    step used and with the address of the provider's profile, or the
    address it had when the profile cannot be fetched; the default account
    is the one that was set, or this account when none was; and the entry
    of every other id is what it was.  The step writes the payload to the
    token file, and the client it makes writes its own token file again
    when the provider refreshes the token during the profile call: when it
    refreshes none the token file holds the payload, and in any case no
    file but the registry and these token files is changed. *)
Theorem finish_with_tokens (rawArgs : list (jsstring * json)) (fs : FileSystem)
    (config : AccountsConfig) (a : AccountConfig) (raw : jsstring)
    (credentials : json) (tokens : list (jsstring * json))
    (client : GmailAccountClient) :
  let accountId := valueToString (get_field rawArgs (js "account_id")) [] in
  let authorizationCode :=
    valueToString (get_field rawArgs (js "authorization_code")) [] in
  let paths := getAccountPaths configRoot a in
  let exchanged := disk_after_exchange configRoot config a tokens fs in
  let profile := getProfileEmail client exchanged in
  let address :=
    match profile.1 with
    | Ok profileEmail => profileEmail
    | Err _ => email a
    end in
  let final :=
    {| defaultAccount := default_or config accountId;
       accounts := accounts (upsertAccount config (enabled_entry a paths address)) |} in
  let saved := (saveAccountsConfig configRoot final profile.2).2 in
  truthy_string authorizationCode = true →
  (loadConfig configRoot fs).1 = Ok config →
  getAccountOrThrow config accountId = Ok a →
  files fs !! credentialsPath paths = Some raw →
  JSON_decode raw = inr credentials →
  exchangeCodeForToken credentials authorizationCode = Ok tokens →
  truthy (get_field tokens (js "access_token")) = true
  ∨ truthy (get_field tokens (js "refresh_token")) = true →
  (getClientForAccount configRoot (enabled_entry a paths (email a)) exchanged).1
  = Ok client →
  handleFinishAccountAuth configRoot rawArgs fs
  = (Ok {| finished_account := accountId; finished_email := address;
           finished_tokenFile := tokenPath_ paths |}, saved)
  ∧ files saved !! getAccountsFilePath configRoot
    = Some (JSON_stringify (config_to_json final) ++ js (String "010" ""))
  ∧ (∀ path,
       path ≠ getAccountsFilePath configRoot →
       path ≠ tokenPath_ paths → path ≠ tokenPath_ (client_paths client) →
       files saved !! path = files fs !! path)
  ∧ (refreshed (users_getProfile client) = [] →
     files saved
     = <[getAccountsFilePath configRoot :=
           JSON_stringify (config_to_json final) ++ js (String "010" "")]>
         (<[tokenPath_ paths :=
              JSON_stringify (JObject tokens) ++ js (String "010" "")]> (files fs)))
  ∧ getAccountOrThrow final accountId = Ok (enabled_entry a paths address)
  ∧ (∀ other, other ≠ accountId →
       getAccountOrThrow final other = getAccountOrThrow config other).
Proof.
  intros accountId authorizationCode paths exchanged profile address final saved
    Hcode Hload Hget Hraw Hdecode Hexchange Htokens Hclient.
  apply getAccountOrThrow_Ok in Hget as Hok. destruct Hok as (Hp & Hida & Hin).
  assert (Hne : accounts config ≠ []).
  { intros Hnil. rewrite Hnil in Hin. by apply elem_of_nil in Hin. }
  assert (Hid : truthy_string accountId = true).
  { apply truthy_string_nonempty. intros Hnil. by rewrite Hnil in Hp. }
  destruct (loadConfig configRoot fs) as [[c|e] fs1] eqn:Hload'; simpl in Hload; [|done].
  injection Hload as ->.
  destruct (loadAccountsConfig_files configRoot _ _ _ Hload' Hne)
    as (rawc & Hrawc & _ & ->).
  assert (Hentry : ∀ x, id (enabled_entry a paths x) = accountId) by done.
  assert (Hfinal : ∀ other, getAccountOrThrow final other
                            = getAccountOrThrow
                                (upsertAccount config (enabled_entry a paths address))
                                other) by done.
  assert (Hexchanged :
            files exchanged
            = <[getAccountsFilePath configRoot :=
                  JSON_stringify
                    (config_to_json
                       (upsertAccount config (enabled_entry a paths (email a))))
                  ++ js (String "010" "")]>
                (<[tokenPath_ paths :=
                     JSON_stringify (JObject tokens) ++ js (String "010" "")]>
                   (files fs))) by reflexivity.
  split; [|split; [|split; [|split; [|split]]]].
  - unfold handleFinishAccountAuth. fold accountId authorizationCode.
    rewrite Hid, Hcode. cbn [negb].
    rewrite lift_bind, (validateAccountId_ok _ Hp).
    rewrite io_bind, Hload'. rewrite lift_bind, Hget. rewrite io_bind. fold paths.
    rewrite (readCredentialsFile_present (with_layout configRoot fs) _ raw credentials)
      by done.
    rewrite lift_bind, Hexchange.
    assert (Hcheck : negb (truthy (get_field tokens (js "access_token")))
                     && negb (truthy (get_field tokens (js "refresh_token"))) = false).
    { destruct Htokens as [-> | ->]; [done|]. by rewrite andb_false_r. }
    rewrite Hcheck. rewrite io_bind. unfold fs_writeFile at 1.
    rewrite io_bind, saveAccountsConfig_result.
    fold (enabled_entry a paths (email a)).
    change (saveAccountsConfig configRoot
              (upsertAccount config (enabled_entry a paths (email a))) _).2
      with exchanged.
    rewrite lift_bind.
    rewrite <- (Hentry (email a)) at 1.
    rewrite upsertAccount_lookup_new by (by rewrite Hentry).
    rewrite io_bind.
    pose proof (GmailAccountClient_create_disk configRoot
                  (enabled_entry a paths (email a)) exchanged) as Hdisk.
    unfold getClientForAccount in *.
    destruct (GmailAccountClient_create configRoot _ exchanged) as [[cl|e] fs2];
      simpl in Hclient, Hdisk; [|done].
    injection Hclient as ->. subst fs2.
    rewrite io_bind, try_catch_default. fold profile.
    change {| id := id (enabled_entry a paths (email a));
              email :=
                match profile.1 with
                | Ok profileEmail => profileEmail
                | Err _ => email (enabled_entry a paths (email a))
                end;
              displayName := displayName (enabled_entry a paths (email a));
              enabled := true;
              credentialPath := credentialPath (enabled_entry a paths (email a));
              tokenPath := tokenPath (enabled_entry a paths (email a)) |}
      with (enabled_entry a paths address).
    change (match profile.1 with
            | Ok profileEmail => profileEmail
            | Err _ => email (enabled_entry a paths (email a))
            end) with address.
    rewrite (upsertAccount_twice config (enabled_entry a paths (email a))
               (enabled_entry a paths address) eq_refl).
    rewrite io_bind.
    assert (Hsame :
      match defaultAccount (upsertAccount config (enabled_entry a paths address)) with
      | Some d =>
          if truthy_string d
          then upsertAccount config (enabled_entry a paths address)
          else {| defaultAccount := Some accountId;
                  accounts := accounts (upsertAccount config
                                          (enabled_entry a paths address)) |}
      | None => {| defaultAccount := Some accountId;
                   accounts := accounts (upsertAccount config
                                           (enabled_entry a paths address)) |}
      end = final).
    { unfold final, default_or.
      assert (Hd : defaultAccount (upsertAccount config (enabled_entry a paths address))
                   = defaultAccount config)
        by (unfold upsertAccount; by destruct (findIndex _ _)).
      rewrite Hd.
      destruct (defaultAccount config) as [d|] eqn:Hdefault; [|done].
      destruct (truthy_string d); [|done].
      destruct (upsertAccount config (enabled_entry a paths address)) as [d' l'].
      simpl in *. by rewrite Hd. }
    rewrite Hsame. rewrite saveAccountsConfig_result. reflexivity.
  - unfold saved. rewrite saveAccountsConfig_files. by rewrite lookup_insert_eq.
  - intros path Hregistry Htoken Hlistener. unfold saved.
    rewrite saveAccountsConfig_files, lookup_insert_ne by done.
    unfold profile. rewrite getProfileEmail_disk, emitted_other_files by done.
    rewrite Hexchanged. by rewrite !lookup_insert_ne.
  - intros Hquiet. unfold saved. rewrite saveAccountsConfig_files.
    unfold profile. rewrite getProfileEmail_disk, Hquiet. cbn [emitted].
    cbn [mret IO_mret snd]. rewrite Hexchanged. by rewrite insert_insert_eq.
  - rewrite Hfinal. rewrite <- (Hentry address) at 1.
    apply upsertAccount_lookup_new. by rewrite Hentry.
  - intros other Hother. rewrite Hfinal.
    apply upsertAccount_lookup_other. by rewrite Hentry.
Qed.
End OnboardingSteps.

Section FirstStep.
Context `{Runtime} `{OAuthUrlApi}.
Variable configRoot : jsstring.

(** The first onboarding step with the credentials given inline as an
    object writes them to the account's credentials file before it looks at
    them: when no client can be made of them the step fails with that error
    and the file stays written.  When a client can be made and the registry
    loads, the step succeeds with the authorization address of that client
    and saves the registry with the account entered as pending: disabled,
    with the default paths, whatever entry the id had before; the entry of
    every other id is what it was. *)
Theorem begin_with_credentials (rawArgs : list (jsstring * json)) (fs : FileSystem)
    (fields : list (jsstring * json)) :
  let accountId := valueToString (get_field rawArgs (js "account_id")) [] in
  let address := valueToString (get_field rawArgs (js "email")) [] in
  let name := optional_argument (get_field rawArgs (js "display_name")) in
  let written := disk_with_credentials configRoot accountId (JObject fields) fs in
  let pending := pending_entry configRoot accountId address name in
  truthy_string address = true →
  ACCOUNT_ID_PATTERN_test accountId = true →
  get_field rawArgs (js "credentials_json") = Some (JObject fields) →
  (∀ e, createOAuthClientFromCredentials (JObject fields) = Err e →
        handleBeginAccountAuth configRoot rawArgs fs = (Err e, written))
  ∧ (∀ oauth config,
       createOAuthClientFromCredentials (JObject fields) = Ok oauth →
       (loadConfig configRoot written).1 = Ok config →
       handleBeginAccountAuth configRoot rawArgs fs
       = (Ok {| begun_account := accountId; begun_email := address;
                begun_credentialsFile :=
                  credentialsPath (getDefaultAccountPaths configRoot accountId);
                begun_authUrl := oauth_generateAuthUrl oauth |},
          (saveAccountsConfig configRoot (upsertAccount config pending)
             (loadConfig configRoot written).2).2)
       ∧ getAccountOrThrow (upsertAccount config pending) accountId = Ok pending
       ∧ (∀ other, other ≠ accountId →
            getAccountOrThrow (upsertAccount config pending) other
            = getAccountOrThrow config other)).
Proof.
  intros accountId address name written pending Haddress Hp Hcredentials.
  assert (Hid : truthy_string accountId = true).
  { destruct accountId eqn:Ha; [|done]. done. }
  assert (Hstart : ∀ k : OAuth2Client * jsstring → IO BeginOutput,
    handleBeginAccountAuth configRoot rawArgs fs
    = (generated ← lift (generateAuthUrlFromCredentials (JObject fields));
       config ← loadConfig configRoot;
       _ ← saveAccountsConfig configRoot (upsertAccount config pending);
       mret {| begun_account := accountId; begun_email := address;
               begun_credentialsFile :=
                 credentialsPath (getDefaultAccountPaths configRoot accountId);
               begun_authUrl := generated.2 |}) written).
  { intros _. unfold handleBeginAccountAuth. fold accountId address name.
    rewrite Hid, Haddress. cbn [negb].
    rewrite lift_bind, (validateAccountId_ok _ Hp).
    rewrite io_bind. unfold ensureConfigLayout at 1, fs_mkdir at 1.
    rewrite io_bind. unfold fs_mkdir at 1.
    rewrite io_bind, Hcredentials. unfold parseCredentialsInput, mret, IO_mret.
    rewrite io_bind. unfold fs_writeFile at 1. reflexivity. }
  specialize (Hstart (fun _ => lift (Err AccountRequired))).
  split.
  - intros e He. rewrite Hstart, lift_bind.
    unfold generateAuthUrlFromCredentials. by rewrite He.
  - intros oauth config Hoauth Hload.
    split; [|split].
    + rewrite Hstart, lift_bind.
      unfold generateAuthUrlFromCredentials. rewrite Hoauth.
      cbn [mbind Result_mbind Result_bind]. rewrite io_bind.
      destruct (loadConfig configRoot written) as [[c|e] fs2]; simpl in Hload; [|done].
      injection Hload as ->. rewrite io_bind. reflexivity.
    + apply (upsertAccount_lookup_new config pending Hp).
    + intros other Hother. by apply upsertAccount_lookup_other.
Qed.
End FirstStep.

(** ** Lists of strings among the arguments *)

Section StringArrays.
Context `{NumberFormat}.

(** A list-of-strings argument is read leniently: anything that is not an
    array counts as the empty list; every string that comes out is trimmed
    and not empty; and an array of strings gives its trimmed non-blank
    strings, in order and with repeats kept.  An array that starts with an
    object that has a property [toString] of its own cannot be read: the
    conversion of that element to a string throws. *)
Theorem valueToStringArray_spec (value : option json) :
  (∀ strings x, valueToStringArray value = Ok strings → x ∈ strings →
                x ≠ [] ∧ trim x = x)
  ∧ (∀ strings,
       value = Some (JArray (JString <$> strings)) →
       valueToStringArray value = Ok (List.filter truthy_string (trim <$> strings)))
  ∧ ((∀ items, value ≠ Some (JArray items)) → valueToStringArray value = Ok [])
  ∧ (∀ fields items,
       is_Some (get_field fields (js "toString")) →
       value = Some (JArray (JObject fields :: items)) →
       valueToStringArray value = Err not_primitive).
Proof.
  split; [|split; [|split]].
  - intros strings x Hstrings Hx. unfold valueToStringArray in Hstrings.
    assert (Hfiltered : ∃ l, strings = List.filter truthy_string (trim <$> l)).
    { destruct value as [[| | | |items|]|];
        try (exists []; by injection Hstrings as <-).
      destruct (traverse js_String items) as [l|e]; [|done].
      exists l. by injection Hstrings as <-. }
    destruct Hfiltered as [l ->].
    apply list_elem_of_In, filter_In in Hx as [Hx Hne].
    apply list_elem_of_In, list_elem_of_fmap in Hx as (y & -> & _).
    split; [by destruct (trim y)|apply trim_idempotent].
  - intros strings ->. unfold valueToStringArray.
    assert (Hstrings : traverse js_String (JString <$> strings) = Ok strings).
    { induction strings as [|x l IH]; [done|]. rewrite fmap_cons. cbn [traverse].
      cbn [js_String]. by rewrite IH. }
    by rewrite Hstrings.
  - intros Hvalue. unfold valueToStringArray.
    destruct value as [[| | | |items|]|]; try done. by destruct (Hvalue items).
  - intros fields items [v Hv] ->. unfold valueToStringArray. cbn [traverse js_String].
    by rewrite Hv.
Qed.
End StringArrays.

(** ** The account argument of the read and of the write tools *)

Lemma trimStart_space (s : jsstring) : trimStart (32 :: s) = trimStart s.
Proof. reflexivity. Qed.

Lemma pattern_trimStart (s : jsstring) :
  ACCOUNT_ID_PATTERN_test s = true → trimStart s = s.
Proof.
  intros Hs. destruct s as [|c r]; [done|].
  apply trimStart_head, account_id_char_not_whitespace, (pattern_all_chars _ _ Hs).
  left.
Qed.

Lemma trim_padded (s : jsstring) :
  ACCOUNT_ID_PATTERN_test s = true → trim (32 :: s ++ [32]) = s.
Proof.
  intros Hs. unfold trim. rewrite trimStart_space.
  assert (Hstart : trimStart (s ++ [32]) = s ++ [32]).
  { destruct s as [|c r]; [done|].
    apply (trimStart_head c (r ++ [32])), account_id_char_not_whitespace,
      (pattern_all_chars _ _ Hs). left. }
  rewrite Hstart. unfold trimEnd. rewrite rev_unit, trimStart_space.
  pose proof (pattern_trim _ Hs) as Htrim. unfold trim, trimEnd in Htrim.
  by rewrite (pattern_trimStart _ Hs) in Htrim.
Qed.

(** The read tools trim the account they are given and the write tools do
    not: an id that matches the pattern, given with a blank before and after
    it, selects for a read what the bare id selects, and is refused as an
    invalid id for a write. *)
Theorem padded_account_argument (config : AccountsConfig) (s : jsstring) :
  ACCOUNT_ID_PATTERN_test s = true →
  let rawArgs := [(js "account", JString (32 :: s ++ [32]))] in
  resolveReadAccounts config (account_argument rawArgs)
  = resolveReadAccounts config (Some s)
  ∧ resolveWriteAccount config (Some (valueToString (get_field rawArgs (js "account")) []))
    = Err (InvalidAccountId (32 :: s ++ [32])).
Proof.
  intros Hs rawArgs. split.
  - unfold account_argument, rawArgs. cbn [get_field].
    rewrite bool_decide_eq_true_2 by done. cbn [valueToString].
    rewrite (trim_padded _ Hs). by destruct s.
  - unfold rawArgs. cbn [get_field]. rewrite bool_decide_eq_true_2 by done.
    cbn [valueToString].
    rewrite resolveWriteAccount_explicit.
    + rewrite getAccountOrThrow_invalid; [done|]. reflexivity.
    + rewrite (trim_padded _ Hs). by destruct s.
Qed.

(** ** The properties on the sample data *)

Lemma fan_out_aggregation_witness :
  ∃ text,
    (@handleReadEmails inbox_runtime sample_builtins inbox_api (js "/cfg")
       [(js "max_results", JNumber (Fin 10))] inbox_disk).1
    = Ok (textResult text).
Proof.
  destruct (@fan_out_aggregation inbox_runtime sample_builtins inbox_api (js "/cfg")
              [(js "max_results", JNumber (Fin 10))] inbox_disk
              (@with_layout inbox_runtime (js "/cfg") inbox_disk)
              {| defaultAccount := None;
                 accounts := [inbox_account "A"; inbox_account "B"; inbox_account "C"] |}
              [inbox_account "A"; inbox_account "B"; inbox_account "C"])
    as (_ & _ & _ & _ & _ & _ & Hprintable & _).
  - vm_compute. reflexivity.
  - vm_compute. reflexivity.
  - apply Hprintable.
    match goal with
    | |- Forall printable ?l =>
        assert (Hreturned : l = [sample_email "B" "b200" 200; sample_email "A" "a100" 100;
                                 sample_email "A" "a50" 50])
          by (vm_compute; reflexivity);
        rewrite Hreturned
    end.
    repeat (constructor; [right; reflexivity|]). constructor.
Defined.

Lemma truncation_is_global_witness :
  ∃ sorted,
    sorted ≡ₚ [sample_email "A" "a90" 90; sample_email "A" "a80" 80;
               sample_email "A" "a70" 70; sample_email "B" "b60" 60]
    ∧ StronglySorted descending sorted
    ∧ take 2 sorted = [sample_email "A" "a90" 90; sample_email "A" "a80" 80].
Proof.
  destruct (@truncation_is_global inbox_runtime sample_builtins busy_api (js "/cfg")
              [(js "max_results", JNumber (Fin 2))] pair_disk
              (@with_layout inbox_runtime (js "/cfg") pair_disk)
              {| defaultAccount := None;
                 accounts := [inbox_account "A"; inbox_account "B"] |}
              [inbox_account "A"; inbox_account "B"])
    as (_ & (sorted & n & Hperm & Hsorted & _ & _ & Hcut) & _).
  - vm_compute. reflexivity.
  - vm_compute. reflexivity.
  - exists sorted. split; [|split; [exact Hsorted|]].
    + etransitivity; [exact Hperm|]. vm_compute. reflexivity.
    + assert (Hk : (1 ≤ 2 ≤ 100)%Z) by lia.
      assert (Htwo := Hcut 2%Z Hk eq_refl).
      change (Z.to_nat 2) with 2%nat in Htwo. rewrite <- Htwo.
      vm_compute. reflexivity.
Defined.


Lemma sanitizeMessageIds_spec_witness :
  js "m1" ∈ sanitizeMessageIds [js " m1 "; js "  "; js "m1"; js "m2"].
Proof.
  apply (proj1 (proj2 (sanitizeMessageIds_spec [js " m1 "; js "  "; js "m1"; js "m2"]))).
  split; [vm_compute; discriminate|].
  exists (js " m1 "). split; [left|reflexivity].
Defined.

Lemma message_updates_spec_witness :
  @markAsRead sample_runtime sample_write_api sample_client [js "  "; js ""] sample_disk
  = (Err no_message_ids, sample_disk)
  ∧ @addLabels sample_runtime sample_write_api sample_client [js "m1"] [js " "]
      sample_disk
    = (Err no_label_ids, sample_disk)
  ∧ (2%nat = length (sanitizeMessageIds [js "m1"; js " m1"; js "m2"])
     ∧ (1 ≤ 2)%nat ∧ (2 ≤ 3)%nat).
Proof.
  destruct (@message_updates_spec sample_runtime sample_write_api sample_client
              [js "  "; js ""] [] sample_disk)
    as (Hblank & _ & _).
  destruct (@message_updates_spec sample_runtime sample_write_api sample_client
              [js "m1"] [js " "] sample_disk)
    as (_ & _ & Hlabels).
  destruct (@message_updates_spec sample_runtime sample_write_api sample_client
              [js "m1"; js " m1"; js "m2"] [] sample_disk)
    as (_ & Hcount & _).
  split; [|split].
  - apply Hblank. apply Forall_forall. by_evaluation.
  - apply (Hlabels (js "m1")); [left|reflexivity|].
    apply Forall_forall. by_evaluation.
  - apply (Hcount 2%nat). left. reflexivity.
Defined.

Lemma createOAuthClientFromCredentials_spec_witness :
  (∃ c, createOAuthClientFromCredentials sample_credentials = Ok c
        ∧ redirectUri c = JString (js "http://localhost"))
  ∧ createOAuthClientFromCredentials
      (JObject [(js "web", sample_credentials);
                (js "installed", JObject [(js "client_id", JString (js "cid"))])])
    = Err CredentialsIncomplete.
Proof.
  split.
  - exists {| client_id := JString (js "cid"); client_secret := JString (js "secret");
              redirectUri := JString (js "http://localhost") |}.
    split; [reflexivity|].
    apply (proj2 (proj2 (createOAuthClientFromCredentials_spec sample_credentials))
             _ [(js "installed",
                 JObject [(js "client_id", JString (js "cid"));
                          (js "client_secret", JString (js "secret"))])]
             [(js "client_id", JString (js "cid"));
              (js "client_secret", JString (js "secret"))]);
      [reflexivity|reflexivity|reflexivity|by left].
  - rewrite (proj1 (proj2 (createOAuthClientFromCredentials_spec
                             (JObject [(js "web", sample_credentials);
                                       (js "installed",
                                        JObject [(js "client_id", JString (js "cid"))])])))
               _ [(js "client_id", JString (js "cid"))] eq_refl eq_refl).
    reflexivity.
Defined.


Lemma loadAccountsConfig_repeatable_witness :
  files (@loadAccountsConfig sample_runtime (js "/cfg") sample_disk).2
  = files sample_disk
  ∧ (@loadAccountsConfig sample_runtime (js "/cfg")
       (@loadAccountsConfig sample_runtime (js "/cfg") sample_disk).2).1
    = (@loadAccountsConfig sample_runtime (js "/cfg") sample_disk).1.
Proof.
  apply (proj2 (@loadAccountsConfig_repeatable sample_runtime (js "/cfg") sample_disk)).
  by_evaluation.
Defined.

Lemma stored_account_storable : @storable codec_runtime stored_account.
Proof.
  split; [reflexivity|]. split; [reflexivity|].
  split; eexists; (split; [reflexivity|vm_compute; reflexivity]).
Qed.

Lemma save_then_load_witness :
  (@loadAccountsConfig codec_runtime (js "/cfg")
     (@saveAccountsConfig codec_runtime (js "/cfg") stored_registry empty_disk).2).1
  = Ok stored_registry.
Proof.
  apply (proj2 (@save_then_load codec_runtime (js "/cfg") stored_registry empty_disk)).
  - constructor; [apply stored_account_storable|constructor].
  - exists stored_account. split; [left|reflexivity].
  - vm_compute. reflexivity.
Defined.


Lemma getAccountHealth_spec_witness :
  ∃ health,
    @getAccountHealth codec_runtime (js "/cfg") stored_account ready_disk
    = (Ok health, ready_disk)
    ∧ hasTokenFile health = true
    ∧ ready health = true.
Proof.
  destruct (@getAccountHealth_spec codec_runtime (js "/cfg") stored_account ready_disk)
    as (health & Hhealth & _ & _ & Htoken & _ & Hclient).
  exists health. split; [exact Hhealth|]. split.
  - apply Htoken. left. vm_compute. by eexists.
  - apply (Hclient sample_client). vm_compute. reflexivity.
Defined.

Lemma fetchMessages_spec_witness :
  ∃ sorted,
    (@fetchMessages inbox_runtime sample_builtins inbox_api
       {| client_account := inbox_account "A";
          client_paths := @getAccountPaths inbox_runtime (js "/cfg") (inbox_account "A");
          client_auth := client_auth sample_client;
          cachedTokens := JObject [(js "refresh_token", JString (js "r"))] |}
       [] (Fin 1000) false inbox_disk).1
    = Ok sorted
    ∧ sorted ≡ₚ [sample_email "A" "a100" 100; sample_email "A" "a50" 50]
    ∧ length sorted = 2%nat.
Proof.
  destruct (proj1 (proj1 (proj2 (@fetchMessages_spec inbox_runtime sample_builtins
                                   inbox_api
              {| client_account := inbox_account "A";
                 client_paths :=
                   @getAccountPaths inbox_runtime (js "/cfg") (inbox_account "A");
                 client_auth := client_auth sample_client;
                 cachedTokens := JObject [(js "refresh_token", JString (js "r"))] |}
              [] (Fin 1000) false inbox_disk))
              (Some [listed "a100"; blank_message; listed "a50"]) eq_refl)
              [dated_message (js "a100"); dated_message (js "a50")] eq_refl)
    as (sorted & Hfetch & Hperm & _ & Hlength).
  exists sorted. split; [exact Hfetch|]. split; [|exact Hlength].
  etransitivity; [exact Hperm|]. vm_compute. reflexivity.
Defined.

Lemma returned_are_newest_witness :
  ∃ omitted,
    [sample_email "A" "a90" 90; sample_email "A" "a80" 80] ++ omitted
    ≡ₚ [sample_email "A" "a90" 90; sample_email "A" "a80" 80;
        sample_email "A" "a70" 70; sample_email "B" "b60" 60]
    ∧ 4%nat = (2 + length omitted)%nat.
Proof.
  destruct (@returned_are_newest inbox_runtime sample_builtins busy_api (js "/cfg")
              [(js "max_results", JNumber (Fin 2))] pair_disk
              (@with_layout inbox_runtime (js "/cfg") pair_disk)
              {| defaultAccount := None;
                 accounts := [inbox_account "A"; inbox_account "B"] |}
              [inbox_account "A"; inbox_account "B"])
    as (_ & omitted & Hperm & _ & Htotal & _).
  - vm_compute. reflexivity.
  - vm_compute. reflexivity.
  - exists omitted. split.
    + etransitivity; [|etransitivity; [exact Hperm|]]; vm_compute; reflexivity.
    + etransitivity; [|etransitivity; [exact Htotal|]]; vm_compute; reflexivity.
Defined.

Lemma busy_api_quiet : @quiet_reads busy_api.
Proof.
  split; [done|]. split; [|done].
  intros client query maxResults. cbn. by destruct (bool_decide _).
Qed.

Lemma read_tools_leave_the_disk_witness :
  files (@handleReadEmails inbox_runtime sample_builtins inbox_api (js "/cfg") []
           inbox_disk).2 !! js "/cfg/accounts/A/credentials.json"
  = Some (js "credentials")
  ∧ files (@handleReadEmails inbox_runtime sample_builtins inbox_api (js "/cfg") []
             inbox_disk).2 !! js "/cfg/accounts/A/token.json"
    = Some (js "{refresh_token,access_token}" ++ [10])
  ∧ files (@handleReadEmails inbox_runtime sample_builtins busy_api (js "/cfg") []
             pair_disk).2
    = files pair_disk
  ∧ files (@handleSearchEmails inbox_runtime sample_builtins busy_api (js "/cfg")
             [(js "query", JString (js "is:unread"))] pair_disk).2
    = files pair_disk.
Proof.
  split; [|split; [|split]].
  - rewrite (proj1 (proj1 (@read_tools_leave_the_disk inbox_runtime sample_builtins
                             inbox_api (js "/cfg") [] inbox_disk)
                      (js "/cfg/accounts/A/credentials.json")
                      ltac:(vm_compute; discriminate)
                      ltac:(intros config a Hload Ha _;
                            vm_compute in Hload; injection Hload as <-;
                            apply list_elem_of_In in Ha;
                            destruct Ha as [<-|[<-|[<-|[]]]];
                            vm_compute; discriminate))).
    vm_compute. reflexivity.
  - vm_compute. reflexivity.
  - apply (proj2 (proj2 (@read_tools_leave_the_disk inbox_runtime sample_builtins
                           busy_api (js "/cfg") [] pair_disk) busy_api_quiet)).
    by_evaluation.
  - apply (proj2 (proj2 (@read_tools_leave_the_disk inbox_runtime sample_builtins
                           busy_api (js "/cfg")
                           [(js "query", JString (js "is:unread"))] pair_disk)
                   busy_api_quiet)).
    by_evaluation.
Defined.

Lemma handleReadEmails_first_run_witness :
  (@handleReadEmails sample_runtime sample_builtins sample_api (js "/cfg") []
     empty_disk).1
  = Err NoEnabledAccounts
  ∧ (@handleReadEmails sample_runtime sample_builtins sample_api (js "/cfg")
       [(js "account", JString (js " work "))] empty_disk).1
    = Err (UnknownAccount (js "work"))
  ∧ files (@handleReadEmails sample_runtime sample_builtins sample_api (js "/cfg") []
             empty_disk).2
    = {[ js "/cfg/accounts.json" := js "{}" ++ [10] ]}
  ∧ (@handleReadEmails sample_runtime sample_builtins sample_api (js "/cfg") []
       directory_disk).1
    = Err (ConfigCorrupt
             (FsError (js "EISDIR")
                (js "EISDIR: illegal operation on a directory, read"))).
Proof.
  assert (Habsent : absent (@with_layout sample_runtime (js "/cfg") empty_disk)
                      (@getAccountsFilePath sample_runtime (js "/cfg"))).
  { split; [reflexivity|by_evaluation]. }
  split; [|split; [|split]].
  - apply (proj1 (proj1 (@handleReadEmails_first_run sample_runtime sample_builtins
                           sample_api (js "/cfg") [] empty_disk) Habsent)).
    reflexivity.
  - apply (proj1 (proj2 (proj1 (@handleReadEmails_first_run sample_runtime
                                  sample_builtins sample_api (js "/cfg")
                                  [(js "account", JString (js " work "))] empty_disk)
                           Habsent))
             (js "work")). reflexivity.
  - rewrite (proj2 (proj2 (proj1 (@handleReadEmails_first_run sample_runtime
                                    sample_builtins sample_api (js "/cfg") []
                                    empty_disk) Habsent))).
    vm_compute. reflexivity.
  - rewrite (proj2 (@handleReadEmails_first_run sample_runtime sample_builtins
                      sample_api (js "/cfg") [] directory_disk)).
    + reflexivity.
    + reflexivity.
    + by_evaluation.
Defined.

Lemma handleSearchEmails_requires_query_witness :
  @handleSearchEmails sample_runtime sample_builtins sample_api (js "/cfg")
    [(js "query", JString (js "   "))] sample_disk
  = (Err QueryRequired, sample_disk).
Proof.
  apply (@handleSearchEmails_requires_query sample_runtime sample_builtins sample_api
           (js "/cfg")).
  reflexivity.
Defined.

Lemma write_tools_need_an_enabled_account_witness :
  @handleTrashEmails inbox_runtime sample_format sample_write_api (js "/cfg")
    [(js "account", JString (js "A"));
     (js "message_ids", JArray [JObject [(js "toString", JNumber (Fin 1))]])]
    inbox_disk
  = (Err not_primitive, inbox_disk)
  ∧ (@handleTrashEmails inbox_runtime sample_format sample_write_api (js "/cfg")
       [(js "account", JString (js "  "));
        (js "message_ids", JArray [JString (js "m1")])]
       inbox_disk).1
    = Err AccountRequired
  ∧ (∃ out,
       (@handleMarkAsRead inbox_runtime sample_format sample_write_api (js "/cfg")
          [(js "account", JString (js "A"));
           (js "message_ids",
            JArray [JString (js "m1"); JString (js " m1"); JString (js "m2")])]
          inbox_disk).1
       = Ok out
       ∧ id (updated_account out) = js "A"
       ∧ enabled (updated_account out) = true
       ∧ updated out = 2%nat).
Proof.
  split; [|split].
  - apply (proj1 (@write_tools_need_an_enabled_account inbox_runtime sample_format
                    sample_write_api (js "/cfg")
                    (@handleTrashEmails inbox_runtime sample_format sample_write_api
                       (js "/cfg"))
                    ltac:(do 4 right; left)
                    [(js "account", JString (js "A"));
                     (js "message_ids",
                      JArray [JObject [(js "toString", JNumber (Fin 1))]])]
                    inbox_disk)).
    reflexivity.
  - destruct (@write_tools_need_an_enabled_account inbox_runtime sample_format
                sample_write_api (js "/cfg")
                (@handleTrashEmails inbox_runtime sample_format sample_write_api
                   (js "/cfg"))
                ltac:(do 4 right; left)
                [(js "account", JString (js "  "));
                 (js "message_ids", JArray [JString (js "m1")])]
                inbox_disk)
      as (_ & _ & Hrequired & _).
    cbv zeta in Hrequired.
    eapply Hrequired; [reflexivity|reflexivity|vm_compute; reflexivity|reflexivity].
  - destruct (@write_tools_need_an_enabled_account inbox_runtime sample_format
                sample_write_api (js "/cfg")
                (@handleMarkAsRead inbox_runtime sample_format sample_write_api
                   (js "/cfg"))
                ltac:(left)
                [(js "account", JString (js "A"));
                 (js "message_ids",
                  JArray [JString (js "m1"); JString (js " m1"); JString (js "m2")])]
                inbox_disk)
      as (_ & _ & _ & Hdone & _).
    cbv zeta in Hdone.
    exists {| updated := 2; updated_account := inbox_account "A";
              updated_labels := None |}.
    split; [vm_compute; reflexivity|].
    destruct (Hdone {| updated := 2; updated_account := inbox_account "A";
                       updated_labels := None |})
      as (config & ids & _ & _ & _ & _ & Hid & Hon & _ & _);
      [vm_compute; reflexivity|].
    split; [reflexivity|]. split; [exact Hon|reflexivity].
Defined.

Lemma onboarding_argument_checks_witness :
  @handleFinishAccountAuth sample_runtime sample_api (js "/cfg")
    [(js "authorization_code", JString (js "4/0Ab"))] sample_disk
  = (Err (ArgumentRequired (js "account_id")), sample_disk)
  ∧ @handleBeginAccountAuth sample_runtime sample_url_api (js "/cfg")
      [(js "account_id", JString (js "a/b")); (js "email", JString (js "e@x.com"))]
      sample_disk
    = (Err (InvalidAccountId (js "a/b")), sample_disk)
  ∧ @handleFinishAccountAuth sample_runtime sample_api (js "/cfg")
      [(js "account_id", JString (js "acct2"));
       (js "authorization_code", JString (js "4/0Ab"))] sample_disk
    = (Err (UnknownAccount (js "acct2")),
       (@loadConfig sample_runtime (js "/cfg") sample_disk).2).
Proof.
  split; [|split].
  - apply (proj1 (@onboarding_argument_checks sample_runtime sample_api sample_url_api
                    (js "/cfg") [(js "authorization_code", JString (js "4/0Ab"))]
                    sample_disk)).
    reflexivity.
  - apply (proj1 (proj2 (proj2 (proj2
             (@onboarding_argument_checks sample_runtime sample_api sample_url_api
                (js "/cfg")
                [(js "account_id", JString (js "a/b")); (js "email", JString (js "e@x.com"))]
                sample_disk))))); [vm_compute; discriminate|reflexivity|].
    vm_compute. discriminate.
  - eapply (proj2 (proj2 (proj2 (proj2
             (@onboarding_argument_checks sample_runtime sample_api sample_url_api
                (js "/cfg")
                [(js "account_id", JString (js "acct2"));
                 (js "authorization_code", JString (js "4/0Ab"))]
                sample_disk))))); [vm_compute; discriminate|reflexivity| |].
    + vm_compute. reflexivity.
    + apply Forall_forall. by_evaluation.
Defined.

Lemma finish_with_tokens_witness :
  ∃ fs',
    @handleFinishAccountAuth codec_runtime token_api (js "/cfg")
      [(js "account_id", JString (js "acct1"));
       (js "authorization_code", JString (js "4/0Ab"))] sample_disk
    = (Ok {| finished_account := js "acct1"; finished_email := js "me@x.com";
             finished_tokenFile := js "/cfg/accounts/acct1/token.json" |}, fs')
    ∧ files fs' !! js "/cfg/accounts/acct1/token.json" = Some (js "{}" ++ [10])
    ∧ files fs' !! js "/cfg/accounts/acct1/credentials.json" = Some (js "credentials").
Proof.
  pose proof (@finish_with_tokens codec_runtime token_api (js "/cfg")
                [(js "account_id", JString (js "acct1"));
                 (js "authorization_code", JString (js "4/0Ab"))]
                sample_disk
                {| defaultAccount := None;
                   accounts :=
                     [{| id := js "acct1"; email := js "e@x.com"; displayName := None;
                         enabled := false;
                         credentialPath := Some (js "/cfg/accounts/acct1/credentials.json");
                         tokenPath := Some (js "/cfg/accounts/acct1/token.json") |}] |}
                {| id := js "acct1"; email := js "e@x.com"; displayName := None;
                   enabled := false;
                   credentialPath := Some (js "/cfg/accounts/acct1/credentials.json");
                   tokenPath := Some (js "/cfg/accounts/acct1/token.json") |}
                (js "credentials") sample_credentials
                [(js "access_token", JString (js "t"))]
                {| client_account :=
                     {| id := js "acct1"; email := js "e@x.com"; displayName := None;
                        enabled := true;
                        credentialPath := Some (js "/cfg/accounts/acct1/credentials.json");
                        tokenPath := Some (js "/cfg/accounts/acct1/token.json") |};
                   client_paths := client_paths sample_client;
                   client_auth := client_auth sample_client;
                   cachedTokens := JObject [] |}) as Hfinish.
  cbv zeta in Hfinish.
  destruct Hfinish as (Hok & _ & Hother & Hfiles & _);
    try (vm_compute; reflexivity); [by left|].
  eexists. split; [exact Hok|]. split.
  - rewrite Hfiles by reflexivity. vm_compute. reflexivity.
  - rewrite Hother by (vm_compute; discriminate). reflexivity.
Defined.

Lemma begin_with_credentials_witness :
  (∃ fs',
     @handleBeginAccountAuth sample_runtime sample_url_api (js "/cfg")
       [(js "account_id", JString (js "acct1")); (js "email", JString (js "e@x.com"));
        (js "credentials_json", sample_credentials)] empty_disk
     = (Ok {| begun_account := js "acct1"; begun_email := js "e@x.com";
              begun_credentialsFile := js "/cfg/accounts/acct1/credentials.json";
              begun_authUrl := js "https://accounts.google.com/o/oauth2/v2/auth" |}, fs'))
  ∧ (∃ fs'',
       @handleBeginAccountAuth sample_runtime sample_url_api (js "/cfg")
         [(js "account_id", JString (js "acct1")); (js "email", JString (js "e@x.com"));
          (js "credentials_json", JObject [(js "web", JObject [])])] empty_disk
       = (Err CredentialsIncomplete, fs'')
       ∧ is_Some (files fs'' !! js "/cfg/accounts/acct1/credentials.json")).
Proof.
  split.
  - destruct (@begin_with_credentials sample_runtime sample_url_api (js "/cfg")
                [(js "account_id", JString (js "acct1")); (js "email", JString (js "e@x.com"));
                 (js "credentials_json", sample_credentials)] empty_disk
                [(js "installed",
                  JObject [(js "client_id", JString (js "cid"));
                           (js "client_secret", JString (js "secret"))])]
                eq_refl eq_refl eq_refl) as (_ & Hok).
    cbv zeta in Hok.
    destruct (Hok {| client_id := JString (js "cid"); client_secret := JString (js "secret");
                     redirectUri := JString (js "http://localhost") |}
                emptyConfig eq_refl) as (Hbegin & _).
    + vm_compute. reflexivity.
    + eexists. exact Hbegin.
  - destruct (@begin_with_credentials sample_runtime sample_url_api (js "/cfg")
                [(js "account_id", JString (js "acct1")); (js "email", JString (js "e@x.com"));
                 (js "credentials_json", JObject [(js "web", JObject [])])] empty_disk
                [(js "web", JObject [])] eq_refl eq_refl eq_refl) as (Hfail & _).
    cbv zeta in Hfail. eexists. split; [apply Hfail; reflexivity|].
    by_evaluation.
Defined.

Lemma valueToStringArray_spec_witness :
  @valueToStringArray sample_format
    (Some (JArray (JString <$> [js " a "; js "  "; js "a"])))
  = Ok [js "a"; js "a"]
  ∧ @valueToStringArray sample_format
      (Some (JArray [JObject [(js "toString", JNumber (Fin 1))]; JString (js "m1")]))
    = Err not_primitive.
Proof.
  split.
  - rewrite (proj1 (proj2 (@valueToStringArray_spec sample_format
                             (Some (JArray (JString <$> [js " a "; js "  "; js "a"])))))
               [js " a "; js "  "; js "a"] eq_refl).
    reflexivity.
  - apply (proj2 (proj2 (proj2 (@valueToStringArray_spec sample_format
             (Some (JArray [JObject [(js "toString", JNumber (Fin 1))];
                            JString (js "m1")])))))
             [(js "toString", JNumber (Fin 1))] [JString (js "m1")]);
      [by eexists|reflexivity].
Defined.

Lemma padded_account_argument_witness :
  resolveReadAccounts sample_registry
    (account_argument [(js "account", JString (js " home "))])
  = Ok [sample_account "home" true]
  ∧ resolveWriteAccount sample_registry (Some (js " home "))
    = Err (InvalidAccountId (js " home ")).
Proof.
  destruct (padded_account_argument sample_registry (js "home") eq_refl)
    as [Hread Hwrite].
  split; [exact (eq_trans Hread eq_refl)|exact Hwrite].
Defined.
